(** * Pen convolution engine: knot rings, pen validation, subdivision, convolution

    A shallow embedding of the brush core of the rendering library
    ([src/brush.c], [src/draw.c], the knot pool and ring operations of
    [knots.c], the intrusive list of [list.c] and [reduce_angle]).

    - A C [double] is a binary64 value of [PrimFloat]; [+ - * /], [sqrt],
      [fabs] and the comparisons are the IEEE-754 operations, each
      rounded to nearest on its own (no fused multiply-add, no extended
      precision).  The libm functions [atan2] and [hypot] are parameters
      of the development.
    - Knots live in an arena [list knot_t]; a pointer is an index into it.
      Dereferencing an index outside the arena has no defined result and
      is modelled by [None].
    - The global scratch arrays [tee_stack] and [trace] are lists of
      fixed length together with their top index; a store outside the
      array is [None].
    - The [do ... while] loops over a ring carry a fuel argument, which
      the entry points set to the size of the arena. *)

From Stdlib Require Import ZArith Lia Floats.
From stdpp Require Import base option list sets.

Set Default Proof Using "Type".
Open Scope float_scope.

(** ** Constants of [brush.c] and [common.h] *)

Definition PEN_MAX : nat := 1024.
Definition TRACE_MAX : nat := 1024.
Definition SMALL : float := 0x1.19799812dea11p-40. (* 0.000000000001 *)
Definition M_PI : float := 0x1.921fb54442d18p+1.   (* 3.14159265358979323846 *)
Definition c0_3 : float := 0x1.3333333333333p-2.   (* 0.3 *)
Definition c0_7 : float := 0x1.6666666666666p-1.   (* 0.7 *)

(** ** Data model ([list.h], [knots.h], [common.h]) *)

Abbreviation ptr := nat (only parsing).

Record node := Node { n_succ : ptr; n_pred : ptr }.

Inductive knot_type :=
  | kt_regular | kt_explicit | kt_given | kt_curl | kt_open.

#[export] Instance knot_type_eq_dec : EqDecision knot_type.
Proof. solve_decision. Defined.

(** [knot_info] is a union of three structs of two doubles each; the core
    reads and writes it through its member [e] only. *)
Record knot_info := Info { e_x : float; e_y : float }.

Record knot_t := Knot {
  list_node : node;
  k_x : float;
  k_y : float;
  left_info : knot_info;
  right_info : knot_info;
  left_type : knot_type;
  right_type : knot_type
}.

Record point_t := Point { p_x : float; p_y : float }.

Record return_cubic_t := Cubic {
  c_start : point_t; c_end : point_t; c_c1 : point_t; c_c2 : point_t
}.

Abbreviation heap := (list knot_t) (only parsing).

Definition SUCC (k : knot_t) : ptr := n_succ (list_node k).
Definition PRED (k : knot_t) : ptr := n_pred (list_node k).

(** Field stores. *)
Definition set_node (n : node) (k : knot_t) : knot_t :=
  Knot n (k_x k) (k_y k) (left_info k) (right_info k) (left_type k)
       (right_type k).
Definition set_succ (s : ptr) (k : knot_t) : knot_t :=
  set_node (Node s (PRED k)) k.
Definition set_pred (p : ptr) (k : knot_t) : knot_t :=
  set_node (Node (SUCC k) p) k.
Definition set_xy (px py : float) (k : knot_t) : knot_t :=
  Knot (list_node k) px py (left_info k) (right_info k) (left_type k)
       (right_type k).
Definition set_left_info (i : knot_info) (k : knot_t) : knot_t :=
  Knot (list_node k) (k_x k) (k_y k) i (right_info k) (left_type k)
       (right_type k).
Definition set_right_info (i : knot_info) (k : knot_t) : knot_t :=
  Knot (list_node k) (k_x k) (k_y k) (left_info k) i (left_type k)
       (right_type k).
Definition set_left_type (t : knot_type) (k : knot_t) : knot_t :=
  Knot (list_node k) (k_x k) (k_y k) (left_info k) (right_info k) t
       (right_type k).
Definition set_right_type (t : knot_type) (k : knot_t) : knot_t :=
  Knot (list_node k) (k_x k) (k_y k) (left_info k) (right_info k)
       (left_type k) t.

(** [p->field = v]: the pointer must be valid. *)
Definition store (h : heap) (p : ptr) (f : knot_t → knot_t) : option heap :=
  k ← h !! p; Some (<[p := f k]> h).

(** ** The intrusive list ([list.c]) *)

(** The macro [LINK(pred, new_node, succ)], its four stores in order. *)
Definition LINK (h : heap) (pr nw sc : ptr) : option heap :=
  h ← store h nw (set_succ sc);
  h ← store h nw (set_pred pr);
  h ← store h sc (set_pred nw);
  store h pr (set_succ nw).

Definition list_insert_after (h : heap) (pr nw : ptr) : option heap :=
  k ← h !! pr; LINK h pr nw (SUCC k).

Definition list_insert_before (h : heap) (nw sc : ptr) : option heap :=
  k ← h !! sc; LINK h (PRED k) nw sc.

(** ** The knot pool ([knots.c]) *)

Definition zero_knot : knot_t :=
  Knot (Node 0%nat 0%nat) 0 0 (Info 0 0) (Info 0 0) kt_regular kt_regular.

(** [knots_get] hands out a knot that is in no ring.  The pool carves
    knots out of [calloc]ed blocks; here the arena grows by one zeroed
    knot. *)
Definition knots_get (h : heap) : heap * ptr :=
  (h ++ [zero_knot], length h).

(** [knots_ring_reverse]: one pass over the ring that swaps, in every
    knot, the two infos, the two types and the two links, and remembers
    the last knot whose right type was [kt_regular]. *)
Definition reverse_knot (k : knot_t) : knot_t :=
  Knot (Node (PRED k) (SUCC k)) (k_x k) (k_y k) (right_info k) (left_info k)
       (right_type k) (left_type k).

Fixpoint knots_ring_reverse_loop (fuel : nat) (knots : ptr) (h : heap)
    (current_knot : ptr) (new_start : option ptr) : option (heap * option ptr) :=
  match fuel with
  | O => None
  | S fuel =>
    left_knot ← h !! current_knot;
    let new_start :=
      if decide (right_type left_knot = kt_regular) then Some current_knot
      else new_start in
    let right_knot := SUCC left_knot in
    let h := <[current_knot := reverse_knot left_knot]> h in
    if decide (right_knot = knots) then Some (h, new_start)
    else knots_ring_reverse_loop fuel knots h right_knot new_start
  end.

Definition knots_ring_reverse (h : heap) (knots : ptr) : option (heap * ptr) :=
  '(h, new_start) ← knots_ring_reverse_loop (length h) knots h knots None;
  match new_start with
  | Some new_start =>
    k ← h !! new_start;
    let left_knot := PRED k in
    h ← store h new_start (set_left_type kt_open);
    h ← store h left_knot (set_right_type kt_regular);
    Some (h, new_start)
  | None => Some (h, knots)
  end.

(** ** Path construction ([draw.c]) *)

Definition moveto (h : heap) (point : point_t) : heap * ptr :=
  let '(h, knot) := knots_get h in
  (<[knot := Knot (Node knot knot) (p_x point) (p_y point)
                  (Info 0 0) (Info 0 0) kt_open kt_regular]> h, knot).

Definition lineto (h : heap) (p : ptr) (point : point_t) : option (heap * ptr) :=
  kp ← h !! p;
  let r := PRED kp in
  let '(h, q) := knots_get h in
  h ← store h q (set_xy (p_x point) (p_y point));
  h ← store h q (set_right_type kt_regular);
  h ← list_insert_before h q p;
  kr ← h !! r;
  kq ← h !! q;
  h ← store h r (set_right_type kt_explicit);
  h ← store h r (set_right_info
        (Info (k_x kr + c0_3 * (k_x kq - k_x kr))
              (k_y kr + c0_3 * (k_y kq - k_y kr))));
  h ← store h q (set_left_type kt_explicit);
  h ← store h q (set_left_info
        (Info (k_x kr + c0_7 * (k_x kq - k_x kr))
              (k_y kr + c0_7 * (k_y kq - k_y kr))));
  Some (h, p).

Definition curveto (h : heap) (p : ptr) (control1 control2 end_ : point_t)
    : option (heap * ptr) :=
  kp ← h !! p;
  let r := PRED kp in
  let '(h, q) := knots_get h in
  h ← store h q (set_xy (p_x end_) (p_y end_));
  h ← store h q (set_right_type kt_regular);
  h ← list_insert_before h q p;
  h ← store h r (set_right_type kt_explicit);
  h ← store h r (set_right_info (Info (p_x control1) (p_y control1)));
  h ← store h q (set_left_type kt_explicit);
  h ← store h q (set_left_info (Info (p_x control2) (p_y control2)));
  Some (h, p).

Definition pathclose (h : heap) (p : ptr) : option (heap * ptr) :=
  kp ← h !! p;
  let r := PRED kp in
  let q := p in
  if decide (r = p) then Some (h, p)
  else
    kr ← h !! r;
    kq ← h !! q;
    h ← store h r (set_right_type kt_explicit);
    h ← store h r (set_right_info
          (Info (k_x kr + c0_3 * (k_x kq - k_x kr))
                (k_y kr + c0_3 * (k_y kq - k_y kr))));
    h ← store h q (set_left_type kt_explicit);
    h ← store h q (set_left_info
          (Info (k_x kr + c0_7 * (k_x kq - k_x kr))
                (k_y kr + c0_7 * (k_y kq - k_y kr))));
    Some (h, p).

(** ** [reduce_angle] *)

Definition reduce_angle (angle : float) : float :=
  if M_PI <? angle then angle - 2 * M_PI
  else if angle <? - M_PI then angle + 2 * M_PI
  else angle.

(** ** The pen validator [brush_make] *)

(** The two stores of control points of the edge [p → q]. *)
Definition set_edge_controls (h : heap) (p : ptr) : option heap :=
  kp ← h !! p;
  let q := SUCC kp in
  kq ← h !! q;
  let du := k_x kq - k_x kp in
  let dv := k_y kq - k_y kp in
  h ← store h p (set_right_info (Info (k_x kp + du / 3) (k_y kp + dv / 3)));
  store h q (set_left_info (Info (k_x kq - du / 3) (k_y kq - dv / 3))).

Section Libm.

(** [atan2] of the C library. *)
Variable atan2 : float → float → float.

Fixpoint brush_make_loop (fuel : nat) (knots : ptr) (h : heap) (p : ptr)
    (dx dy alpha : float) : option (heap * Z) :=
  match fuel with
  | O => None
  | S fuel =>
    kp ← h !! p;
    let q := SUCC kp in
    kq ← h !! q;
    let du := k_x kq - k_x kp in
    let dv := k_y kq - k_y kp in
    h ← set_edge_controls h p;
    if (0 =? du) && (0 =? dv) then Some (h, (-1)%Z)
    else
      let theta := reduce_angle (atan2 dv du - atan2 dy dx) in
      if theta <=? 0 then Some (h, (-2)%Z)
      else
        let alpha := alpha + theta in
        if decide (q = knots) then
          if 2 * M_PI <? alpha then Some (h, (-3)%Z) else Some (h, 1%Z)
        else brush_make_loop fuel knots h q du dv alpha
  end.

Definition brush_make (h : heap) (knots : ptr) : option (heap * Z) :=
  p ← h !! knots;
  q ← h !! PRED p;
  let dx := k_x p - k_x q in
  let dy := k_y p - k_y q in
  if (0 =? dx) && (0 =? dy) then Some (h, (-1)%Z)
  else brush_make_loop (length h) knots h knots dx dy 0.

End Libm.

(** ** The tee stack: [tee_stack] and [tee_top] *)

Record tees := Tees { tee_stack : list float; tee_top : nat }.

(** [tee_stack[tee_top++] = v] *)
Definition tee_push (t : tees) (v : float) : option tees :=
  if decide (tee_top t < length (tee_stack t))
  then Some (Tees (<[tee_top t := v]> (tee_stack t)) (S (tee_top t)))
  else None.

(** The zero-initialised global of [2 * PEN_MAX] doubles. *)
Definition tees_init : tees := Tees (replicate (2 * PEN_MAX) 0) 0.

(** *** Sorting the tees: [partition_tees] and [sort_tees]

    The indices are [uint32_t]; [lo - 1] wraps around at [lo = 0]. *)
Definition u32 (z : Z) : Z := (z mod 2 ^ 32)%Z.

Definition tee_at (st : list float) (i : Z) : option float :=
  st !! Z.to_nat i.

Fixpoint scan_up (fuel : nat) (st : list float) (i : Z) (pivot : float)
    : option Z :=
  match fuel with
  | O => None
  | S fuel =>
    let i := u32 (i + 1) in
    v ← tee_at st i;
    if v <? pivot then scan_up fuel st i pivot else Some i
  end.

Fixpoint scan_down (fuel : nat) (st : list float) (j : Z) (pivot : float)
    : option Z :=
  match fuel with
  | O => None
  | S fuel =>
    let j := u32 (j - 1) in
    v ← tee_at st j;
    if pivot <? v then scan_down fuel st j pivot else Some j
  end.

Fixpoint partition_loop (fuel : nat) (st : list float) (i j : Z)
    (pivot : float) : option (list float * Z) :=
  match fuel with
  | O => None
  | S fuel =>
    i ← scan_up (S (length st)) st i pivot;
    j ← scan_down (S (length st)) st j pivot;
    if (j <=? i)%Z then Some (st, j)
    else
      tee ← tee_at st i;
      vj ← tee_at st j;
      let st := <[Z.to_nat i := vj]> st in
      let st := <[Z.to_nat j := tee]> st in
      partition_loop fuel st i j pivot
  end.

Definition partition_tees (st : list float) (lo hi : Z)
    : option (list float * Z) :=
  pivot ← tee_at st lo;
  partition_loop (S (length st)) st (u32 (lo - 1)) (u32 (hi + 1)) pivot.

Fixpoint sort_tees (fuel : nat) (st : list float) (lo hi : Z)
    : option (list float) :=
  match fuel with
  | O => None
  | S fuel =>
    if (lo <? hi)%Z then
      '(st, i) ← partition_tees st lo hi;
      st ← sort_tees fuel st lo i;
      sort_tees fuel st (u32 (i + 1)) hi
    else Some st
  end.

(** *** [solve_quadratic] and [solve_bezier] *)

Definition solve_quadratic (t : tees) (a b c : float) : option (tees * Z) :=
  if 0 =? a then
    if negb (0 =? b) then
      t ← tee_push t (c / (2 * b)); Some (t, 1%Z)
    else Some (t, 0%Z)
  else if 0 =? c then
    t ← tee_push t 0;
    if negb (0 =? b) then
      t ← tee_push t (2 * b / a); Some (t, 2%Z)
    else Some (t, 1%Z)
  else
    let d := b * b - a * c in
    if d <? 0 then Some (t, 0%Z)
    else
      let d := sqrt d in
      if 0 =? d then
        t ← tee_push t (b / a); Some (t, 1%Z)
      else if b <? 0 then
        t ← tee_push t (c / (b - d));
        t ← tee_push t ((b - d) / a);
        Some (t, 2%Z)
      else
        t ← tee_push t (c / (b + d));
        t ← tee_push t ((b + d) / a);
        Some (t, 2%Z).

Definition solve_bezier (t : tees) (u v w : float) : option (tees * Z) :=
  solve_quadratic t (u - v - v + w) (u - v) u.

(** The macros [ROR_X] and [ROR_Y]: rotate [(u,v)] right by the angle of
    [(x,y)]. *)
Definition ROR_X (x y u v : float) : float := u * x + v * y.
Definition ROR_Y (x y u v : float) : float := v * x - u * y.

Section Libm_hypot.

(** [hypot] of the C library. *)
Variable hypot : float → float → float.

Definition inflection_tees (h : heap) (t : tees) (knots : ptr) : option tees :=
  p ← h !! knots;
  q ← h !! SUCC p;
  let x1 := e_x (right_info p) - k_x p in
  let y1 := e_y (right_info p) - k_y p in
  let x2 := e_x (left_info q) - k_x p in
  let y2 := e_y (left_info q) - k_y p in
  let x3 := k_x q - k_x p in
  let y3 := k_y q - k_y p in
  let m := hypot x3 y3 in
  let t0 := x3 / m in
  let t1 := y3 / m in
  let x0 := ROR_X t0 t1 x1 y1 in
  let y0 := ROR_Y t0 t1 x1 y1 in
  let x1 := ROR_X t0 t1 x2 y2 in
  let y1 := ROR_Y t0 t1 x2 y2 in
  let x2 := ROR_X t0 t1 x3 y3 in
  let a := x1 * y0 in
  let b := x2 * y0 in
  let c := x0 * y1 in
  let d := x2 * y1 in
  let t0 := 18 * ((-3) * a + 2 * b + 3 * c - d) in
  let t1 := 9 * ((-3) * a + b + 3 * c) in
  let t2 := 18 * (c - a) in
  '(t, _) ← solve_quadratic t t0 t1 t2;
  Some t.

End Libm_hypot.

Fixpoint pen_tees_loop (fuel : nat) (pen : ptr) (h : heap) (t : tees)
    (x0 y0 x1 y1 x2 y2 : float) (p : ptr) : option tees :=
  match fuel with
  | O => None
  | S fuel =>
    kp ← h !! p;
    let q := SUCC kp in
    kq ← h !! q;
    let dx := k_x kq - k_x kp in
    let dy := k_y kq - k_y kp in
    let t0 := y0 * dx - x0 * dy in
    let t1 := y1 * dx - x1 * dy in
    let t2 := y2 * dx - x2 * dy in
    '(t, _) ← solve_bezier t t0 t1 t2;
    if decide (q = pen) then Some t
    else pen_tees_loop fuel pen h t x0 y0 x1 y1 x2 y2 q
  end.

Definition pen_tees (h : heap) (t : tees) (knots pen : ptr) : option tees :=
  p ← h !! knots;
  q ← h !! SUCC p;
  let x0 := e_x (right_info p) - k_x p in
  let y0 := e_y (right_info p) - k_y p in
  let x1 := e_x (left_info q) - e_x (right_info p) in
  let y1 := e_y (left_info q) - e_y (right_info p) in
  let x2 := k_x q - e_x (left_info q) in
  let y2 := k_y q - e_y (left_info q) in
  pen_tees_loop (length h) pen h t x0 y0 x1 y1 x2 y2 pen.

(** *** De Casteljau: [t_of_the_way] and [cubic_split] *)

Definition t_of_the_way (t a b : float) : float := a + t * (b - a).

Definition cubic_split (h : heap) (p : ptr) (t : float) : option (heap * ptr) :=
  kp ← h !! p;
  let q := SUCC kp in
  kq ← h !! q;
  let u0 := t_of_the_way t (k_x kp) (e_x (right_info kp)) in
  let u1 := t_of_the_way t (e_x (right_info kp)) (e_x (left_info kq)) in
  let u2 := t_of_the_way t (e_x (left_info kq)) (k_x kq) in
  let v0 := t_of_the_way t u0 u1 in
  let v1 := t_of_the_way t u1 u2 in
  let w0 := t_of_the_way t v0 v1 in
  let a0 := t_of_the_way t (k_y kp) (e_y (right_info kp)) in
  let a1 := t_of_the_way t (e_y (right_info kp)) (e_y (left_info kq)) in
  let a2 := t_of_the_way t (e_y (left_info kq)) (k_y kq) in
  let b0 := t_of_the_way t a0 a1 in
  let b1 := t_of_the_way t a1 a2 in
  let c0 := t_of_the_way t b0 b1 in
  let '(h, r) := knots_get h in
  h ← list_insert_after h p r;
  h ← store h r (set_xy w0 c0);
  h ← store h p (set_right_info (Info u0 a0));
  h ← store h r (set_left_info (Info v0 b0));
  h ← store h r (set_right_info (Info v1 b1));
  h ← store h q (set_left_info (Info u2 a2));
  h ← store h r (set_left_type kt_explicit);
  h ← store h r (set_right_type kt_explicit);
  Some (h, r).

(** *** [split_at_tees] *)

(** The filter loop: tees outside the open interval (0,1) are replaced by
    the top of the stack. *)
Fixpoint filter_tees (fuel : nat) (t : tees) (i : nat) : option tees :=
  match fuel with
  | O => None
  | S fuel =>
    if decide (i < tee_top t) then
      m ← tee_stack t !! i;
      if (0 <? m) && (m <? 1) then filter_tees fuel t (S i)
      else
        let top := Nat.pred (tee_top t) in
        v ← tee_stack t !! top;
        filter_tees fuel (Tees (<[i := v]> (tee_stack t)) top) i
    else Some t
  end.

(** The split loop: [for (i = 0; i < tee_top; i++)]. *)
Fixpoint split_loop (fuel : nat) (t : tees) (h : heap) (p : ptr) (s : float)
    (i : nat) : option (heap * ptr) :=
  match fuel with
  | O => None
  | S fuel =>
    if decide (i < tee_top t) then
      x ← tee_stack t !! i;
      if negb (s =? x) then
        '(h, p) ← cubic_split h p ((x - s) / (1 - s));
        split_loop fuel t h p x (S i)
      else split_loop fuel t h p s (S i)
    else Some (h, p)
  end.

Section Libm_split.

Variable hypot : float → float → float.

Fixpoint split_at_tees_loop (fuel : nat) (knots brush : ptr) (h : heap)
    (t : tees) (p : ptr) : option (heap * tees) :=
  match fuel with
  | O => None
  | S fuel =>
    let t := Tees (tee_stack t) 0 in
    t ← inflection_tees hypot h t p;
    t ← pen_tees h t p brush;
    t ← filter_tees (S (tee_top t)) t 0;
    t ← (if decide (1 < tee_top t)
         then st ← sort_tees (S (tee_top t)) (tee_stack t) 0
                      (Z.of_nat (tee_top t) - 1);
              Some (Tees st (tee_top t))
         else Some t);
    '(h, p) ← split_loop (S (tee_top t)) t h p 0 0;
    kp ← h !! p;
    let p := SUCC kp in
    if decide (p = knots) then Some (h, t)
    else
      kp ← h !! p;
      if decide (right_type kp = kt_regular) then Some (h, t)
      else split_at_tees_loop fuel knots brush h t p
  end.

Definition split_at_tees (h : heap) (t : tees) (knots brush : ptr)
    : option (heap * tees) :=
  split_at_tees_loop (length h) knots brush h t knots.

End Libm_split.

(** ** The trace buffer: [trace] and [trace_top] *)

Record tracebuf := Trace { trace : list point_t; trace_top : nat }.

Definition trace_init : tracebuf :=
  Trace (replicate TRACE_MAX (Point 0 0)) 0.

(** [trace[i] = v] *)
Definition trace_store (tr : list point_t) (i : nat) (v : point_t)
    : option (list point_t) :=
  if decide (i < length tr) then Some (<[i := v]> tr) else None.

Definition make_move (h : heap) (tb : tracebuf) (r p : ptr) : option tracebuf :=
  kr ← h !! r;
  kp ← h !! p;
  kq ← h !! SUCC kp;
  let i := trace_top tb in
  tr ← trace_store (trace tb) i (Point (k_x kr + k_x kp) (k_y kr + k_y kp));
  tr ← trace_store tr (i + 3) (Point (k_x kr + k_x kq) (k_y kr + k_y kq));
  tr ← trace_store tr (i + 1)
         (Point (k_x kr + e_x (right_info kp)) (k_y kr + e_y (right_info kp)));
  tr ← trace_store tr (i + 2)
         (Point (k_x kr + e_x (left_info kq)) (k_y kr + e_y (left_info kq)));
  Some (Trace tr (i + 4)).

Definition clockwise (dx dy du dv : float) : bool :=
  let d := dx * dv - dy * du in
  if abs d <? SMALL then true else 0 <=? d.

Definition within_turn (x1 y1 x2 y2 x3 y3 : float) : bool :=
  if negb (clockwise x1 y1 x2 y2) then
    clockwise x2 y2 x3 y3 && clockwise x3 y3 x1 y1
  else clockwise x1 y1 x3 y3 && clockwise x3 y3 x2 y2.

Definition convolve (h : heap) (tb : tracebuf) (p : ptr)
    (x1 y1 x2 y2 x3 y3 : float) (r : ptr) : option tracebuf :=
  kr ← h !! r;
  s ← h !! PRED kr;
  let x4 := k_x kr - k_x s in
  let y4 := k_y kr - k_y s in
  s ← h !! SUCC kr;
  let x5 := k_x s - k_x kr in
  let y5 := k_y s - k_y kr in
  tb ← (if within_turn x1 y1 x2 y2 x5 y5 then make_move h tb p r
        else Some tb);
  if within_turn x4 y4 x5 y5 x3 y3 then make_move h tb r p else Some tb.

Fixpoint convolve_pen_loop (fuel : nat) (brush : ptr) (h : heap)
    (tb : tracebuf) (p : ptr) (x1 y1 x2 y2 x3 y3 : float) (r : ptr)
    : option tracebuf :=
  match fuel with
  | O => None
  | S fuel =>
    tb ← convolve h tb p x1 y1 x2 y2 x3 y3 r;
    kr ← h !! r;
    let r := SUCC kr in
    if decide (r = brush) then Some tb
    else convolve_pen_loop fuel brush h tb p x1 y1 x2 y2 x3 y3 r
  end.

Fixpoint convolve_all_loop (fuel : nat) (knots brush : ptr) (h : heap)
    (tb : tracebuf) (p : ptr) : option tracebuf :=
  match fuel with
  | O => None
  | S fuel =>
    kp ← h !! p;
    let q := SUCC kp in
    kq ← h !! q;
    let r := brush in
    let x2 := e_x (right_info kp) - k_x kp in
    let y2 := e_y (right_info kp) - k_y kp in
    let '(x1, y1) :=
      if decide (left_type kp = kt_explicit)
      then (k_x kp - e_x (left_info kp), k_y kp - e_y (left_info kp))
      else (- x2, - y2) in
    let x3 := k_x kq - k_x kp in
    let y3 := k_y kq - k_y kp in
    tb ← convolve_pen_loop (length h) brush h tb p x1 y1 x2 y2 x3 y3 r;
    let p := q in
    if decide (p = knots) then Some tb
    else if decide (right_type kq = kt_regular) then Some tb
    else convolve_all_loop fuel knots brush h tb p
  end.

Definition convolve_all (h : heap) (tb : tracebuf) (knots brush : ptr)
    : option tracebuf :=
  convolve_all_loop (length h) knots brush h (Trace (trace tb) 0) knots.

(** ** Worked rings *)

(** [atan2] on the coordinate axes, where Annex F of the C standard fixes
    its value; used to run [brush_make] on axis-parallel pens. *)
Definition atan2_axis (y x : float) : float :=
  if y =? 0 then (if x <? 0 then M_PI else 0)
  else if x =? 0 then (if y <? 0 then - (M_PI / 2) else M_PI / 2)
  else nan.

(** [hypot] as the correctly rounded square root of the sum of squares. *)
Definition hypot_sqrt (x y : float) : float := sqrt (x * x + y * y).

Definition brush_make_square : option (heap * ptr) :=
  let '(h, knots) := moveto [] (Point 0.5 0.5) in
  '(h, knots) ← lineto h knots (Point (-0.5) 0.5);
  '(h, knots) ← lineto h knots (Point (-0.5) (-0.5));
  '(h, knots) ← lineto h knots (Point 0.5 (-0.5));
  pathclose h knots.


(** The heap holding just the square pen, head at address 0, before and
    after validation. *)
Definition square_pen : heap :=
  Eval vm_compute in
    match brush_make_square with Some (h, _) => h | None => [] end.

Definition square_pen_validated : heap :=
  Eval vm_compute in
    match brush_make atan2_axis square_pen 0 with
    | Some (h, _) => h
    | None => []
    end.

(** The square built by [moveto] and three [lineto] but not closed by
    [pathclose]: a ring of four knots whose head has an open left side and
    whose tail has a regular right side. *)
Definition open_square : heap :=
  Eval vm_compute in
    match
      (let '(h, knots) := moveto [] (Point 0.5 0.5) in
       '(h, knots) ← lineto h knots (Point (-0.5) 0.5);
       '(h, knots) ← lineto h knots (Point (-0.5) (-0.5));
       lineto h knots (Point 0.5 (-0.5)))
    with Some (h, _) => h | None => [] end.

(** The validated square pen (addresses 0 to 3) together with the path
    of one segment from (0,0) to (10,0) with control points (3,0) and
    (7,0) (addresses 4 and 5). *)
Definition straight_scene : heap :=
  Eval vm_compute in
    match
      (let '(h, knots) := moveto square_pen_validated (Point 0 0) in
       curveto h knots (Point 3 0) (Point 7 0) (Point 10 0))
    with Some (h, _) => h | None => [] end.


(** ** Observations used in the statements *)

(** The knot [q] follows [p]: the two links between them agree. *)
Definition linked (h : heap) (p q : ptr) : Prop :=
  SUCC <$> h !! p = Some q ∧ PRED <$> h !! q = Some p.

#[export] Instance linked_dec h p q : Decision (linked h p q).
Proof. unfold linked. apply _. Defined.

(** [l] lists, from its head on and in [succ] order, the knots of a ring
    of the heap: pairwise distinct valid knots, each linked to the next
    and the last one to the head. *)
Definition is_ring (h : heap) (l : list ptr) : Prop :=
  match l with
  | [] => False
  | p0 :: t => NoDup l ∧ Forall2 (linked h) l (t ++ [p0])
  end.

#[export] Instance is_ring_dec h l : Decision (is_ring h l).
Proof. destruct l; simpl; apply _. Defined.

(** What [brush_make] leaves alone in a knot: links, position, tags. *)
Definition knot_frame (k : knot_t)
    : node * float * float * knot_type * knot_type :=
  (list_node k, k_x k, k_y k, left_type k, right_type k).

(** The control points of the edges leaving the knots [ps], stored edge by
    edge. *)
Fixpoint set_edges_controls (h : heap) (ps : list ptr) : option heap :=
  match ps with
  | [] => Some h
  | p :: ps => h ← set_edge_controls h p; set_edges_controls h ps
  end.

(** The points at one third of the edge to the successor and at one third
    of the edge from the predecessor. *)
Definition chord_right (h : heap) (k : knot_t) : option knot_info :=
  q ← h !! SUCC k;
  Some (Info (k_x k + (k_x q - k_x k) / 3) (k_y k + (k_y q - k_y k) / 3)).

Definition chord_left (h : heap) (k : knot_t) : option knot_info :=
  p ← h !! PRED k;
  Some (Info (k_x k - (k_x k - k_x p) / 3) (k_y k - (k_y k - k_y p) / 3)).


(** The tee stack after pushing the values [vs] in order. *)
Definition tee_pushes (t : tees) (vs : list float) : tees :=
  foldl (λ t v, Tees (<[tee_top t := v]> (tee_stack t)) (S (tee_top t))) t vs.

(** A run of tee-pushing code: it pushed [vs] onto [t], within bounds, and
    from any other stack with room for [vs] it pushes the same values. *)
Definition pushes {A} (run : tees → option (tees * A)) (t t' : tees) (a : A)
    (vs : list float) : Prop :=
  t' = tee_pushes t vs ∧ (tee_top t + length vs ≤ length (tee_stack t))%nat ∧
  ∀ s, (tee_top s + length vs ≤ length (tee_stack s))%nat →
       run s = Some (tee_pushes s vs, a).

(** The points emitted so far: the cells of [trace] below [trace_top]. *)
Definition emitted (tb : tracebuf) : list point_t :=
  take (trace_top tb) (trace tb).

(** The four points that [make_move r p] stores, in buffer order: the
    segment from [p] to its successor [q], translated by the position of
    [r]. *)
Definition move_points (kr kp kq : knot_t) : list point_t :=
  [Point (k_x kr + k_x kp) (k_y kr + k_y kp);
   Point (k_x kr + e_x (right_info kp)) (k_y kr + e_y (right_info kp));
   Point (k_x kr + e_x (left_info kq)) (k_y kr + e_y (left_info kq));
   Point (k_x kr + k_x kq) (k_y kr + k_y kq)].

(** The knots of a path ring that [split_at_tees] and [convolve_all]
    visit: the head, and then its successors up to the first knot whose
    right side is regular. *)
Fixpoint until_regular (h : heap) (t : list ptr) : list ptr :=
  match t with
  | [] => []
  | q :: t =>
    if decide (right_type <$> h !! q = Some kt_regular) then []
    else q :: until_regular h t
  end.

Definition segments (h : heap) (l : list ptr) : list ptr :=
  match l with
  | [] => []
  | p0 :: t => p0 :: until_regular h t
  end.

(** The number of [make_move] calls of [convolve] for the path knot [p]
    and the pen knot [r], with the tangents that [convolve_all] passes. *)
Definition moves_at (h : heap) (p r : ptr) : nat :=
  match h !! p, h !! r with
  | Some kp, Some kr =>
    match h !! SUCC kp, h !! PRED kr, h !! SUCC kr with
    | Some kq, Some s4, Some s5 =>
      let x2 := e_x (right_info kp) - k_x kp in
      let y2 := e_y (right_info kp) - k_y kp in
      let '(x1, y1) :=
        if decide (left_type kp = kt_explicit)
        then (k_x kp - e_x (left_info kp), k_y kp - e_y (left_info kp))
        else (- x2, - y2) in
      let x3 := k_x kq - k_x kp in
      let y3 := k_y kq - k_y kp in
      let x4 := k_x kr - k_x s4 in
      let y4 := k_y kr - k_y s4 in
      let x5 := k_x s5 - k_x kr in
      let y5 := k_y s5 - k_y kr in
      Nat.add (if within_turn x1 y1 x2 y2 x5 y5 then 1%nat else 0%nat)
              (if within_turn x4 y4 x5 y5 x3 y3 then 1%nat else 0%nat)
    | _, _, _ => 0%nat
    end
  | _, _ => 0%nat
  end.

(** The number of pieces for the visited path knots [ps] and the pen
    [rs]. *)
Definition pieces (h : heap) (ps rs : list ptr) : nat :=
  sum_list ((λ p, sum_list (moves_at h p <$> rs)) <$> ps).

(** The knots of [l] whose right side is regular. *)
Definition regular_knots (h : heap) (l : list ptr) : list ptr :=
  filter (λ p, right_type <$> h !! p = Some kt_regular) l.



(** The path of one segment built by [moveto (0,0)] and [lineto (1,0)]. *)
Definition two_knot_path : heap :=
  Eval vm_compute in
    match (let '(h, knots) := moveto [] (Point 0 0) in
           lineto h knots (Point 1 0))
    with Some (h, _) => h | None => [] end.

(** The candidate tees of the segment leaving [knots]: what
    [inflection_tees] and [pen_tees] push, starting from the empty
    stack. *)
Definition candidate_tees (hypot : float → float → float) (h : heap)
    (knots brush : ptr) : option (list float) :=
  t ← inflection_tees hypot h tees_init knots;
  t ← pen_tees h t knots brush;
  Some (take (tee_top t) (tee_stack t)).

(** The slope tees alone. *)
Definition slope_tees (h : heap) (knots brush : ptr) : option (list float) :=
  t ← pen_tees h tees_init knots brush;
  Some (take (tee_top t) (tee_stack t)).

(** A tee that the filter of [split_at_tees] drops. *)
Definition outside (m : float) : Prop := (0 <? m) && (m <? 1) = false.

#[export] Instance outside_dec m : Decision (outside m).
Proof. unfold outside. apply _. Defined.

(** Every candidate tee of the segment leaving [p] is dropped by the
    filter. *)
Definition no_tee_inside (hypot : float → float → float) (h : heap)
    (brush p : ptr) : Prop :=
  match candidate_tees hypot h p brush with
  | Some vs => Forall outside vs
  | None => False
  end.

#[export] Instance no_tee_inside_dec hypot h brush p :
  Decision (no_tee_inside hypot h brush p).
Proof. unfold no_tee_inside. destruct (candidate_tees _ _ _ _); apply _. Defined.

(** The path of scenario 4, at the addresses 0 and 1: one segment from
    (0,0) to (10,0) with control points (0,10) and (10,-10). *)
Definition inflection_path : heap :=
  Eval vm_compute in
    match (let '(h, knots) := moveto [] (Point 0 0) in
           curveto h knots (Point 0 10) (Point 10 (-10)) (Point 10 0))
    with Some (h, _) => h | None => [] end.

(** Behind the path, at the addresses 2 to 5, the validated square pen;
    and, instead, at the addresses 2 to 4 a thin triangle with the
    corners (0,0), (-1,5), (-2,9) and the control points that
    [brush_make] stores; its edges are parallel to tangents of the cubic
    only at parameters outside the interval from 0 to 1. *)
Definition inflection_square_scene : heap :=
  Eval vm_compute in
    match
      (let '(h, knots) := moveto inflection_path (Point 0.5 0.5) in
       '(h, knots) ← lineto h knots (Point (-0.5) 0.5);
       '(h, knots) ← lineto h knots (Point (-0.5) (-0.5));
       '(h, knots) ← lineto h knots (Point 0.5 (-0.5));
       '(h, knots) ← pathclose h knots;
       set_edges_controls h [2; 3; 4; 5]%nat)
    with Some h => h | None => [] end.

Definition thin_triangle : heap :=
  Eval vm_compute in
    match
      (let '(h, knots) := moveto inflection_path (Point 0 0) in
       '(h, knots) ← lineto h knots (Point (-1) 5);
       '(h, knots) ← lineto h knots (Point (-2) 9);
       '(h, knots) ← pathclose h knots;
       set_edges_controls h [2; 3; 4]%nat)
    with Some h => h | None => [] end.


(** The two scenes after one run of [split_at_tees] from the head of the
    path. *)
Definition inflection_square_split : heap :=
  Eval vm_compute in
    match split_at_tees hypot_sqrt inflection_square_scene tees_init 0 2
    with Some (h, _) => h | None => [] end.

Definition thin_triangle_split : heap :=
  Eval vm_compute in
    match split_at_tees hypot_sqrt thin_triangle tees_init 0 2
    with Some (h, _) => h | None => [] end.


(** Every knot of the pen has a valid predecessor. *)
Definition pen_ok (h : heap) (rs : list ptr) : Prop :=
  Forall (λ r, ∃ kr s4, h !! r = Some kr ∧ h !! PRED kr = Some s4) rs.

(** Decidable statements about concrete rings are settled by evaluation. *)
Ltac by_compute :=
  match goal with
  | |- ?P => apply (bool_decide_unpack P); vm_compute; exact I
  end.

(** * Further operations of the library *)

(** ** [list.c]: [list_remove_node] *)

Definition list_remove_node (h : heap) (target_node : ptr) : option heap :=
  k ← h !! target_node;
  let pred := PRED k in
  let succ := SUCC k in
  h ← store h pred (set_succ succ);
  store h succ (set_pred pred).

(** ** [knots.c]: [knots_copy], [knots_split], [knots_ring_clone] *)





(** ** [draw.c]: the relative builders [rmoveto] and [rlineto] *)



(** ** Observations on rings and knots *)

(** The payload of a knot: everything but its links. *)
Definition knot_data (k : knot_t)
    : float * float * knot_info * knot_info * knot_type * knot_type :=
  (k_x k, k_y k, left_info k, right_info k, left_type k, right_type k).

(** A path as [moveto], [lineto], [rlineto] and [curveto] build it: a
    ring whose head is open on the left, whose last knot is regular on
    the right, and all of whose other sides are explicit. *)
Definition side_types_at (h : heap) (n : nat) (ip : nat * ptr) : Prop :=
  left_type <$> h !! ip.2
  = Some (if decide (ip.1 = 0%nat) then kt_open else kt_explicit) ∧
  right_type <$> h !! ip.2
  = Some (if decide (S ip.1 = n) then kt_regular else kt_explicit).

Definition side_types (h : heap) (l : list ptr) : Prop :=
  ∀ i p, l !! i = Some p → side_types_at h (length l) (i, p).

#[export] Instance side_types_dec h l : Decision (side_types h l).
Proof.
  refine (cast_if (decide (Forall (side_types_at h (length l))
                             (imap pair l))));
    unfold side_types; rewrite Forall_forall in *.
  - intros i p Hi. apply f. apply elem_of_lookup_imap. by exists i, p.
  - intros H. apply n. intros [i p] (i' & p' & [= -> ->] & Hi)%elem_of_lookup_imap.
    by apply H.
Defined.

Definition open_path (h : heap) (l : list ptr) : Prop :=
  is_ring h l ∧ side_types h l.

#[export] Instance open_path_dec h l : Decision (open_path h l).
Proof. unfold open_path. apply _. Defined.



(** A closed path: a ring all of whose sides are explicit. *)
Definition closed_path (h : heap) (l : list ptr) : Prop :=
  is_ring h l ∧
  Forall (λ a, left_type <$> h !! a = Some kt_explicit ∧
               right_type <$> h !! a = Some kt_explicit) l.

#[export] Instance closed_path_dec h l : Decision (closed_path h l).
Proof. unfold closed_path. apply _. Defined.

(** The points that [cubic_split] computes for one coordinate of the
    cubic [(a, b, c, d)] at the parameter [t]: [u0], [v0], [w0], [v1]
    and [u2] (the locals [a0], [b0], [c0], [b1], [a2] for the other
    coordinate). *)
Definition casteljau (t a b c d : float)
    : float * float * float * float * float :=
  let u0 := t_of_the_way t a b in
  let u1 := t_of_the_way t b c in
  let u2 := t_of_the_way t c d in
  let v0 := t_of_the_way t u0 u1 in
  let v1 := t_of_the_way t u1 u2 in
  let w0 := t_of_the_way t v0 v1 in
  (u0, v0, w0, v1, u2).

(** What no subdivision changes in a knot: position and side types. *)
Definition knot_fixed (k : knot_t) : float * float * knot_type * knot_type :=
  (k_x k, k_y k, left_type k, right_type k).

(** [h'] with the ring [l'] is [h] with the ring [l] after subdivision:
    the heap has only grown, the new knots are explicit on both sides
    and sit in the ring between the old ones, whose order, head,
    positions and side types are as before; knots outside the ring are
    untouched. *)
Definition grown (h h' : heap) (l l' : list ptr) : Prop :=
  (length h ≤ length h')%nat ∧
  is_ring h' l' ∧
  head l' = head l ∧
  sublist l l' ∧
  l' ≡ₚ l ++ seq (length h) (length h' - length h) ∧
  (∀ a, (a < length h)%nat → knot_fixed <$> h' !! a = knot_fixed <$> h !! a) ∧
  (∀ a, a ∉ l → (a < length h)%nat → h' !! a = h !! a) ∧
  (∀ a, (length h ≤ a < length h')%nat →
        left_type <$> h' !! a = Some kt_explicit ∧
        right_type <$> h' !! a = Some kt_explicit).

(** A tee strictly between 0 and 1, the test of the filter of
    [split_at_tees]. *)
Definition inside (m : float) : Prop := (0 <? m) && (m <? 1) = true.

#[export] Instance inside_dec m : Decision (inside m).
Proof. unfold inside. apply _. Defined.

(** The live part of the tee stack: the cells below [tee_top]. *)
Definition live (t : tees) : list float := take (tee_top t) (tee_stack t).

(** ** [image.c]: the RGBA image

    An [int] is a [Z]; an [int] operation whose result leaves the range
    of [int] has no defined result and is [None].  A [uint8_t] is a
    [byte].  A pointer that may be null is an [option]; the pixel buffer
    [img->data] is the list of its bytes, and an access outside it is
    [None].  [malloc] is taken to succeed. *)

Section Image.
Local Open Scope Z_scope.

Definition INT_MIN : Z := -2147483648.
Definition INT_MAX : Z := 2147483647.

Definition int (z : Z) : option Z :=
  if decide (INT_MIN ≤ z ≤ INT_MAX) then Some z else None.

Record color_t := Color {
  red : Byte.byte;
  green : Byte.byte;
  blue : Byte.byte;
  alpha : Byte.byte
}.

Record span_t := Span {
  x_start : Z;
  x_end : Z;
  s_y : Z;
  s_color : color_t
}.

(** [spans] is the allocated array, [count] the number of cells in use. *)
Record span_list_t := SpanList {
  spans : list span_t;
  count : nat;
  capacity : nat
}.

Record image_t := Image {
  data : option (list Byte.byte);
  width : Z;
  height : Z
}.

Definition peek (d : list Byte.byte) (i : Z) : option Byte.byte :=
  if decide (0 ≤ i) then d !! Z.to_nat i else None.

Definition poke (d : list Byte.byte) (i : Z) (b : Byte.byte) : option (list Byte.byte) :=
  if decide (0 ≤ i < Z.of_nat (length d)) then Some (<[Z.to_nat i := b]> d) else None.

Definition create_image (width height : Z) : option (option image_t) :=
  if decide (width ≤ 0 ∨ height ≤ 0) then Some None
  else
    wh ← int (width * height);
    n ← int (wh * 4);
    Some (Some (Image (Some (replicate (Z.to_nat n) Byte.x00)) width height)).

(** [(y * img->width + x) * 4] *)
Definition pixel_index (img : image_t) (x y : Z) : option Z :=
  r ← int (y * width img);
  s ← int (r + x);
  int (s * 4).

Definition set_pixel (img : option image_t) (x y : Z) (color : color_t)
    : option (option image_t) :=
  match img with
  | None => Some None
  | Some im =>
    match data im with
    | None => Some (Some im)
    | Some d =>
      if decide (x < 0 ∨ y < 0 ∨ x >= width im ∨ y >= height im)
      then Some (Some im)
      else
        index ← pixel_index im x y;
        d ← poke d index (red color);
        i ← int (index + 1);
        d ← poke d i (green color);
        i ← int (index + 2);
        d ← poke d i (blue color);
        i ← int (index + 3);
        d ← poke d i (alpha color);
        Some (Some (Image (Some d) (width im) (height im)))
    end
  end.

Definition black : color_t := Color Byte.x00 Byte.x00 Byte.x00 Byte.x00.

Definition get_pixel (img : option image_t) (x y : Z) : option color_t :=
  match img with
  | None => Some black
  | Some im =>
    match data im with
    | None => Some black
    | Some d =>
      if decide (x < 0 ∨ y < 0 ∨ x >= width im ∨ y >= height im)
      then Some black
      else
        index ← pixel_index im x y;
        r ← peek d index;
        i ← int (index + 1);
        g ← peek d i;
        i ← int (index + 2);
        b ← peek d i;
        i ← int (index + 3);
        a ← peek d i;
        Some (Color r g b a)
    end
  end.

(** The inner loop of [render_spans_to_image]:
    [for (x = span->x_start; x <= span->x_end; x++)]. *)
Fixpoint render_span (fuel : nat) (img : option image_t) (span : span_t)
    (x : Z) : option (option image_t) :=
  match fuel with
  | O => None
  | S fuel =>
    if decide (x ≤ x_end span) then
      img ← set_pixel img x (s_y span) (s_color span);
      x ← int (x + 1);
      render_span fuel img span x
    else Some img
  end.

(** The outer loop: [for (i = 0; i < spans->count; i++)]. *)
Fixpoint render_spans_loop (fuel : nat) (sl : span_list_t)
    (img : option image_t) (i : nat) : option (option image_t) :=
  match fuel with
  | O => None
  | S fuel =>
    if decide (i < count sl)%nat then
      span ← spans sl !! i;
      img ← render_span (S (Z.to_nat (x_end span - x_start span + 1))) img
              span (x_start span);
      render_spans_loop fuel sl img (S i)
    else Some img
  end.

Definition render_spans_to_image (sl : option span_list_t)
    (img : option image_t) : option (option image_t) :=
  match sl, img with
  | Some sl, Some _ => render_spans_loop (S (count sl)) sl img 0
  | _, _ => Some img
  end.

(** A buffer of four bytes per pixel whose size is an [int]. *)
Definition image_ok (im : image_t) : Prop :=
  ∃ d, data im = Some d ∧ 0 ≤ width im ∧ 0 ≤ height im ∧
       Z.of_nat (length d) = width im * height im * 4 ∧
       width im * height im * 4 ≤ INT_MAX.

(** The pixel [(x, y)] lies on the span. *)
Definition covers (s : span_t) (x y : Z) : Prop :=
  s_y s = y ∧ x_start s ≤ x ≤ x_end s.

#[export] Instance covers_dec s x y : Decision (covers s x y).
Proof. unfold covers. apply _. Defined.

(** The colour of a pixel once the spans are painted in order over the
    colour [c]: the last span that covers the pixel wins. *)
Definition paint (ss : list span_t) (c : color_t) (x y : Z) : color_t :=
  foldl (λ c s, if decide (covers s x y) then s_color s else c) c ss.

(** The four bytes of a pixel stored from cell [n] on, and read back. *)
Definition put (d : list Byte.byte) (n : nat) (c : color_t)
    : list Byte.byte :=
  <[(n + 3)%nat := alpha c]>
    (<[(n + 2)%nat := blue c]>
       (<[(n + 1)%nat := green c]> (<[n := red c]> d))).

Definition cell (d : list Byte.byte) (n : nat) : option color_t :=
  r ← d !! n; g ← d !! (n + 1)%nat; b ← d !! (n + 2)%nat;
  a ← d !! (n + 3)%nat; Some (Color r g b a).

(** A blank image of two by two pixels, a colour and two spans. *)
Definition blank2 : image_t := Image (Some (replicate 16 Byte.x00)) 2 2.

Definition opaque_red : color_t := Color Byte.xff Byte.x00 Byte.x00 Byte.xff.
Definition opaque_blue : color_t := Color Byte.x00 Byte.x00 Byte.xff Byte.xff.

Definition two_spans : span_list_t :=
  SpanList [Span 0 1 0 opaque_red; Span 1 5 0 opaque_blue;
            Span 0 0 1 opaque_red] 2 3.

End Image.

From stdpp Require Import sorting.

(** ** The order of the tees *)

(** A [double] that is a number: it equals itself. *)
Definition not_nan (x : float) : Prop := (x =? x)%float = true.

#[export] Instance not_nan_dec x : Decision (not_nan x).
Proof. unfold not_nan. apply _. Defined.

(** [x <= y] on [double]. *)
Definition fle (x y : float) : Prop := (x <=? y)%float = true.

(** The cells [lo .. hi] of the tee stack. *)
Definition slice (lo hi : nat) (st : list float) : list float :=
  take (S hi - lo) (drop lo st).

(** ** The points of a stroke *)

(** The points that [convolve] stores for the path knot [p] and the pen
    knot [r], with the tangents that [convolve_all] passes: the pen edge
    leaving [r] moved to [p], then the path segment leaving [p] moved to
    [r], each if its [within_turn] test holds. *)
Definition points_at (h : heap) (p r : ptr) : list point_t :=
  match h !! p, h !! r with
  | Some kp, Some kr =>
    match h !! SUCC kp, h !! PRED kr, h !! SUCC kr with
    | Some kq, Some s4, Some s5 =>
      let x2 := (e_x (right_info kp) - k_x kp)%float in
      let y2 := (e_y (right_info kp) - k_y kp)%float in
      let '(x1, y1) :=
        if decide (left_type kp = kt_explicit)
        then ((k_x kp - e_x (left_info kp))%float,
              (k_y kp - e_y (left_info kp))%float)
        else ((- x2)%float, (- y2)%float) in
      let x3 := (k_x kq - k_x kp)%float in
      let y3 := (k_y kq - k_y kp)%float in
      let x4 := (k_x kr - k_x s4)%float in
      let y4 := (k_y kr - k_y s4)%float in
      let x5 := (k_x s5 - k_x kr)%float in
      let y5 := (k_y s5 - k_y kr)%float in
      (if within_turn x1 y1 x2 y2 x5 y5 then move_points kp kr s5 else [])
      ++ (if within_turn x4 y4 x5 y5 x3 y3 then move_points kr kp kq else [])
    | _, _, _ => []
    end
  | _, _ => []
  end.

(** The points for the visited path knots [ps] and the pen [rs]: path
    knot by path knot, and for each of them pen knot by pen knot. *)
Definition stroke_points (h : heap) (ps rs : list ptr) : list point_t :=
  concat ((λ p, concat (points_at h p <$> rs)) <$> ps).

(** ** [transforms.c]: [brush_tf] *)

(** The matrix [transform[3][3]], row by row. *)
Definition matrix : Type :=
  (float * float * float) * (float * float * float) * (float * float * float).

(** A row applied to [brush_in = {x, y, 1.0}]. *)
Definition tf_row (r : float * float * float) (x y : float) : float :=
  (r.1.1 * x + r.1.2 * y + r.2 * 1)%float.

(** [brush_out[0]] and [brush_out[1]] for the position of a knot;
    [brush_out[2]] is computed and not used. *)
Definition tf_point (m : matrix) (k : knot_t) : knot_info :=
  Info (tf_row m.1.1 (k_x k) (k_y k)) (tf_row m.1.2 (k_x k) (k_y k)).

Fixpoint brush_tf_loop (fuel : nat) (first : ptr) (transform : matrix)
    (h : heap) (k prev : ptr) : option heap :=
  match fuel with
  | O => None
  | S fuel =>
    kk ← h !! k;
    let next := SUCC kk in
    let x := tf_row transform.1.1 (k_x kk) (k_y kk) in
    let y := tf_row transform.1.2 (k_x kk) (k_y kk) in
    h ← store h k (set_xy x y);
    kn ← h !! next;
    h ← (if decide (left_type kn = kt_explicit)
         then store h next (set_left_info (Info x y)) else Some h);
    kv ← h !! prev;
    h ← (if decide (right_type kv = kt_explicit)
         then store h prev (set_right_info (Info x y)) else Some h);
    if decide (next = first) then Some h
    else brush_tf_loop fuel first transform h next k
  end.

Definition brush_tf (h : heap) (first : ptr) (transform : matrix)
    : option heap :=
  kf ← h !! first;
  brush_tf_loop (length h) first transform h first (PRED kf).

(** * Properties *)
Close Scope float_scope.

(** ** IEEE-754 facts about [sqrt] and [==] *)

Section SqrtNonzero.
Local Open Scope Z_scope.

Lemma digits2_pos_size (p : positive) : digits2_pos p = Pos.size p.
Proof. induction p; simpl; congruence. Qed.

Lemma Zdigits2_bound (m : Z) :
  0 < m → 2 ^ (Zdigits2 m - 1) ≤ m ∧ 0 < Zdigits2 m.
Proof.
  destruct m as [|p|p]; try lia. intros _. simpl Zdigits2.
  rewrite digits2_pos_size. split; [|lia].
  pose proof (Pos.size_le p) as H.
  assert (Hp : 2 ^ Z.pos (Pos.size p) ≤ 2 * Z.pos p).
  { change (2 * Z.pos p) with (Z.pos p~0).
    rewrite <- Pos2Z.inj_pow. apply Pos2Z.pos_le_pos, H. }
  replace (Z.pos (Pos.size p)) with (Z.succ (Z.pos (Pos.size p) - 1)) in Hp by lia.
  rewrite Z.pow_succ_r in Hp by lia. lia.
Qed.

Lemma shr_1_m (mrs : shr_record) :
  0 ≤ shr_m mrs → shr_m (shr_1 mrs) = shr_m mrs / 2.
Proof.
  destruct mrs as [m r s]; simpl. intros Hm.
  destruct m as [|[p|p|]|]; cbn [shr_m shr_1]; try lia; try reflexivity.
  - apply Z.div_unique with 1; lia.
  - apply Z.div_unique with 0; lia.
Qed.

Lemma iter_pos_shr_1_m (p : positive) (mrs : shr_record) :
  0 ≤ shr_m mrs →
  shr_m (SpecFloat.iter_pos shr_1 p mrs) = shr_m mrs / 2 ^ Z.pos p.
Proof.
  revert mrs. induction p as [p IH|p IH|]; intros mrs Hm;
    simpl SpecFloat.iter_pos.
  - assert (H1 : 0 ≤ shr_m (shr_1 mrs))
      by (rewrite shr_1_m by done; apply Z.div_pos; lia).
    assert (H2 : 0 ≤ shr_m (SpecFloat.iter_pos shr_1 p (shr_1 mrs))).
    { rewrite IH by done. apply Z.div_pos; [done|]. apply Z.pow_pos_nonneg; lia. }
    rewrite IH, IH, shr_1_m by done.
    rewrite !Z.div_div by (try apply Z.pow_pos_nonneg; lia). f_equal.
    rewrite Pos2Z.inj_xI, Z.pow_add_r, Z.pow_twice_r by lia. lia.
  - assert (H2 : 0 ≤ shr_m (SpecFloat.iter_pos shr_1 p mrs)).
    { rewrite IH by done. apply Z.div_pos; [done|]. apply Z.pow_pos_nonneg; lia. }
    rewrite IH, IH by done.
    rewrite !Z.div_div by (try apply Z.pow_pos_nonneg; lia). f_equal.
    change (Z.pos p~0) with (2 * Z.pos p). rewrite Z.pow_twice_r by lia. lia.
  - rewrite shr_1_m by done. done.
Qed.

(** Shifting a positive mantissa down to its format exponent leaves it
    positive, as long as the exponent is not below [emin]. *)
Lemma shr_fexp_pos (m e : Z) (l : location) :
  0 < m → SpecFloat.emin prec emax ≤ e →
  0 < shr_m (fst (shr_fexp prec emax m e l)) ∧
  SpecFloat.emin prec emax ≤ snd (shr_fexp prec emax m e l).
Proof.
  intros Hm He. unfold shr_fexp, shr.
  destruct (Zdigits2_bound m Hm) as [Hd Hd0].
  assert (Hrec : shr_m (shr_record_of_loc m l) = m)
    by (by destruct l as [|[]]).
  destruct (SpecFloat.fexp prec emax (Zdigits2 m + e) - e) as [|n|n] eqn:Hn; simpl;
    rewrite ?Hrec; try (split; lia).
  rewrite iter_pos_shr_1_m, Hrec by lia.
  unfold SpecFloat.fexp, SpecFloat.emin, prec, emax in *. split; [|lia].
  apply Z.div_str_pos. split; [lia|].
  etrans; [|apply Hd]. apply Z.pow_le_mono_r; lia.
Qed.

Lemma binary_round_aux_nonzero (sx : bool) (m e : Z) (l : location) :
  0 < m → SpecFloat.emin prec emax ≤ e →
  match binary_round_aux prec emax sx m e l with
  | S754_zero _ | S754_nan => False
  | _ => True
  end.
Proof.
  intros Hm He. unfold binary_round_aux.
  destruct (shr_fexp_pos m e l Hm He) as [H1 H1e].
  destruct (shr_fexp prec emax m e l) as [mrs' e'] eqn:E1; simpl in H1, H1e.
  set (m2 := round_nearest_even (shr_m mrs') (loc_of_shr_record mrs')).
  assert (Hm2 : 0 < m2).
  { unfold m2, round_nearest_even.
    destruct (loc_of_shr_record mrs') as [|[]]; try lia.
    destruct (Z.even _); lia. }
  destruct (shr_fexp_pos m2 e' loc_Exact Hm2 H1e) as [H2 _].
  destruct (shr_fexp prec emax m2 e' loc_Exact) as [mrs'' e''] eqn:E2;
    simpl in H2.
  destruct (shr_m mrs''); try lia. by destruct (_ <=? _).
Qed.

Lemma SFsqrt_finite_nonzero (m : positive) (e : Z) :
  bounded prec emax m e = true →
  match SFsqrt prec emax (S754_finite false m e) with
  | S754_zero _ | S754_nan => False
  | _ => True
  end.
Proof.
  intros Hb. unfold SFsqrt, SFsqrt_core_binary.
  set (e' := Z.min _ _).
  assert (He : SpecFloat.emin prec emax ≤ e).
  { unfold bounded, canonical_mantissa in Hb.
    apply andb_prop in Hb as [Hb _]. apply Z.eqb_eq in Hb.
    unfold SpecFloat.fexp in Hb. lia. }
  assert (He' : SpecFloat.emin prec emax ≤ e' ∧ 2 * e' ≤ e).
  { unfold e', SpecFloat.fexp. rewrite !Z.div2_div. unfold SpecFloat.emin, prec, emax in *.
    pose proof (Z.mul_div_le e 2). split; [|lia].
    apply Z.min_glb; [lia|]. apply Z.div_le_lower_bound; lia. }
  set (m' := match e - 2 * e' with Z.pos _ => _ | 0 => _ | Z.neg _ => _ end).
  assert (Hm' : 0 < m').
  { unfold m'. destruct (e - 2 * e') eqn:Hs; try lia.
    rewrite Z.shiftl_mul_pow2 by lia.
    apply Z.mul_pos_pos; [lia|]. apply Z.pow_pos_nonneg; lia. }
  pose proof (Z.sqrtrem_spec m' ltac:(lia)) as Hq.
  destruct (Z.sqrtrem m') as [q r]. destruct Hq as [Hq Hr].
  apply binary_round_aux_nonzero; [nia|lia].
Qed.

End SqrtNonzero.

Section Ieee.
Local Open Scope float_scope.

Lemma eqb_zero_cases (d : float) : (d =? 0) = true → d = 0 ∨ d = -0.
Proof.
  rewrite FloatAxioms.eqb_spec. intros H.
  assert (Hd : Prim2SF d = S754_zero false ∨ Prim2SF d = S754_zero true).
  { destruct (Prim2SF d) as [[]| | |]; try discriminate; auto.
    all: vm_compute in H; try discriminate. all: destruct s; discriminate. }
  destruct Hd as [Hd|Hd]; [left|right]; apply Prim2SF_inj; rewrite Hd; reflexivity.
Qed.

Lemma sqrt_pos_nonzero (d : float) : (0 <? d) = true → (0 =? sqrt d) = false.
Proof.
  rewrite ltb_spec, FloatAxioms.eqb_spec, sqrt_spec. intros H.
  pose proof (Prim2SF_valid d) as Hv.
  destruct (Prim2SF d) as [s|s| |s m e]; try (vm_compute in H; discriminate).
  - destruct s; [vm_compute in H; discriminate|]. reflexivity.
  - destruct s; [vm_compute in H; discriminate|].
    pose proof (SFsqrt_finite_nonzero m e Hv) as Hs.
    unfold SF64sqrt. destruct (SFsqrt prec emax _) as [|[]| |[]]; try done.
Qed.

Lemma eqb_zero_sqrt (d : float) :
  (d =? 0) = true → (d <? 0) = false ∧ (0 =? sqrt d) = true.
Proof. intros [->| ->]%eqb_zero_cases; by vm_compute. Qed.

Lemma ltb_zero_not_gt (d : float) : (0 <? d) = true → (d <? 0) = false.
Proof.
  rewrite !ltb_spec.
  destruct (Prim2SF d) as [[]|[]| |[]]; by vm_compute.
Qed.

End Ieee.

(** ** [solve_quadratic] *)

Lemma tee_push_Some (t : tees) (v : float) :
  tee_top t < length (tee_stack t) →
  tee_push t v = Some (tee_pushes t [v]).
Proof. intros H. unfold tee_push. by rewrite decide_True. Qed.

Lemma tee_pushes_app (t : tees) (vs ws : list float) :
  tee_pushes t (vs ++ ws) = tee_pushes (tee_pushes t vs) ws.
Proof. apply foldl_app. Qed.

Lemma tee_pushes_top (t : tees) (vs : list float) :
  tee_top (tee_pushes t vs) = tee_top t + length vs.
Proof.
  revert t. induction vs as [|v vs IH]; intros t; simpl; [lia|].
  change (foldl _ ?a vs) with (tee_pushes a vs). rewrite IH. simpl. lia.
Qed.

Lemma tee_pushes_length (t : tees) (vs : list float) :
  length (tee_stack (tee_pushes t vs)) = length (tee_stack t).
Proof.
  revert t. induction vs as [|v vs IH]; intros t; simpl; [done|].
  change (foldl _ ?a vs) with (tee_pushes a vs). rewrite IH. simpl.
  by rewrite length_insert.
Qed.

Lemma tee_push2_Some (t : tees) (v w : float) :
  tee_top t + 2 ≤ length (tee_stack t) →
  tee_push t v ≫= (λ t, tee_push t w) = Some (tee_pushes t [v; w]).
Proof.
  intros H. rewrite tee_push_Some by lia. simpl.
  rewrite tee_push_Some; [done|]. simpl. rewrite length_insert. lia.
Qed.

Section SolveQuadratic.
Local Open Scope float_scope.

(** C6: with [B] standing for [-b/2], [solve_quadratic A B C] pushes onto
    the tee stack exactly: nothing if [A = 0] and [B = 0]; [C/(2B)] if
    [A = 0] and [B ≠ 0]; for [A ≠ 0] and [C = 0] the root [0] and, when
    [B ≠ 0], then [2B/A]; otherwise, with [D = B² - A·C], nothing if
    [D < 0], [B/A] if [D = 0], and for [D > 0] the pair [C/(B-√D)],
    [(B-√D)/A] when [B < 0] and the pair [C/(B+√D)], [(B+√D)/A]
    otherwise, in this order; the returned count is the number of pushed
    roots.  Comparisons are those of C on doubles. *)
Theorem solve_quadratic_roots (t : tees) (A B C : float) :
  (tee_top t + 2 ≤ length (tee_stack t))%nat →
  let D := B * B - A * C in
  let pushes vs :=
    solve_quadratic t A B C = Some (tee_pushes t vs, Z.of_nat (length vs)) in
  ((0 =? A) = true → (0 =? B) = true → pushes []) ∧
  ((0 =? A) = true → (0 =? B) = false → pushes [C / (2 * B)]) ∧
  ((0 =? A) = false → (0 =? C) = true → (0 =? B) = true → pushes [0]) ∧
  ((0 =? A) = false → (0 =? C) = true → (0 =? B) = false →
     pushes [0; 2 * B / A]) ∧
  ((0 =? A) = false → (0 =? C) = false → (D <? 0) = true → pushes []) ∧
  ((0 =? A) = false → (0 =? C) = false → (D =? 0) = true →
     pushes [B / A]) ∧
  ((0 =? A) = false → (0 =? C) = false → (0 <? D) = true →
     (B <? 0) = true → pushes [C / (B - sqrt D); (B - sqrt D) / A]) ∧
  ((0 =? A) = false → (0 =? C) = false → (0 <? D) = true →
     (B <? 0) = false → pushes [C / (B + sqrt D); (B + sqrt D) / A]).
Proof.
  intros Hcap D pushes. unfold pushes, solve_quadratic. fold D.
  repeat split.
  - by intros -> ->.
  - intros -> ->. simpl. by rewrite tee_push_Some by lia.
  - intros -> -> ->. simpl. by rewrite tee_push_Some by lia.
  - intros -> -> ->. simpl.
    pose proof (tee_push2_Some t 0 (2 * B / A) Hcap) as H.
    destruct (tee_push t 0) as [t1|]; [|done]. simpl in *. by rewrite H.
  - by intros -> -> ->.
  - intros -> -> [-> ->]%eqb_zero_sqrt. simpl.
    by rewrite tee_push_Some by lia.
  - intros -> -> HD ->. rewrite (ltb_zero_not_gt _ HD), (sqrt_pos_nonzero _ HD).
    pose proof (tee_push2_Some t (C / (B - sqrt D)) ((B - sqrt D) / A) Hcap) as H.
    destruct (tee_push t _) as [t1|]; [|done]. simpl in *. by rewrite H.
  - intros -> -> HD ->. rewrite (ltb_zero_not_gt _ HD), (sqrt_pos_nonzero _ HD).
    pose proof (tee_push2_Some t (C / (B + sqrt D)) ((B + sqrt D) / A) Hcap) as H.
    destruct (tee_push t _) as [t1|]; [|done]. simpl in *. by rewrite H.
Qed.

(** The roots 1 and 2 of [x² - 3x + 2], pushed onto the empty stack. *)
Lemma solve_quadratic_roots_witness :
  solve_quadratic tees_init 1 1.5 2
  = Some (tee_pushes tees_init [2 / (1.5 + sqrt (1.5 * 1.5 - 1 * 2));
                                (1.5 + sqrt (1.5 * 1.5 - 1 * 2)) / 1], 2%Z).
Proof.
  refine (proj2 (proj2 (proj2 (proj2 (proj2 (proj2 (proj2
    (solve_quadratic_roots tees_init 1 1.5 2 _))))))) _ _ _ _);
    [vm_compute; lia|reflexivity..].
Defined.

End SolveQuadratic.

(** ** Stores and rings *)

Lemma store_alter (h : heap) (p : ptr) (f : knot_t → knot_t) (k : knot_t) :
  h !! p = Some k → store h p f = Some (alter f p h).
Proof.
  intros Hk. unfold store. rewrite Hk. simpl. f_equal.
  apply list_eq. intros j. destruct (decide (p = j)) as [->|Hne].
  - rewrite list_lookup_insert_eq by (by eapply lookup_lt_Some).
    by rewrite list_lookup_alter_eq, Hk.
  - by rewrite list_lookup_insert_ne, list_lookup_alter_ne.
Qed.

Lemma fmap_alter_inv {A B} (f : A → B) (g : A → A) (l : list A) (i : nat) :
  (∀ a, f (g a) = f a) → f <$> alter g i l = f <$> l.
Proof.
  intros Hfg. rewrite (list_fmap_alter f g id) by (by apply Forall_forall).
  apply list_eq. intros j. destruct (decide (i = j)) as [->|Hne].
  - rewrite list_lookup_alter_eq. by destruct (_ !! j).
  - by rewrite list_lookup_alter_ne.
Qed.

Lemma frame_lookup (h h' : heap) (a : ptr) (k : knot_t) :
  knot_frame <$> h' = knot_frame <$> h → h !! a = Some k →
  ∃ k', h' !! a = Some k' ∧ knot_frame k' = knot_frame k.
Proof.
  intros Hf Hk.
  assert (H : (knot_frame <$> h') !! a = Some (knot_frame k))
    by (by rewrite Hf, list_lookup_fmap, Hk).
  rewrite list_lookup_fmap in H.
  destruct (h' !! a) as [k'|]; [|done]. exists k'. split; [done|].
  simpl in H. congruence.
Qed.

Lemma knot_frame_SUCC (k k' : knot_t) :
  knot_frame k' = knot_frame k → SUCC k' = SUCC k ∧ PRED k' = PRED k.
Proof. unfold knot_frame, SUCC, PRED. intros [= -> _ _ _ _]. done. Qed.

Lemma linked_frame (h h' : heap) (p q : ptr) :
  knot_frame <$> h' = knot_frame <$> h → linked h p q → linked h' p q.
Proof.
  intros Hf [Hs Hp]. unfold linked.
  destruct (h !! p) as [kp|] eqn:Ep; [|done].
  destruct (h !! q) as [kq|] eqn:Eq; [|done].
  destruct (frame_lookup _ _ _ _ Hf Ep) as (kp' & -> & [H1 _]%knot_frame_SUCC).
  destruct (frame_lookup _ _ _ _ Hf Eq) as (kq' & -> & [_ H2]%knot_frame_SUCC).
  simpl in *. by rewrite H1, H2.
Qed.

Lemma linked_inv (h : heap) (p q : ptr) :
  linked h p q →
  ∃ kp kq, h !! p = Some kp ∧ h !! q = Some kq ∧ SUCC kp = q ∧ PRED kq = p.
Proof.
  intros [Hs Hp].
  destruct (h !! p) as [kp|]; [|done]. destruct (h !! q) as [kq|]; [|done].
  exists kp, kq. simpl in *. by simplify_eq.
Qed.

Lemma is_ring_lookup (h : heap) (l : list ptr) (p : ptr) :
  is_ring h l → p ∈ l → ∃ q, q ∈ l ∧ linked h p q.
Proof.
  destruct l as [|p0 t]; [done|]. intros [_ HF] [i Hi]%list_elem_of_lookup.
  destruct (Forall2_lookup_l _ _ _ _ _ HF Hi) as (q & Hq & HL).
  exists q. split; [|done].
  apply list_elem_of_lookup_2 in Hq.
  apply elem_of_app in Hq as [Hq|Hq%list_elem_of_singleton].
  - by right.
  - subst. by left.
Qed.

Lemma is_ring_valid (h : heap) (l : list ptr) (p : ptr) :
  is_ring h l → p ∈ l → is_Some (h !! p).
Proof.
  intros Hr Hp. destruct (is_ring_lookup _ _ _ Hr Hp) as (q & _ & HL).
  apply linked_inv in HL as (kp & _ & -> & _). by eexists.
Qed.

Lemma is_ring_length (h : heap) (l : list ptr) :
  is_ring h l → length l ≤ length h.
Proof.
  intros Hr. assert (Hnd : NoDup l) by (destruct l; [done|apply Hr]).
  replace (length h) with (length (seq 0 (length h))) by apply length_seq.
  apply submseteq_length.
  apply NoDup_submseteq; [done|]. intros p Hp.
  apply elem_of_seq. destruct (is_ring_valid _ _ _ Hr Hp) as [k Hk].
  apply lookup_lt_Some in Hk. lia.
Qed.

Lemma is_ring_frame (h h' : heap) (l : list ptr) :
  knot_frame <$> h' = knot_frame <$> h → is_ring h l → is_ring h' l.
Proof.
  intros Hf. destruct l as [|p0 t]; [done|]. intros [Hnd HF]. split; [done|].
  eapply Forall2_impl; [done|]. intros p q. by apply linked_frame.
Qed.

(** ** [brush_make] *)

Lemma set_edge_controls_alter (h : heap) (p : ptr) (kp kq : knot_t) :
  h !! p = Some kp → h !! SUCC kp = Some kq →
  set_edge_controls h p
  = Some (alter (set_left_info
                   (Info (k_x kq - (k_x kq - k_x kp) / 3)
                         (k_y kq - (k_y kq - k_y kp) / 3))%float) (SUCC kp)
            (alter (set_right_info
                      (Info (k_x kp + (k_x kq - k_x kp) / 3)
                            (k_y kp + (k_y kq - k_y kp) / 3))%float) p h)).
Proof.
  intros Hp Hq. unfold set_edge_controls. rewrite Hp. simpl. rewrite Hq. simpl.
  rewrite (store_alter _ _ _ _ Hp). simpl.
  destruct (decide (p = SUCC kp)) as [Heq|Hne].
  - rewrite <- Heq in *. erewrite store_alter; [done|].
    by rewrite list_lookup_alter_eq, Hp.
  - erewrite store_alter; [done|]. by rewrite list_lookup_alter_ne.
Qed.

Lemma set_edge_controls_inv (h h' : heap) (p : ptr) :
  set_edge_controls h p = Some h' →
  ∃ kp kq, h !! p = Some kp ∧ h !! SUCC kp = Some kq ∧
    h' = alter (set_left_info
                  (Info (k_x kq - (k_x kq - k_x kp) / 3)
                        (k_y kq - (k_y kq - k_y kp) / 3))%float) (SUCC kp)
           (alter (set_right_info
                     (Info (k_x kp + (k_x kq - k_x kp) / 3)
                           (k_y kp + (k_y kq - k_y kp) / 3))%float) p h).
Proof.
  intros H. destruct (h !! p) as [kp|] eqn:Hp;
    [|by unfold set_edge_controls in H; rewrite Hp in H].
  destruct (h !! SUCC kp) as [kq|] eqn:Hq;
    [|by unfold set_edge_controls in H; rewrite Hp in H; simpl in H;
         rewrite Hq in H].
  rewrite (set_edge_controls_alter _ _ _ _ Hp Hq) in H. injection H as <-.
  by exists kp, kq.
Qed.

Lemma set_edge_controls_frame (h h' : heap) (p : ptr) :
  set_edge_controls h p = Some h' → knot_frame <$> h' = knot_frame <$> h.
Proof.
  intros (kp & kq & _ & _ & ->)%set_edge_controls_inv.
  by rewrite !fmap_alter_inv.
Qed.

Lemma set_edges_controls_frame (ps : list ptr) (h h' : heap) :
  set_edges_controls h ps = Some h' → knot_frame <$> h' = knot_frame <$> h.
Proof.
  revert h. induction ps as [|p ps IH]; intros h; simpl.
  - by intros [= ->].
  - destruct (set_edge_controls h p) as [h1|] eqn:E; [|done]. simpl.
    intros H. rewrite (IH _ H). by eapply set_edge_controls_frame.
Qed.


Lemma set_edges_controls_right (ps : list ptr) (h h' : heap) (a : ptr) :
  set_edges_controls h ps = Some h' → a ∉ ps →
  right_info <$> h' !! a = right_info <$> h !! a.
Proof.
  revert h. induction ps as [|p ps IH]; intros h; simpl.
  - by intros [= ->].
  - destruct (set_edge_controls h p) as [h1|] eqn:E; [|done]. simpl.
    intros H [Hap Ha]%not_elem_of_cons. rewrite (IH _ H Ha).
    apply set_edge_controls_inv in E as (kp & kq & Hp & Hq & ->).
    rewrite list_lookup_alter. destruct (decide (SUCC kp = a)) as [->|Hne].
    + rewrite list_lookup_alter_ne by done. by destruct (h !! a).
    + by rewrite list_lookup_alter_ne.
Qed.

Lemma set_edges_controls_left (ps : list ptr) (h h' : heap) (a : ptr) :
  set_edges_controls h ps = Some h' →
  (∀ p k, p ∈ ps → h !! p = Some k → SUCC k ≠ a) →
  left_info <$> h' !! a = left_info <$> h !! a.
Proof.
  revert h. induction ps as [|p ps IH]; intros h; simpl.
  - by intros [= ->].
  - destruct (set_edge_controls h p) as [h1|] eqn:E; [|done]. simpl.
    intros H Hs. assert (Hf := set_edge_controls_frame _ _ _ E).
    rewrite (IH _ H).
    + apply set_edge_controls_inv in E as (kp & kq & Hp & Hq & ->).
      rewrite list_lookup_alter_ne by (eapply Hs; [by left|done]).
      rewrite list_lookup_alter. destruct (decide (p = a)) as [->|Hne]; [|done].
      by destruct (h !! a).
    + intros p' k' Hp' Hk'.
      assert (is_Some (h !! p')) as [k0 Hk0].
      { apply lookup_lt_is_Some. apply lookup_lt_Some in Hk'.
        by rewrite <- (length_fmap knot_frame h), <- Hf, length_fmap. }
      destruct (frame_lookup _ _ _ _ Hf Hk0) as (k1 & Hk1 & [H1 _]%knot_frame_SUCC).
      rewrite Hk' in Hk1. injection Hk1 as ->. rewrite H1.
      eapply Hs; [|done]. by right.
Qed.

Lemma frame_lookup_eq (h h' : heap) (a : ptr) :
  knot_frame <$> h' = knot_frame <$> h →
  knot_frame <$> h' !! a = knot_frame <$> h !! a.
Proof. intros Hf. by rewrite <- !list_lookup_fmap, Hf. Qed.

Lemma chord_right_frame (h h' : heap) (k k' : knot_t) :
  knot_frame <$> h' = knot_frame <$> h → knot_frame k' = knot_frame k →
  chord_right h' k' = chord_right h k.
Proof.
  intros Hf Hk. unfold chord_right.
  destruct (knot_frame_SUCC _ _ Hk) as [-> _].
  pose proof (frame_lookup_eq _ _ (SUCC k) Hf) as Hq.
  destruct (h' !! SUCC k) as [q'|], (h !! SUCC k) as [q|]; try done. simpl in *.
  unfold knot_frame in *. injection Hk as ? ? ? ? ?. injection Hq as ? ? ? ? ?.
  congruence.
Qed.

Lemma chord_left_frame (h h' : heap) (k k' : knot_t) :
  knot_frame <$> h' = knot_frame <$> h → knot_frame k' = knot_frame k →
  chord_left h' k' = chord_left h k.
Proof.
  intros Hf Hk. unfold chord_left.
  destruct (knot_frame_SUCC _ _ Hk) as [_ ->].
  pose proof (frame_lookup_eq _ _ (PRED k) Hf) as Hq.
  destruct (h' !! PRED k) as [q'|], (h !! PRED k) as [q|]; try done. simpl in *.
  unfold knot_frame in *. injection Hk as ? ? ? ? ?. injection Hq as ? ? ? ? ?.
  congruence.
Qed.

(** After the stores for the edges leaving [ps], each of these knots holds
    its right chord point and each of their successors its left one. *)
Lemma set_edges_controls_chord_right (ps : list ptr) :
  ∀ (h h' : heap) (p : ptr) (k : knot_t),
  set_edges_controls h ps = Some h' → p ∈ ps → h !! p = Some k →
  ∃ k', h' !! p = Some k' ∧ Some (right_info k') = chord_right h k.
Proof.
  induction ps as [|p1 ps IH]; intros h h' p k; simpl; [by intros _ ?%elem_of_nil|].
  destruct (set_edge_controls h p1) as [h1|] eqn:E; [|done]. simpl.
  intros H Hp Hk. assert (Hf := set_edge_controls_frame _ _ _ E).
  destruct (frame_lookup _ _ _ _ Hf Hk) as (k1 & Hk1 & Hfk).
  destruct (decide (p ∈ ps)) as [Hin|Hnin].
  - destruct (IH _ _ _ _ H Hin Hk1) as (k' & Hk' & Hc). exists k'.
    split; [done|]. rewrite Hc. by apply chord_right_frame.
  - apply elem_of_cons in Hp as [->|?]; [|done].
    pose proof (set_edges_controls_right _ _ _ _ H Hnin) as Hr.
    assert (Hf' := set_edges_controls_frame _ _ _ H).
    destruct (frame_lookup _ _ _ _ Hf' Hk1) as (k' & Hk' & _).
    exists k'. split; [done|]. rewrite Hk', Hk1 in Hr. simpl in Hr.
    injection Hr as ->.
    apply set_edge_controls_inv in E as (kp & kq & Hp & Hq & ->).
    rewrite Hk in Hp. injection Hp as <-. unfold chord_right. rewrite Hq. simpl.
    rewrite list_lookup_alter in Hk1.
    destruct (decide (SUCC k = p1)) as [Heq|Hne]; rewrite ?Heq in Hk1;
      rewrite list_lookup_alter_eq, Hk in Hk1; simpl in Hk1;
      by injection Hk1 as <-.
Qed.

Lemma set_edges_controls_chord_left (ps : list ptr) :
  ∀ (h h' : heap) (p q : ptr) (kq : knot_t),
  set_edges_controls h ps = Some h' →
  (∀ p', p' ∈ ps → ∃ q', linked h p' q') →
  p ∈ ps → linked h p q → h !! q = Some kq →
  ∃ k', h' !! q = Some k' ∧ Some (left_info k') = chord_left h kq.
Proof.
  induction ps as [|p1 ps IH]; intros h h' p q kq; simpl;
    [by intros _ _ ?%elem_of_nil|].
  destruct (set_edge_controls h p1) as [h1|] eqn:E; [|done]. simpl.
  intros H Hall Hp HL Hk. assert (Hf := set_edge_controls_frame _ _ _ E).
  destruct (frame_lookup _ _ _ _ Hf Hk) as (k1 & Hk1 & Hfk).
  assert (Hall1 : ∀ p', p' ∈ ps → ∃ q', linked h1 p' q').
  { intros p' Hp'. destruct (Hall p') as [q' Hq']; [by right|].
    exists q'. by apply (linked_frame h). }
  destruct (decide (p ∈ ps)) as [Hin|Hnin].
  - destruct (IH _ _ _ _ _ H Hall1 Hin (linked_frame _ _ _ _ Hf HL) Hk1)
      as (k' & Hk' & Hc).
    exists k'. split; [done|]. rewrite Hc. by apply chord_left_frame.
  - apply elem_of_cons in Hp as [->|?]; [|done].
    assert (Hl : left_info <$> h' !! q = left_info <$> h1 !! q).
    { eapply set_edges_controls_left; [done|]. intros p' k' Hp' Hk' Hs.
      destruct (Hall1 p' Hp') as [q' [Hq1 Hq2]].
      rewrite Hk' in Hq1. simpl in Hq1. injection Hq1 as <-. rewrite Hs in Hq2.
      destruct (linked_frame _ _ _ _ Hf HL) as [_ Hq3].
      rewrite Hq2 in Hq3. injection Hq3 as ->. done. }
    assert (Hf' := set_edges_controls_frame _ _ _ H).
    destruct (frame_lookup _ _ _ _ Hf' Hk1) as (k' & Hk' & _).
    exists k'. split; [done|]. rewrite Hk', Hk1 in Hl. simpl in Hl.
    injection Hl as ->.
    apply set_edge_controls_inv in E as (kp & kq0 & Hp & Hq & ->).
    destruct HL as [HL1 HL2]. rewrite Hp in HL1. simpl in HL1.
    injection HL1 as HL1. rewrite HL1, Hk in Hq. injection Hq as <-.
    rewrite Hk in HL2. simpl in HL2. injection HL2 as HL2.
    unfold chord_left. rewrite HL2, Hp. simpl.
    rewrite HL1, list_lookup_alter_eq in Hk1.
    destruct (alter _ p1 h !! q) as [k2|]; [|done]. simpl in Hk1.
    by injection Hk1 as <-.
Qed.

Section BrushMake.

Variable atan2 : float → float → float.

Lemma brush_make_loop_spec (knots : ptr) (s : list ptr) :
  ∀ (fuel : nat) (h : heap) (p : ptr) (dx dy alpha : float),
  Forall2 (linked h) (p :: s) (s ++ [knots]) → knots ∉ s → length s < fuel →
  ∃ h' r m,
    brush_make_loop atan2 fuel knots h p dx dy alpha = Some (h', r) ∧
    r ∈ [-1; -2; -3; 1]%Z ∧ 0 < m ≤ S (length s) ∧
    set_edges_controls h (take m (p :: s)) = Some h' ∧
    (r = 1%Z ∨ r = (-3)%Z → m = S (length s)).
Proof.
  induction s as [|q s IH]; intros fuel h p dx dy alpha HF Hk Hfuel;
    (destruct fuel as [|fuel]; [lia|]); simpl brush_make_loop.
  - apply Forall2_cons_1 in HF as [HL _].
    apply linked_inv in HL as (kp & kq & Hp & Hq & Hs & _).
    rewrite Hp. simpl. rewrite Hs, Hq. simpl.
    pose proof (set_edge_controls_alter _ _ _ _ Hp ltac:(by rewrite Hs)) as E.
    rewrite Hs in E. rewrite E. simpl.
    destruct (_ && _).
    { eexists _, (-1)%Z, 1. simpl. rewrite E. split; [done|].
      split; [set_solver|]. split; [lia|]. split; [done|]. by intros [?|?]. }
    destruct (_ <=? _)%float.
    { eexists _, (-2)%Z, 1. simpl. rewrite E. split; [done|].
      split; [set_solver|]. split; [lia|]. split; [done|]. by intros [?|?]. }
    rewrite decide_True by done.
    destruct (_ <? _)%float.
    { eexists _, (-3)%Z, 1. simpl. rewrite E. split; [done|].
      split; [set_solver|]. split; [lia|]. split; [done|]. done. }
    eexists _, 1%Z, 1. simpl. rewrite E. split; [done|].
    split; [set_solver|]. split; [lia|]. split; [done|]. done.
  - apply Forall2_cons_1 in HF as [HL HF].
    apply linked_inv in HL as (kp & kq & Hp & Hq & Hs & _).
    rewrite Hp. simpl. rewrite Hs, Hq. simpl.
    pose proof (set_edge_controls_alter _ _ _ _ Hp ltac:(by rewrite Hs)) as E.
    rewrite Hs in E. rewrite E. simpl.
    destruct (_ && _).
    { eexists _, (-1)%Z, 1. simpl. rewrite E. split; [done|].
      split; [set_solver|]. split; [lia|]. split; [done|]. by intros [?|?]. }
    destruct (_ <=? _)%float.
    { eexists _, (-2)%Z, 1. simpl. rewrite E. split; [done|].
      split; [set_solver|]. split; [lia|]. split; [done|]. by intros [?|?]. }
    rewrite decide_False by set_solver.
    match goal with |- context [brush_make_loop _ _ _ ?h1 _ ?a ?b ?c] =>
      destruct (IH fuel h1 q a b c) as (h' & r & m & Hrun & Hr & Hm & Hset & Hfull)
    end.
    + eapply Forall2_impl; [done|]. intros a b. apply linked_frame.
      by rewrite !fmap_alter_inv.
    + set_solver.
    + simpl in Hfuel. lia.
    + exists h', r, (S m). split; [done|]. split; [done|].
      simpl. rewrite E. simpl. split; [lia|]. split; [done|].
      intros Hr'. rewrite (Hfull Hr'). done.
Qed.

Lemma is_ring_succ (h : heap) (p0 : ptr) (t : list ptr) (i : nat) (p : ptr)
    (k : knot_t) :
  is_ring h (p0 :: t) → (p0 :: t) !! i = Some p → h !! p = Some k →
  (t ++ [p0]) !! i = Some (SUCC k).
Proof.
  intros [_ HF] Hi Hk. destruct (Forall2_lookup_l _ _ _ _ _ HF Hi) as (q & Hq & [HL _]).
  rewrite Hk in HL. simpl in HL. by injection HL as ->.
Qed.

Lemma is_ring_pred (h : heap) (l : list ptr) (q : ptr) :
  is_ring h l → q ∈ l → ∃ p, p ∈ l ∧ linked h p q.
Proof.
  destruct l as [|p0 t]; [done|]. intros [_ HF] Hq.
  assert (Hq' : q ∈ t ++ [p0]).
  { apply elem_of_cons in Hq as [->|Hq]; apply elem_of_app;
      [right; by apply list_elem_of_singleton|by left]. }
  apply list_elem_of_lookup in Hq' as [i Hi].
  destruct (Forall2_lookup_r _ _ _ _ _ HF Hi) as (p & Hp & HL).
  exists p. split; [|done]. by eapply list_elem_of_lookup_2.
Qed.


(** C2, amended: when [brush_make] returns 1 on a ring, every knot keeps
    its links, its position and both type tags, and holds the two chord
    points: to the right the point one third of the way to its successor,
    to the left the point one third of the way back to its predecessor. *)
Theorem brush_make_chords (h h' : heap) (l : list ptr) (knots p : ptr) :
  is_ring h l → head l = Some knots →
  brush_make atan2 h knots = Some (h', 1%Z) → p ∈ l →
  ∃ k k', h !! p = Some k ∧ h' !! p = Some k' ∧
    knot_frame k' = knot_frame k ∧
    Some (right_info k') = chord_right h' k' ∧
    Some (left_info k') = chord_left h' k'.
Proof.
  intros Hring Hhd Hrun Hp.
  destruct l as [|p0 t]; [done|]. injection Hhd as <-.
  destruct (is_ring_valid _ _ p0 Hring) as [k0 Hk0]; [by left|].
  assert (∃ kq, h !! PRED k0 = Some kq) as [kq Hkq].
  { destruct (is_ring_pred _ _ p0 Hring) as (x & _ & HL); [by left|].
    apply linked_inv in HL as (kx & k0' & Hx & Hk0' & _ & HP).
    rewrite Hk0 in Hk0'. injection Hk0' as <-. rewrite HP. by eexists. }
  assert (Hset : set_edges_controls h (p0 :: t) = Some h').
  { unfold brush_make in Hrun. rewrite Hk0 in Hrun. simpl in Hrun.
    rewrite Hkq in Hrun. simpl in Hrun.
    destruct (_ && _); [done|].
    pose proof (is_ring_length _ _ Hring) as Hlen. simpl in Hlen.
    pose proof Hring as [[Hp0 _]%NoDup_cons HF].
    edestruct (brush_make_loop_spec p0 t (length h) h p0)
      as (h1 & r & m & Hrun' & Hres & Hm & Hset & Hfull); [done|done|lia|].
    rewrite Hrun in Hrun'. injection Hrun' as <- <-.
    rewrite Hfull in Hset by by left. by rewrite firstn_all2 in Hset by (simpl; lia). }
  assert (Hf := set_edges_controls_frame _ _ _ Hset).
  destruct (is_ring_valid _ _ p Hring Hp) as [k Hk].
  destruct (set_edges_controls_chord_right _ _ _ _ _ Hset Hp Hk) as (k' & Hk' & Hcr).
  destruct (is_ring_pred _ _ p Hring Hp) as (x & Hx & HL).
  destruct (set_edges_controls_chord_left _ _ _ _ _ _ Hset
              ltac:(intros p' Hp'; destruct (is_ring_lookup _ _ _ Hring Hp')
                      as (q' & _ & ?); eauto) Hx HL Hk) as (k'' & Hk'' & Hcl).
  rewrite Hk' in Hk''. injection Hk'' as <-.
  destruct (frame_lookup _ _ _ _ Hf Hk) as (k2 & Hk2 & Hfk).
  rewrite Hk' in Hk2. injection Hk2 as <-.
  exists k, k'. repeat split; try done.
  - rewrite Hcr. symmetry. by apply chord_right_frame.
  - rewrite Hcl. symmetry. by apply chord_left_frame.
Qed.


End BrushMake.

Lemma brush_make_chords_witness :
  ∃ k k', square_pen !! 2 = Some k ∧ square_pen_validated !! 2 = Some k' ∧
    knot_frame k' = knot_frame k ∧
    Some (right_info k') = chord_right square_pen_validated k' ∧
    Some (left_info k') = chord_left square_pen_validated k'.
Proof.
  exact (brush_make_chords atan2_axis square_pen square_pen_validated
           [0; 1; 2; 3] 0 2 ltac:(by_compute) eq_refl
           ltac:(vm_compute; reflexivity) ltac:(by_compute)).
Defined.



(** The claim C2 as stated fails: validation succeeds on the unclosed
    square, whose open and regular sides stay open and regular. *)
Lemma brush_make_explicit_counterexample :
  is_ring open_square [0; 1; 2; 3] ∧
  ∃ h', brush_make atan2_axis open_square 0 = Some (h', 1%Z) ∧
    left_type <$> h' !! 0 = Some kt_open ∧
    right_type <$> h' !! 3 = Some kt_regular.
Proof.
  split; [by_compute|]. eexists. split; [vm_compute; reflexivity|].
  split; reflexivity.
Qed.

(** ** The trace buffer *)

Lemma take_insert4 {A} (tr : list A) (i : nat) (a b c d : A) :
  i + 4 ≤ length tr →
  take (i + 4) (<[i + 2 := c]> (<[i + 1 := b]> (<[i + 3 := d]> (<[i := a]> tr))))
  = take i tr ++ [a; b; c; d].
Proof.
  intros Hlen.
  assert (Hl1 : length (take i tr) = i) by (rewrite length_take; lia).
  assert (Hl2 : 4 ≤ length (drop i tr)) by (rewrite length_drop; lia).
  rewrite <- (take_drop i tr) at 1.
  rewrite !insert_app_r_alt by lia. rewrite Hl1.
  replace (i - i) with 0 by lia. replace (i + 1 - i) with 1 by lia.
  replace (i + 2 - i) with 2 by lia. replace (i + 3 - i) with 3 by lia.
  rewrite take_app_add' by done. f_equal.
  destruct (drop i tr) as [|x0 [|x1 [|x2 [|x3 rest]]]]; simpl in Hl2; try lia.
  done.
Qed.

Lemma make_move_spec (h : heap) (tb : tracebuf) (r p : ptr) (kr kp kq : knot_t) :
  h !! r = Some kr → h !! p = Some kp → h !! SUCC kp = Some kq →
  match make_move h tb r p with
  | Some tb' =>
    trace_top tb + 4 ≤ length (trace tb) ∧
    trace_top tb' = trace_top tb + 4 ∧
    length (trace tb') = length (trace tb) ∧
    emitted tb' = emitted tb ++ move_points kr kp kq
  | None => length (trace tb) < trace_top tb + 4
  end.
Proof.
  intros Hr Hp Hq. unfold make_move, trace_store. rewrite Hr, Hp. simpl.
  rewrite Hq. simpl.
  destruct (decide (trace_top tb + 4 ≤ length (trace tb))) as [Hcap|Hcap].
  - rewrite decide_True by lia. simpl.
    rewrite decide_True by (rewrite !length_insert; lia). simpl.
    rewrite decide_True by (rewrite !length_insert; lia). simpl.
    rewrite decide_True by (rewrite !length_insert; lia). simpl.
    rewrite !length_insert. repeat split; try done.
    unfold emitted. simpl. by apply take_insert4.
  - case_decide; [|simpl; lia]. simpl.
    rewrite decide_False by (rewrite !length_insert; lia). simpl. lia.
Qed.

(** What [convolve] does for given tangents: first the pen edge from [r]
    to its successor, moved to the path knot [p], if the direction of
    that edge lies within the turn of the path at [p]; then the path
    segment from [p] to its successor, moved to the pen knot [r], if the
    chord of the segment lies within the turn of the pen at [r]. *)
Lemma convolve_spec (h : heap) (tb : tracebuf) (p r : ptr)
    (x1 y1 x2 y2 x3 y3 : float) (kp kq kr s4 s5 : knot_t) :
  h !! p = Some kp → h !! SUCC kp = Some kq →
  h !! r = Some kr → h !! PRED kr = Some s4 → h !! SUCC kr = Some s5 →
  trace_top tb ≤ length (trace tb) →
  let x4 := (k_x kr - k_x s4)%float in
  let y4 := (k_y kr - k_y s4)%float in
  let x5 := (k_x s5 - k_x kr)%float in
  let y5 := (k_y s5 - k_y kr)%float in
  let fwd := within_turn x1 y1 x2 y2 x5 y5 in
  let rev := within_turn x4 y4 x5 y5 x3 y3 in
  let n := (if fwd then 1 else 0) + (if rev then 1 else 0) in
  match convolve h tb p x1 y1 x2 y2 x3 y3 r with
  | Some tb' =>
    trace_top tb + 4 * n ≤ length (trace tb) ∧
    trace_top tb' = trace_top tb + 4 * n ∧
    length (trace tb') = length (trace tb) ∧
    emitted tb' = emitted tb
                  ++ (if fwd then move_points kp kr s5 else [])
                  ++ (if rev then move_points kr kp kq else [])
  | None => length (trace tb) < trace_top tb + 4 * n
  end.
Proof.
  intros Hp Hq Hr H4 H5 Hinv x4 y4 x5 y5 fwd rev n.
  unfold convolve. rewrite Hr. simpl. rewrite H4. simpl. rewrite H5. simpl.
  fold x4 y4 x5 y5. fold fwd rev. unfold n. clear n.
  destruct fwd.
  - pose proof (make_move_spec h tb p r kp kr s5 Hp Hr H5) as H1.
    destruct (make_move h tb p r) as [tb1|]; simpl; [|destruct rev; lia].
    destruct H1 as (Hcap & Htop & Hlen & Hem).
    destruct rev.
    + pose proof (make_move_spec h tb1 r p kr kp kq Hr Hp Hq) as H2.
      destruct (make_move h tb1 r p) as [tb2|]; [|lia].
      destruct H2 as (Hcap2 & Htop2 & Hlen2 & Hem2).
      split; [lia|]. split; [lia|]. split; [lia|]. rewrite Hem2, Hem. by rewrite <- ?app_assoc.
    + split; [lia|]. split; [lia|]. split; [lia|]. rewrite Hem. by rewrite ?app_nil_r.
  - simpl. destruct rev.
    + pose proof (make_move_spec h tb r p kr kp kq Hr Hp Hq) as H2.
      destruct (make_move h tb r p) as [tb2|]; [|lia].
      destruct H2 as (Hcap2 & Htop2 & Hlen2 & Hem2).
      split; [lia|]. split; [lia|]. split; [lia|]. done.
    + split; [lia|]. split; [lia|]. split; [lia|]. by rewrite ?app_nil_r.
Qed.

(** C1, amended: for a path knot [p] with successor [q] and a pen knot [r]
    with successor [s], [v4 = r - pred r] and [v5 = s - r], [convolve]
    emits the pen edge moved to [p], that is
    [(p + r, p + r.right, p + s.left, p + s)], exactly when
    [within_turn (v1, v2, v5)] holds, and after it the path segment moved
    to [r], that is [(r + p, r + p.right, r + q.left, r + q)], exactly
    when [within_turn (v4, v5, v3)] holds; nothing else is emitted. *)
Theorem convolve_emits (h : heap) (tb : tracebuf) (p r : ptr)
    (x1 y1 x2 y2 x3 y3 : float) (kp kq kr s4 s5 : knot_t) :
  h !! p = Some kp → h !! SUCC kp = Some kq →
  h !! r = Some kr → h !! PRED kr = Some s4 → h !! SUCC kr = Some s5 →
  trace_top tb + 8 ≤ length (trace tb) →
  let x4 := (k_x kr - k_x s4)%float in
  let y4 := (k_y kr - k_y s4)%float in
  let x5 := (k_x s5 - k_x kr)%float in
  let y5 := (k_y s5 - k_y kr)%float in
  ∃ tb',
    convolve h tb p x1 y1 x2 y2 x3 y3 r = Some tb' ∧
    emitted tb' =
      emitted tb
      ++ (if within_turn x1 y1 x2 y2 x5 y5 then move_points kp kr s5 else [])
      ++ (if within_turn x4 y4 x5 y5 x3 y3 then move_points kr kp kq else []).
Proof.
  intros Hp Hq Hr H4 H5 Hcap x4 y4 x5 y5.
  pose proof (convolve_spec h tb p r x1 y1 x2 y2 x3 y3 _ _ _ _ _ Hp Hq Hr H4 H5
                ltac:(lia)) as H. simpl in H. fold x4 y4 x5 y5 in H.
  destruct (convolve h tb p x1 y1 x2 y2 x3 y3 r) as [tb'|].
  - exists tb'. split; [done|]. apply H.
  - exfalso. destruct (within_turn x1 y1 x2 y2 x5 y5),
      (within_turn x4 y4 x5 y5 x3 y3); simpl in H; lia.
Qed.

Lemma convolve_emits_witness :
  ∃ tb',
    convolve straight_scene trace_init 4 (-3) 0 3 0 10 0 0 = Some tb' ∧
    emitted tb' =
      emitted trace_init
      ++ (if within_turn (-3) 0 3 0 (-0.5 - 0.5) (0.5 - 0.5)
          then [Point (0 + 0.5) (0 + 0.5);
                Point (0 + (0.5 + (-0.5 - 0.5) / 3)) (0 + (0.5 + (0.5 - 0.5) / 3));
                Point (0 + (-0.5 - (-0.5 - 0.5) / 3)) (0 + (0.5 - (0.5 - 0.5) / 3));
                Point (0 + -0.5) (0 + 0.5)]%float
          else [])
      ++ (if within_turn (0.5 - 0.5) (0.5 - -0.5) (-0.5 - 0.5) (0.5 - 0.5) 10 0
          then [Point (0.5 + 0) (0.5 + 0); Point (0.5 + 3) (0.5 + 0);
                Point (0.5 + 7) (0.5 + 0); Point (0.5 + 10) (0.5 + 0)]%float
          else []).
Proof.
  exact (convolve_emits straight_scene trace_init 4 0 (-3) 0 3 0 10 0
           _ _ _ _ _ eq_refl eq_refl eq_refl eq_refl eq_refl
           ltac:(vm_compute; lia)).
Defined.

(** The claim C1 as stated fails: at the head of the straight path and
    the first knot of the square, [within_turn (v1, v2, v5)] holds and
    [within_turn (v4, v5, v3)] does not, and what is emitted is the pen
    edge from (0.5,0.5) to (-0.5,0.5), not the path segment moved to the
    pen knot, which would end in (10.5,0.5). *)
Lemma convolve_emits_counterexample :
  within_turn (-3) 0 3 0 (-0.5 - 0.5) (0.5 - 0.5) = true ∧
  within_turn (0.5 - 0.5) (0.5 - -0.5) (-0.5 - 0.5) (0.5 - 0.5) 10 0 = false ∧
  emitted <$> convolve straight_scene trace_init 4 (-3) 0 3 0 10 0 0
  = Some [Point 0.5 0.5; Point (0.5 + (-0.5 - 0.5) / 3) 0.5;
          Point (-0.5 - (-0.5 - 0.5) / 3) 0.5; Point (-0.5) 0.5]%float.
Proof. repeat split; vm_compute; reflexivity. Qed.

(** ** [convolve_all] *)

Lemma moves_at_convolve (h : heap) (p r : ptr) (kp kq kr s4 s5 : knot_t) :
  h !! p = Some kp → h !! SUCC kp = Some kq →
  h !! r = Some kr → h !! PRED kr = Some s4 → h !! SUCC kr = Some s5 →
  let x2 := (e_x (right_info kp) - k_x kp)%float in
  let y2 := (e_y (right_info kp) - k_y kp)%float in
  let v1 :=
    if decide (left_type kp = kt_explicit)
    then ((k_x kp - e_x (left_info kp))%float, (k_y kp - e_y (left_info kp))%float)
    else ((- x2)%float, (- y2)%float) in
  moves_at h p r
  = (if within_turn v1.1 v1.2 x2 y2 (k_x s5 - k_x kr) (k_y s5 - k_y kr)
     then 1 else 0)
    + (if within_turn (k_x kr - k_x s4) (k_y kr - k_y s4)
            (k_x s5 - k_x kr) (k_y s5 - k_y kr)
            (k_x kq - k_x kp) (k_y kq - k_y kp)
       then 1 else 0).
Proof.
  intros Hp Hq Hr H4 H5. unfold moves_at. rewrite Hp, Hr, Hq, H4, H5.
  by destruct (decide _).
Qed.

Section ConvolveAll.

Variables (h : heap) (brush : ptr).

Lemma is_ring_pen_ok (l : list ptr) : is_ring h l → pen_ok h l.
Proof.
  intros Hr. apply Forall_forall. intros r Hin.
  destruct (is_ring_pred _ _ _ Hr Hin) as (x & _ & HL).
  apply linked_inv in HL as (kx & kr & Hx & Hkr & _ & HP).
  exists kr, kx. by rewrite HP.
Qed.

Lemma convolve_pen_loop_spec (p : ptr) (kp kq : knot_t) (s : list ptr) :
  h !! p = Some kp → h !! SUCC kp = Some kq →
  let x2 := (e_x (right_info kp) - k_x kp)%float in
  let y2 := (e_y (right_info kp) - k_y kp)%float in
  let v1 :=
    if decide (left_type kp = kt_explicit)
    then ((k_x kp - e_x (left_info kp))%float, (k_y kp - e_y (left_info kp))%float)
    else ((- x2)%float, (- y2)%float) in
  let x3 := (k_x kq - k_x kp)%float in
  let y3 := (k_y kq - k_y kp)%float in
  ∀ (fuel : nat) (tb : tracebuf) (r : ptr),
  Forall2 (linked h) (r :: s) (s ++ [brush]) → brush ∉ s → length s < fuel →
  pen_ok h (r :: s) → trace_top tb ≤ length (trace tb) →
  let c := sum_list (moves_at h p <$> r :: s) in
  match convolve_pen_loop fuel brush h tb p v1.1 v1.2 x2 y2 x3 y3 r with
  | Some tb' =>
    trace_top tb + 4 * c ≤ length (trace tb) ∧
    trace_top tb' = trace_top tb + 4 * c ∧
    length (trace tb') = length (trace tb)
  | None => length (trace tb) < trace_top tb + 4 * c
  end.
Proof.
  intros Hp Hq x2 y2 v1 x3 y3.
  induction s as [|r' s' IH]; intros fuel tb r HF Hb Hfuel Hok Hinv c;
    (destruct fuel as [|fuel]; [simpl in Hfuel; lia|]);
    simpl convolve_pen_loop;
    apply Forall2_cons_1 in HF as [HL HF];
    apply linked_inv in HL as (kr & ks & Hr & Hs & Hsucc & _);
    apply Forall_cons in Hok as [(kr' & s4 & Hr' & H4) Hok];
    rewrite Hr in Hr'; injection Hr' as <-;
    rewrite <- Hsucc in Hs;
    pose proof (convolve_spec h tb p r v1.1 v1.2 x2 y2 x3 y3 _ _ _ _ _
                  Hp Hq Hr H4 Hs Hinv) as Hc;
    pose proof (moves_at_convolve h p r _ _ _ _ _ Hp Hq Hr H4 Hs) as Hm;
    simpl in Hc, Hm; fold x2 y2 v1 x3 y3 in Hc, Hm; rewrite <- Hm in Hc;
    unfold c; simpl sum_list;
    (destruct (convolve h tb p _ _ _ _ _ _ r) as [tb1|]; simpl; [|lia]);
    destruct Hc as (Hcap & Htop & Hlen & _); rewrite Hr; simpl; rewrite Hsucc.
  - rewrite decide_True by done. simpl. lia.
  - rewrite decide_False by (intros ->; apply Hb; by left).
    pose proof (IH fuel tb1 r' HF ltac:(intros ?; apply Hb; by right)
                  ltac:(simpl in Hfuel; lia) Hok ltac:(lia)) as H.
    simpl in H. destruct (convolve_pen_loop _ _ _ _ _ _ _ _ _ _ _ _); lia.
Qed.

Lemma convolve_all_loop_spec (knots : ptr) (pen : list ptr) (s : list ptr) :
  is_ring h pen → head pen = Some brush →
  ∀ (fuel : nat) (tb : tracebuf) (p : ptr),
  Forall2 (linked h) (p :: s) (s ++ [knots]) → knots ∉ s → length s < fuel →
  trace_top tb ≤ length (trace tb) →
  let c := pieces h (p :: until_regular h s) pen in
  match convolve_all_loop fuel knots brush h tb p with
  | Some tb' =>
    trace_top tb + 4 * c ≤ length (trace tb) ∧
    trace_top tb' = trace_top tb + 4 * c ∧
    length (trace tb') = length (trace tb)
  | None => length (trace tb) < trace_top tb + 4 * c
  end.
Proof.
  intros Hpen Hhd.
  destruct pen as [|b pen_t]; [done|]. injection Hhd as ->.
  pose proof (is_ring_length _ _ Hpen) as Hplen. simpl in Hplen.
  pose proof (is_ring_pen_ok _ Hpen) as Hok.
  destruct Hpen as [[Hb _]%NoDup_cons HFpen].
  induction s as [|q s' IH]; intros fuel tb p HF Hk Hfuel Hinv c;
    (destruct fuel as [|fuel]; [simpl in Hfuel; lia|]);
    simpl convolve_all_loop;
    apply Forall2_cons_1 in HF as [HL HF];
    apply linked_inv in HL as (kp & kq & Hp & Hq & Hsucc & _);
    rewrite Hp; simpl; rewrite Hsucc, Hq; simpl;
    rewrite <- Hsucc in Hq;
    pose proof (convolve_pen_loop_spec p kp kq pen_t Hp Hq (length h) tb brush
                  HFpen Hb ltac:(lia) Hok Hinv) as Hc;
    simpl in Hc;
    destruct (decide (left_type kp = kt_explicit)); simpl in Hc;
    (destruct (convolve_pen_loop _ _ _ _ _ _ _ _ _ _ _ _) as [tb1|];
       [|unfold c, pieces; simpl; lia]);
    destruct Hc as (Hcap & Htop & Hlen); simpl.
  1,2: rewrite decide_True by done; unfold c, pieces; simpl; lia.
  all: rewrite decide_False by (intros ->; apply Hk; by left).
  all: unfold c; simpl until_regular; rewrite <- Hsucc, Hq; simpl.
  all: destruct (decide (right_type kq = kt_regular)) as [Hreg|Hreg].
  all: try (rewrite decide_True by (by rewrite Hreg); unfold pieces; simpl; lia).
  all: rewrite decide_False by (by intros [= ?]).
  all: pose proof (IH fuel tb1 (SUCC kp) ltac:(by rewrite Hsucc)
                     ltac:(intros ?; apply Hk; by right)
                     ltac:(simpl in Hfuel; lia) ltac:(lia)) as H.
  all: rewrite Hsucc in *; simpl in H.
  all: destruct (convolve_all_loop _ _ _ _ _ _); unfold pieces in *; simpl in *; lia.
Qed.

End ConvolveAll.

(** C9: [convolve_all] starts from [trace_top = 0], and whenever it
    returns, [trace_top] is 4 times the number of pieces emitted, one
    piece for each [make_move] of each [convolve] over the visited path
    knots and the pen knots; it returns whenever the trace buffer has
    room for these points, and stores out of bounds otherwise. *)
Theorem convolve_all_trace_top (h : heap) (tb : tracebuf)
    (path pen : list ptr) (knots brush : ptr) :
  is_ring h path → head path = Some knots →
  is_ring h pen → head pen = Some brush →
  let n := pieces h (segments h path) pen in
  match convolve_all h tb knots brush with
  | Some tb' =>
    trace_top tb' = 4 * n ∧ 4 * n ≤ length (trace tb) ∧
    length (emitted tb') = 4 * n ∧ length (trace tb') = length (trace tb)
  | None => length (trace tb) < 4 * n
  end.
Proof.
  intros Hpath Hhd Hpen Hhd' n.
  destruct path as [|p0 t]; [done|]. injection Hhd as ->.
  pose proof (is_ring_length _ _ Hpath) as Hlen. simpl in Hlen.
  destruct Hpath as [[Hp0 _]%NoDup_cons HF].
  pose proof (convolve_all_loop_spec h brush knots pen t Hpen Hhd'
                (length h) (Trace (trace tb) 0) knots HF Hp0 ltac:(lia)
                ltac:(simpl; lia)) as H.
  simpl in H. unfold convolve_all. fold (segments h (knots :: t)) in H.
  fold n in H.
  destruct (convolve_all_loop _ _ _ _ _ _) as [tb'|]; [|done].
  destruct H as (H1 & H2 & H3). repeat split; try done.
  unfold emitted. rewrite length_take. lia.
Qed.

Lemma convolve_all_trace_top_witness :
  ∃ tb', convolve_all straight_scene trace_init 4 0 = Some tb' ∧
    trace_top tb' = 4 * pieces straight_scene [4] [0; 1; 2; 3].
Proof.
  pose proof (convolve_all_trace_top straight_scene trace_init [4; 5]
                [0; 1; 2; 3] 4 0 ltac:(by_compute) eq_refl
                ltac:(by_compute) eq_refl) as H.
  destruct (convolve_all straight_scene trace_init 4 0) as [tb'|] eqn:E.
  - exists tb'. split; [done|]. apply H.
  - vm_compute in E. discriminate E.
Defined.

(** ** [knots_ring_reverse] *)


Lemma insert_alter_eq {A} (l : list A) (i : nat) (f : A → A) (a : A) :
  l !! i = Some a → <[i := f a]> l = alter f i l.
Proof.
  intros Ha. apply list_eq. intros j. destruct (decide (i = j)) as [->|Hne].
  - rewrite list_lookup_insert_eq by (by eapply lookup_lt_Some).
    by rewrite list_lookup_alter_eq, Ha.
  - by rewrite list_lookup_insert_ne, list_lookup_alter_ne.
Qed.

(** The heap with the knots at the addresses [l] reversed. *)
Lemma reverse_all_lookup (l : list ptr) (h : heap) (a : ptr) :
  NoDup l →
  foldl (λ h p, alter reverse_knot p h) h l !! a
  = (if decide (a ∈ l) then reverse_knot else id) <$> h !! a.
Proof.
  revert h. induction l as [|p l IH]; intros h Hnd; simpl.
  - by destruct (h !! a).
  - apply NoDup_cons in Hnd as [Hp Hnd]. rewrite IH by done.
    destruct (decide (a = p)) as [->|Hne].
    + rewrite decide_False by done. rewrite (decide_True (P := p ∈ p :: l)) by by left.
      rewrite list_lookup_alter_eq. by rewrite option_fmap_id.
    + rewrite list_lookup_alter_ne by done.
      destruct (decide (a ∈ l)).
      * by rewrite decide_True by by right.
      * rewrite decide_False; [done|]. by intros [?|?]%elem_of_cons.
Qed.

Lemma regular_knots_alter (l : list ptr) (h : heap) (p : ptr)
    (f : knot_t → knot_t) :
  p ∉ l → regular_knots (alter f p h) l = regular_knots h l.
Proof.
  unfold regular_knots. induction l as [|q l IH]; intros Hp; [done|].
  apply not_elem_of_cons in Hp as [Hpq Hp].
  rewrite !filter_cons, IH by done.
  by rewrite list_lookup_alter_ne.
Qed.

Lemma knots_ring_reverse_loop_spec (knots : ptr) (s : list ptr) :
  ∀ (fuel : nat) (h : heap) (p : ptr) (ns : option ptr),
  Forall2 (λ p q, SUCC <$> h !! p = Some q) (p :: s) (s ++ [knots]) →
  NoDup (p :: s) → knots ∉ s → length s < fuel →
  knots_ring_reverse_loop fuel knots h p ns
  = Some (foldl (λ h p, alter reverse_knot p h) h (p :: s),
          match last (regular_knots h (p :: s)) with
          | Some x => Some x
          | None => ns
          end).
Proof.
  induction s as [|q s IH]; intros fuel h p ns HF Hnd Hk Hfuel;
    (destruct fuel as [|fuel]; [simpl in Hfuel; lia|]);
    simpl knots_ring_reverse_loop;
    apply Forall2_cons_1 in HF as [HL HF];
    destruct (h !! p) as [kp|] eqn:Hp; [|done| |done]; simpl in HL;
    injection HL as HL; simpl; rewrite HL;
    rewrite (insert_alter_eq _ _ reverse_knot _ Hp);
    unfold regular_knots; rewrite filter_cons, Hp; simpl.
  - rewrite decide_True by done. f_equal. f_equal.
    destruct (decide (right_type kp = kt_regular)) as [Hreg|Hreg].
    + by rewrite decide_True by (by rewrite Hreg).
    + by rewrite decide_False by (by intros [= ?]).
  - rewrite decide_False by (intros ->; apply Hk; by left).
    apply NoDup_cons in Hnd as [Hp' Hnd].
    rewrite IH; [| |done|by intros ?; apply Hk; right|simpl in Hfuel; lia].
    + f_equal. f_equal. fold (regular_knots (alter reverse_knot p h) (q :: s)).
      rewrite regular_knots_alter by done. unfold regular_knots.
      destruct (decide (right_type kp = kt_regular)) as [Hreg|Hreg].
      * rewrite (decide_True (P := Some (right_type kp) = _)) by (by rewrite Hreg).
        destruct (filter _ (q :: s)) as [|y ys] eqn:E; [done|].
        change (last (p :: y :: ys)) with (last (y :: ys)).
        destruct (last (y :: ys)) eqn:E'; [done|].
        by apply last_None in E'.
      * by rewrite (decide_False (P := Some (right_type kp) = _)) by (by intros [= ?]).
    + apply Forall2_same_length_lookup. split; [by eapply Forall2_length|].
      intros i a b Ha Hb.
      pose proof (Forall2_lookup_lr _ _ _ _ _ _ HF Ha Hb) as Hab.
      rewrite list_lookup_alter_ne; [done|].
      intros ->. apply Hp'. by eapply list_elem_of_lookup_2.
Qed.

(** What [knots_ring_reverse] computes on a ring: [h1] is the heap with
    every knot of the ring reversed. *)
Lemma knots_ring_reverse_run (h : heap) (l : list ptr) (knots : ptr) :
  is_ring h l → head l = Some knots →
  ∃ h1,
    (∀ a, h1 !! a = (if decide (a ∈ l) then reverse_knot else id) <$> h !! a) ∧
    match last (regular_knots h l) with
    | None => knots_ring_reverse h knots = Some (h1, knots)
    | Some x =>
      ∃ kx, h !! x = Some kx ∧ right_type kx = kt_regular ∧
        knots_ring_reverse h knots
        = Some (alter (set_right_type kt_regular) (SUCC kx)
                  (alter (set_left_type kt_open) x h1), x)
    end.
Proof.
  intros Hring Hhd. destruct l as [|p0 t]; [done|]. injection Hhd as ->.
  pose proof (is_ring_length _ _ Hring) as Hlen. simpl in Hlen.
  pose proof Hring as [Hnd HF].
  set (h1 := foldl (λ h p, alter reverse_knot p h) h (knots :: t)).
  assert (Hh1 : ∀ a, h1 !! a
            = (if decide (a ∈ knots :: t) then reverse_knot else id) <$> h !! a)
    by (intros a; by apply reverse_all_lookup).
  exists h1. split; [done|].
  assert (Hloop : knots_ring_reverse_loop (length h) knots h knots None
            = Some (h1, last (regular_knots h (knots :: t)))).
  { rewrite (knots_ring_reverse_loop_spec knots t); [|..|done| |lia].
    - by destruct (last _).
    - eapply Forall2_impl; [done|]. by intros a b [? _].
    - by apply NoDup_cons in Hnd as [? _]. }
  unfold knots_ring_reverse. rewrite Hloop. simpl.
  destruct (last (regular_knots h (knots :: t))) as [x|] eqn:Hlast; [|done].
  assert (Hx : x ∈ regular_knots h (knots :: t)).
  { apply last_Some in Hlast as [l' ->]. apply elem_of_app. right. by left. }
  apply list_elem_of_filter in Hx as [Hreg Hx].
  destruct (h !! x) as [kx|] eqn:Hkx; [|done]. simpl in Hreg.
  injection Hreg as Hreg. exists kx. split; [done|]. split; [done|].
  assert (Hx1 : h1 !! x = Some (reverse_knot kx))
    by (by rewrite Hh1, decide_True, Hkx).
  rewrite Hx1. simpl. rewrite (store_alter _ _ _ _ Hx1). simpl.
  destruct (is_ring_lookup _ _ _ Hring Hx) as (q & Hq & HL).
  destruct (is_ring_valid _ _ _ Hring Hq) as [kq Hkq].
  destruct HL as [HL _]. rewrite Hkx in HL. simpl in HL. injection HL as HL.
  change (PRED (reverse_knot kx)) with (SUCC kx). rewrite HL.
  assert (is_Some (alter (set_left_type kt_open) x h1 !! q)) as [kq' Hkq'].
  { apply lookup_lt_is_Some. rewrite length_alter.
    apply lookup_lt_is_Some. rewrite Hh1, Hkq. by eexists. }
  by rewrite (store_alter _ _ _ _ Hkq').
Qed.

Lemma is_ring_reversed (h h1 : heap) (p0 : ptr) (t : list ptr) :
  is_ring h (p0 :: t) →
  (∀ a, a ∈ p0 :: t →
     list_node <$> h1 !! a = (λ k, Node (PRED k) (SUCC k)) <$> h !! a) →
  is_ring h1 (p0 :: reverse t).
Proof.
  intros [Hnd HF] Hh1. split.
  - apply NoDup_cons in Hnd as [Hp0 Hnd]. apply NoDup_cons.
    split; [by rewrite elem_of_reverse|by rewrite reverse_Permutation].
  - apply Forall2_reverse in HF.
    rewrite reverse_cons, reverse_app in HF. simpl in HF.
    apply Forall2_flip in HF.
    apply Forall2_same_length_lookup. split; [by eapply Forall2_length|].
    intros i a b Ha Hb.
    pose proof (Forall2_lookup_lr _ _ _ _ _ _ HF Ha Hb) as [Hs Hp].
    assert (Ha' : a ∈ p0 :: t).
    { apply list_elem_of_lookup_2 in Ha.
      apply elem_of_cons in Ha as [->|Ha]; [by left|right].
      by apply elem_of_reverse. }
    assert (Hb' : b ∈ p0 :: t).
    { apply list_elem_of_lookup_2 in Hb.
      apply elem_of_app in Hb as [Hb|Hb%list_elem_of_singleton];
        [right; by apply elem_of_reverse|subst; by left]. }
    pose proof (Hh1 a Ha') as H1. pose proof (Hh1 b Hb') as H2.
    unfold linked, SUCC, PRED in *.
    destruct (h !! a) as [ka|], (h !! b) as [kb|]; try done.
    destruct (h1 !! a) as [ka'|], (h1 !! b) as [kb'|]; try done.
    simpl in *. injection H1 as ->. injection H2 as ->. simpl.
    injection Hs as ->. injection Hp as ->. done.
Qed.

Lemma is_ring_rotate (h : heap) (p q : ptr) (s : list ptr) :
  is_ring h (p :: q :: s) → is_ring h (q :: s ++ [p]).
Proof.
  intros [Hnd HF]. split.
  - eapply NoDup_Permutation_proper; [|done].
    change (q :: s ++ [p]) with ((q :: s) ++ [p]).
    by rewrite <- Permutation_cons_append.
  - apply Forall2_cons_1 in HF as [HL HF].
    change (q :: s ++ [p]) with ((q :: s) ++ [p]).
    apply Forall2_app; [done|]. constructor; [done|constructor].
Qed.



Lemma list_node_alter (f : knot_t → knot_t) (h : heap) (i a : ptr) :
  (∀ k, list_node (f k) = list_node k) →
  list_node <$> alter f i h !! a = list_node <$> h !! a.
Proof.
  intros Hf. rewrite list_lookup_alter. case_decide as Hia; [|done].
  subst. destruct (h !! a); [|done]. simpl. by rewrite Hf.
Qed.

Lemma reversed_links (h h1 : heap) (l : list ptr) :
  (∀ a, h1 !! a = (if decide (a ∈ l) then reverse_knot else id) <$> h !! a) →
  ∀ a, a ∈ l →
    list_node <$> h1 !! a = (λ k, Node (PRED k) (SUCC k)) <$> h !! a.
Proof.
  intros Hh1 a Ha. rewrite Hh1, decide_True by done. by destruct (h !! a).
Qed.

(** C4, amended: on a ring, [knots_ring_reverse] reverses every knot of
    the ring, that is, swaps its two infos, its two type tags and its two
    links, and leaves every other knot alone.  If no knot of the ring had
    a regular right side, this is all and the argument is returned.
    Otherwise the new head, which is returned, is the knot whose old
    right side was regular (the last such knot in ring order; the only
    one on a path): its left tag, regular after the swap, is reset to
    open, and the right tag of its new predecessor, which is its old
    successor, is set to regular. *)
Theorem knots_ring_reverse_spec (h : heap) (l : list ptr) (knots : ptr) :
  is_ring h l → head l = Some knots →
  ∃ h1 h' hd,
    knots_ring_reverse h knots = Some (h', hd) ∧
    (∀ a, h1 !! a = (if decide (a ∈ l) then reverse_knot else id) <$> h !! a) ∧
    is_ring h' (knots :: reverse (tail l)) ∧
    match last (regular_knots h l) with
    | None => h' = h1 ∧ hd = knots
    | Some x =>
      ∃ kx, h !! x = Some kx ∧ right_type kx = kt_regular ∧
        h' = alter (set_right_type kt_regular) (SUCC kx)
               (alter (set_left_type kt_open) x h1) ∧
        hd = x
    end.
Proof.
  intros Hring Hhd.
  destruct (knots_ring_reverse_run h l knots Hring Hhd) as (h1 & Hh1 & Hrun).
  destruct l as [|p0 t]; [done|]. injection Hhd as ->. simpl tail.
  pose proof (reversed_links _ _ _ Hh1) as Hlinks.
  destruct (last (regular_knots h (knots :: t))) as [x|].
  - destruct Hrun as (kx & Hkx & Hreg & Hrun).
    eexists h1, _, x. split; [done|]. split; [done|]. split; [|by eauto].
    apply (is_ring_reversed h); [done|]. intros a Ha.
    rewrite !list_node_alter by done. by apply Hlinks.
  - exists h1, h1, knots. split; [done|]. split; [done|]. split; [|done].
    by apply (is_ring_reversed h).
Qed.

Lemma knots_ring_reverse_spec_witness :
  ∃ h1 h' hd,
    knots_ring_reverse two_knot_path 0 = Some (h', hd) ∧
    (∀ a, h1 !! a = (if decide (a ∈ [0; 1]) then reverse_knot else id)
                      <$> two_knot_path !! a) ∧
    is_ring h' [0; 1] ∧
    ∃ kx, two_knot_path !! 1 = Some kx ∧ right_type kx = kt_regular ∧
      h' = alter (set_right_type kt_regular) (SUCC kx)
             (alter (set_left_type kt_open) 1 h1) ∧
      hd = 1.
Proof.
  exact (knots_ring_reverse_spec two_knot_path [0; 1] 0
           ltac:(by_compute) eq_refl).
Defined.

(** The claim C4 as stated fails on the path from (0,0) to (1,0): the
    only regular right side is that of the tail, no knot has a regular
    left side (the left side of the tail is explicit), and the tail is
    the head returned; its left tag ends up open, not regular. *)
Lemma knots_ring_reverse_head_counterexample :
  is_ring two_knot_path [0; 1] ∧
  regular_knots two_knot_path [0; 1] = [1] ∧
  left_type <$> two_knot_path !! 0 = Some kt_open ∧
  left_type <$> two_knot_path !! 1 = Some kt_explicit ∧
  ∃ h', knots_ring_reverse two_knot_path 0 = Some (h', 1) ∧
    left_type <$> h' !! 1 = Some kt_open ∧
    right_type <$> h' !! 0 = Some kt_regular.
Proof.
  split; [by_compute|]. repeat split; try (vm_compute; reflexivity).
  eexists. repeat split; vm_compute; reflexivity.
Qed.


Lemma is_ring_last (h : heap) (p0 x : ptr) (t : list ptr) :
  is_ring h (p0 :: t) → last (p0 :: t) = Some x → linked h x p0.
Proof.
  intros [_ HF] Hlast. rewrite last_lookup in Hlast. simpl in Hlast.
  eapply (Forall2_lookup_lr _ _ _ (length t)); [done|done|].
  by rewrite lookup_app_r, Nat.sub_diag by done.
Qed.





(** ** The tee stack: pushes do not depend on its contents *)

Lemma tee_pushes_take (st : list float) (vs : list float) :
  length vs ≤ length st →
  take (length vs) (tee_stack (tee_pushes (Tees st 0) vs)) = vs.
Proof.
  intros Hlen.
  assert (H : ∀ vs t, tee_top t + length vs ≤ length (tee_stack t) →
            take (tee_top t + length vs) (tee_stack (tee_pushes t vs))
            = take (tee_top t) (tee_stack t) ++ vs).
  { clear. induction vs as [|v vs IH]; intros t Hcap; simpl in *.
    - by rewrite Nat.add_0_r, app_nil_r.
    - change (foldl _ ?a vs) with (tee_pushes a vs).
      replace (tee_top t + S (length vs)) with (S (tee_top t + length vs)) by lia.
      pose proof (IH (Tees (<[tee_top t := v]> (tee_stack t)) (S (tee_top t)))
                    ltac:(simpl; rewrite length_insert; lia)) as IH'.
      simpl in IH'. rewrite IH'.
      rewrite (take_S_r _ _ v) by (apply list_lookup_insert_eq; lia).
      rewrite take_insert_ge by lia. by rewrite <- app_assoc. }
  apply (H vs (Tees st 0)). simpl. lia.
Qed.

Lemma tee_push_inv (t t' : tees) (v : float) :
  tee_push t v = Some t' →
  t' = tee_pushes t [v] ∧ tee_top t + 1 ≤ length (tee_stack t).
Proof.
  unfold tee_push. case_decide; [|done]. intros [= <-]. split; [done|lia].
Qed.

Lemma tee_push_bind_inv {A} (t : tees) (v : float) (f : tees → option A)
    (r : A) :
  tee_push t v ≫= f = Some r →
  tee_top t < length (tee_stack t) ∧ f (tee_pushes t [v]) = Some r.
Proof. unfold tee_push. case_decide; [|done]. simpl. by split. Qed.

Ltac tee_push_inv H :=
  let Hc := fresh "Hc" in
  let H' := fresh "H" in
  apply tee_push_bind_inv in H as [Hc H']; rename H' into H; simpl in H.

Lemma solve_quadratic_pushes (t t' : tees) (a b c : float) (n : Z) :
  tee_top t ≤ length (tee_stack t) →
  solve_quadratic t a b c = Some (t', n) →
  ∃ vs, pushes (λ s, solve_quadratic s a b c) t t' n vs.
Proof.
  unfold solve_quadratic, pushes. intros Hinv.
  repeat match goal with
  | |- context [if ?b then _ else _] => destruct b eqn:?
  end; simpl; intros H.
  all: repeat tee_push_inv H.
  all: simpl in H; injection H as <- <-.
  all: try (exists []; split; [done|]; split; [simpl; lia|]; by intros s _).
  all: try (eexists [_]; split; [done|]; split; [simpl; lia|]; intros s Hs;
            simpl in Hs; by rewrite tee_push_Some by lia).
  all: eexists [_; _]; (split; [done|]); simpl in *;
    rewrite ?length_insert in *; (split; [lia|]); intros s Hs;
    rewrite tee_push_Some by lia; simpl;
    by rewrite tee_push_Some by (simpl; rewrite length_insert; lia).
Qed.

Section Pushes.

Variable hypot : float → float → float.
Variable h : heap.

Lemma inflection_tees_pushes (t t' : tees) (knots : ptr) :
  tee_top t ≤ length (tee_stack t) →
  inflection_tees hypot h t knots = Some t' →
  ∃ vs, pushes (λ s, (λ t, (t, ())) <$> inflection_tees hypot h s knots)
          t t' () vs.
Proof.
  intros Hinv. unfold inflection_tees.
  destruct (h !! knots) as [p|]; [|done]. simpl.
  destruct (h !! SUCC p) as [q|]; [|done]. simpl.
  destruct (solve_quadratic t _ _ _) as [[t1 n]|] eqn:E; [|done]. simpl.
  intros [= <-].
  apply solve_quadratic_pushes in E as (vs & -> & Hc & Hs); [|done].
  exists vs. split; [done|]. split; [done|]. intros s Hcap.
  by rewrite (Hs s Hcap).
Qed.

Lemma pen_tees_loop_pushes (pen : ptr) (x0 y0 x1 y1 x2 y2 : float) :
  ∀ (fuel : nat) (t t' : tees) (p : ptr),
  tee_top t ≤ length (tee_stack t) →
  pen_tees_loop fuel pen h t x0 y0 x1 y1 x2 y2 p = Some t' →
  ∃ vs, pushes
          (λ s, (λ t, (t, ())) <$> pen_tees_loop fuel pen h s x0 y0 x1 y1 x2 y2 p)
          t t' () vs.
Proof.
  induction fuel as [|fuel IH]; intros t t' p Hinv; [done|]. simpl.
  destruct (h !! p) as [kp|]; [|done]. simpl.
  destruct (h !! SUCC kp) as [kq|]; [|done]. simpl.
  destruct (solve_bezier t _ _ _) as [[t1 n]|] eqn:E; [|done]. simpl.
  apply solve_quadratic_pushes in E as (vs & -> & Hc & Hs); [|done].
  case_decide.
  - intros [= <-]. exists vs. split; [done|]. split; [done|]. intros s Hcap.
    unfold solve_bezier. by rewrite (Hs s Hcap).
  - intros Hrun. apply IH in Hrun as (ws & -> & Hc' & Hs');
      [|rewrite tee_pushes_top, tee_pushes_length; lia].
    rewrite tee_pushes_top, tee_pushes_length in Hc'.
    exists (vs ++ ws). unfold pushes. rewrite tee_pushes_app, length_app.
    split; [done|]. split; [lia|]. intros s Hcap.
    unfold solve_bezier. rewrite (Hs s) by lia. simpl.
    rewrite tee_pushes_app. apply Hs'.
    rewrite tee_pushes_top, tee_pushes_length. lia.
Qed.

Lemma pen_tees_pushes (t t' : tees) (knots pen : ptr) :
  tee_top t ≤ length (tee_stack t) →
  pen_tees h t knots pen = Some t' →
  ∃ vs, pushes (λ s, (λ t, (t, ())) <$> pen_tees h s knots pen) t t' () vs.
Proof.
  intros Hinv. unfold pen_tees.
  destruct (h !! knots) as [p|]; [|done]. simpl.
  destruct (h !! SUCC p) as [q|]; [|done]. simpl.
  by apply pen_tees_loop_pushes.
Qed.

(** The candidate tees do not depend on what the stack held before. *)
Lemma candidate_tees_run (knots brush : ptr) (vs : list float)
    (st : list float) :
  candidate_tees hypot h knots brush = Some vs →
  length st = 2 * PEN_MAX →
  ∃ t', inflection_tees hypot h (Tees st 0) knots
          ≫= (λ t, pen_tees h t knots brush) = Some t' ∧
        tee_top t' = length vs ∧ length (tee_stack t') = length st ∧
        length vs ≤ length st ∧ take (length vs) (tee_stack t') = vs.
Proof.
  unfold candidate_tees. intros Hc Hlen.
  destruct (inflection_tees hypot h tees_init knots) as [ta|] eqn:Ea; [|done].
  simpl in Hc.
  destruct (pen_tees h ta knots brush) as [tb|] eqn:Eb; [|done].
  simpl in Hc. injection Hc as Hvs.
  assert (Hinit : length (tee_stack tees_init) = 2 * PEN_MAX)
    by apply length_replicate.
  assert (Htop0 : tee_top tees_init = 0) by done.
  apply inflection_tees_pushes in Ea as (v1 & -> & Hc1 & Hs1);
    [|rewrite Htop0; apply Nat.le_0_l].
  apply pen_tees_pushes in Eb as (v2 & -> & Hc2 & Hs2);
    [|rewrite tee_pushes_top, tee_pushes_length, Htop0; lia].
  rewrite tee_pushes_top, tee_pushes_length in Hc2.
  rewrite Htop0, Hinit in Hc1, Hc2.
  assert (vs = v1 ++ v2) as ->.
  { rewrite <- Hvs, <- tee_pushes_app, tee_pushes_top, Htop0, Nat.add_0_l.
    apply (tee_pushes_take (tee_stack tees_init)).
    rewrite length_app. lia. }
  specialize (Hs1 (Tees st 0) ltac:(simpl; lia)).
  destruct (inflection_tees hypot h (Tees st 0) knots) as [sa|]; [|done].
  simpl in Hs1. injection Hs1 as ->. simpl.
  specialize (Hs2 (tee_pushes (Tees st 0) v1)
                ltac:(rewrite tee_pushes_top, tee_pushes_length; simpl; lia)).
  destruct (pen_tees h _ knots brush) as [sb|]; [|done].
  simpl in Hs2. injection Hs2 as ->.
  eexists. split; [done|]. rewrite <- tee_pushes_app.
  rewrite tee_pushes_top, tee_pushes_length. simpl.
  split; [done|]. split; [done|].
  split; [rewrite length_app; lia|].
  apply tee_pushes_take. rewrite length_app. lia.
Qed.

End Pushes.

(** ** The filter of [split_at_tees] *)

Lemma filter_tees_outside (n : nat) :
  ∀ (fuel : nat) (t : tees) (i : nat),
  tee_top t = i + n → tee_top t ≤ length (tee_stack t) → n < fuel →
  Forall outside (drop i (take (tee_top t) (tee_stack t))) →
  ∃ st', filter_tees fuel t i = Some (Tees st' i) ∧
         take i st' = take i (tee_stack t) ∧
         length st' = length (tee_stack t).
Proof.
  induction n as [|n IH]; intros fuel [st top] i Htop Hcap Hfuel Hout;
    simpl in *; (destruct fuel as [|fuel]; [lia|]); simpl.
  - rewrite decide_False by lia. exists st. by rewrite Htop, Nat.add_0_r.
  - rewrite decide_True by lia.
    assert (is_Some (st !! i)) as [m Hm] by (apply lookup_lt_is_Some; lia).
    rewrite Hm. simpl.
    assert (Hmo : outside m).
    { eapply (proj1 (Forall_forall _ _) Hout).
      apply (list_elem_of_lookup_2 _ 0). rewrite lookup_drop, Nat.add_0_r.
      apply lookup_take_Some. split; [done|lia]. }
    unfold outside in Hmo. rewrite Hmo.
    assert (is_Some (st !! Nat.pred top)) as [v Hv]
      by (apply lookup_lt_is_Some; lia).
    rewrite Hv. simpl.
    destruct (IH fuel (Tees (<[i := v]> st) (Nat.pred top)) i)
      as (st' & Hrun & Htake & Hlen); simpl;
      [lia|rewrite length_insert; lia|lia| |].
    + apply Forall_forall. intros w [j Hj]%list_elem_of_lookup.
      rewrite lookup_drop in Hj. apply lookup_take_Some in Hj as [Hj Hjlt].
      apply list_lookup_insert_Some in Hj as [(_ & <- & _)|[Hne Hj]].
      * eapply (proj1 (Forall_forall _ _) Hout).
        apply (list_elem_of_lookup_2 _ (Nat.pred top - i)).
        rewrite lookup_drop. apply lookup_take_Some.
        split; [by replace (i + (Nat.pred top - i)) with (Nat.pred top) by lia|lia].
      * eapply (proj1 (Forall_forall _ _) Hout).
        apply (list_elem_of_lookup_2 _ j). rewrite lookup_drop.
        apply lookup_take_Some. split; [done|lia].
    + exists st'. split; [done|]. simpl in Htake, Hlen.
      rewrite Htake, Hlen, length_insert. split; [|done].
      by rewrite take_insert_ge by lia.
Qed.

(** ** Segments without a tee inside (0,1) are left alone *)

Section SplitFixed.

Variable hypot : float → float → float.
Variable h : heap.
Variable brush : ptr.

Local Arguments filter_tees : simpl never.

Lemma split_at_tees_loop_fixed (knots : ptr) (s : list ptr) :
  ∀ (fuel : nat) (t : tees) (p : ptr),
  Forall2 (linked h) (p :: s) (s ++ [knots]) → knots ∉ s → length s < fuel →
  length (tee_stack t) = 2 * PEN_MAX →
  Forall (no_tee_inside hypot h brush) (p :: until_regular h s) →
  ∃ t', split_at_tees_loop hypot fuel knots brush h t p = Some (h, t') ∧
        tee_top t' = 0 ∧ length (tee_stack t') = 2 * PEN_MAX.
Proof.
  induction s as [|q s' IH]; intros fuel t p HF Hk Hfuel Hlen Hno;
    (destruct fuel as [|fuel]; [simpl in Hfuel; lia|]);
    simpl split_at_tees_loop;
    apply Forall2_cons_1 in HF as [HL HF];
    apply linked_inv in HL as (kp & kq & Hp & Hq & Hsucc & _);
    apply Forall_cons_1 in Hno as [Hc Hno];
    unfold no_tee_inside in Hc;
    (destruct (candidate_tees hypot h p brush) as [vs|] eqn:Hvs; [|done]);
    rename Hc into Hout;
    destruct (candidate_tees_run hypot h p brush vs (tee_stack t) Hvs Hlen)
      as (t1 & Hrun & Htop & Hlen1 & Hle & Htake);
    apply bind_Some in Hrun as (ta & Ha & Hb);
    rewrite Ha; simpl; rewrite Hb; simpl;
    destruct (filter_tees_outside (length vs) (S (tee_top t1)) t1 0)
      as (st' & Hflt & _ & Hlen');
    try (rewrite ?Htop, ?Hlen1; simpl; lia).
  1,3: by rewrite Htop, Htake.
  all: rewrite Hflt; simpl; rewrite Hp; simpl; rewrite Hsucc.
  - rewrite decide_True by done. eexists. split; [done|]. simpl.
    split; [done|]. by rewrite Hlen', Hlen1.
  - rewrite decide_False by (intros ->; apply Hk; by left).
    rewrite Hq. simpl. simpl until_regular in Hno. rewrite Hq in Hno.
    simpl in Hno.
    destruct (decide (right_type kq = kt_regular)) as [Hreg|Hreg].
    + eexists. split; [done|]. simpl. split; [done|]. by rewrite Hlen', Hlen1.
    + rewrite decide_False in Hno by (by intros [= ?]).
      apply IH; [done|intros ?; apply Hk; by right|simpl in Hfuel; lia| |done].
      simpl. by rewrite Hlen', Hlen1.
Qed.

End SplitFixed.

(** C8: on a path ring every visited segment of which has all its
    candidate tees (the roots pushed by [inflection_tees] and
    [pen_tees]) outside the open interval from 0 to 1, as at 0 or 1,
    [split_at_tees] filters every tee out and returns the heap as it
    was: no knot is inserted and no knot is changed. *)
Theorem split_at_tees_fixed (hypot : float → float → float) (h : heap)
    (t : tees) (path : list ptr) (knots brush : ptr) :
  is_ring h path → head path = Some knots →
  length (tee_stack t) = 2 * PEN_MAX →
  Forall (no_tee_inside hypot h brush) (segments h path) →
  ∃ t', split_at_tees hypot h t knots brush = Some (h, t') ∧ tee_top t' = 0.
Proof.
  intros Hpath Hhd Hlen Hno.
  destruct path as [|p0 s]; [done|]. injection Hhd as ->.
  pose proof (is_ring_length _ _ Hpath) as Hl. simpl in Hl.
  destruct Hpath as [[Hp0 _]%NoDup_cons HF].
  destruct (split_at_tees_loop_fixed hypot h brush knots s (length h) t knots
              HF Hp0 ltac:(lia) Hlen Hno) as (t' & Hrun & Htop & _).
  by exists t'.
Qed.

Lemma split_at_tees_fixed_witness :
  ∃ t', split_at_tees hypot_sqrt thin_triangle_split tees_init 0 2
        = Some (thin_triangle_split, t') ∧ tee_top t' = 0.
Proof.
  apply (split_at_tees_fixed hypot_sqrt thin_triangle_split tees_init
           [0; 5; 1] 0 2); [by_compute|reflexivity|reflexivity|by_compute].
Defined.

(** After one run on the cubic of scenario 4 with the validated square
    pen the path ring has the knots 0, 6, 7, 8, 1.  On the segment
    leaving knot 6 the slope tee 1.5383701491068509e-16 lies inside the
    interval, and a second run inserts two more knots. *)
Lemma split_at_tees_twice_counterexample :
  brush_make atan2_axis inflection_square_scene 2
  = Some (inflection_square_scene, 1%Z) ∧
  fst <$> split_at_tees hypot_sqrt inflection_square_scene tees_init 0 2
  = Some inflection_square_split ∧
  is_ring inflection_square_split [0; 6; 7; 8; 1] ∧
  (∃ m, slope_tees inflection_square_split 6 2 ≫= (.!! 0) = Some m ∧
        ((0 <? m) && (m <? 1))%float = true) ∧
  ('(h1, t1) ← split_at_tees hypot_sqrt inflection_square_scene tees_init 0 2;
   '(h2, _) ← split_at_tees hypot_sqrt h1 t1 0 2;
   Some (length h1, length h2, bool_decide (is_ring h2 [0; 6; 9; 7; 10; 8; 1])))
  = Some (9, 11, true).
Proof.
  split; [vm_compute; reflexivity|]. split; [vm_compute; reflexivity|]. split; [by_compute|].
  split; [|vm_compute; reflexivity].
  eexists. split; [vm_compute; reflexivity|]. vm_compute; reflexivity.
Qed.

(** ** The inflection split *)




Section PathHeap.

Variables (k0 k1 kr : knot_t) (pen : heap).




End PathHeap.




Section InflectionSplit.

Variable hypot : float → float → float.
Variable pen : heap.
Variable brush : ptr.

Local Arguments filter_tees : simpl never.
Local Arguments cubic_split : simpl never.


End InflectionSplit.




(** * Further properties *)

(** ** Rings and the intrusive list *)

Lemma store_Some (h h' : heap) (p : ptr) (f : knot_t → knot_t) :
  store h p f = Some h' ↔ p < length h ∧ h' = alter f p h.
Proof.
  split.
  - intros H. destruct (h !! p) as [k|] eqn:Hk.
    + rewrite (store_alter _ _ _ _ Hk) in H. injection H as <-.
      split; [by eapply lookup_lt_Some|done].
    + unfold store in H. by rewrite Hk in H.
  - intros [Hp ->]. destruct (lookup_lt_is_Some_2 _ _ Hp) as [k Hk].
    by eapply store_alter.
Qed.

Lemma store_lt (h : heap) (p : ptr) (f : knot_t → knot_t) :
  p < length h → store h p f = Some (alter f p h).
Proof. intros Hp. by apply store_Some. Qed.

Lemma is_ring_app_comm (h : heap) (l1 l2 : list ptr) :
  is_ring h (l1 ++ l2) → is_ring h (l2 ++ l1).
Proof.
  revert l2. induction l1 as [|a l1 IH]; intros l2 Hr.
  - by rewrite app_nil_r.
  - destruct (l1 ++ l2) as [|b s] eqn:E.
    + apply app_eq_nil in E as [-> ->]. done.
    + assert (Hrot : is_ring h ((l1 ++ l2) ++ [a])).
      { rewrite E. simpl in Hr. rewrite E in Hr. by apply is_ring_rotate. }
      rewrite <- app_assoc in Hrot. apply IH in Hrot.
      by rewrite <- app_assoc in Hrot.
Qed.

Lemma Forall2_linked_frame (h h' : heap) (xs ys : list ptr) :
  Forall2 (linked h) xs ys →
  (∀ x, x ∈ xs → SUCC <$> h' !! x = SUCC <$> h !! x) →
  (∀ y, y ∈ ys → PRED <$> h' !! y = PRED <$> h !! y) →
  Forall2 (linked h') xs ys.
Proof.
  induction 1 as [|x y xs ys [Hs Hp] HF IH]; intros Hx Hy; constructor.
  - split.
    + rewrite Hx; [done|by left].
    + rewrite Hy; [done|by left].
  - apply IH; intros z Hz; [apply Hx|apply Hy]; by right.
Qed.

(** The four stores of [LINK], read back. *)
Lemma LINK_Some (h : heap) (pr nw sc : ptr) :
  pr < length h → nw < length h → sc < length h →
  LINK h pr nw sc
  = Some (alter (set_succ nw) pr (alter (set_pred nw) sc
            (alter (set_pred pr) nw (alter (set_succ sc) nw h)))).
Proof.
  intros Hpr Hnw Hsc. unfold LINK.
  rewrite store_lt by done. simpl.
  rewrite store_lt by (by rewrite length_alter). simpl.
  rewrite store_lt by (by rewrite !length_alter). simpl.
  by rewrite store_lt by (by rewrite !length_alter).
Qed.

Lemma LINK_inv (h h' : heap) (pr nw sc : ptr) :
  LINK h pr nw sc = Some h' →
  pr < length h ∧ nw < length h ∧ sc < length h.
Proof.
  unfold LINK. intros H.
  apply bind_Some in H as (h1 & [H1 ->]%store_Some & H).
  apply bind_Some in H as (h2 & [H2 ->]%store_Some & H).
  apply bind_Some in H as (h3 & [H3 ->]%store_Some & H).
  apply store_Some in H as [H4 ->].
  rewrite !length_alter in *. done.
Qed.

Section Link.

Variables (h : heap) (pr nw sc : ptr).
Hypothesis Hpr : nw ≠ pr.
Hypothesis Hsc : nw ≠ sc.

Let h' : heap :=
  alter (set_succ nw) pr (alter (set_pred nw) sc
    (alter (set_pred pr) nw (alter (set_succ sc) nw h))).

Lemma LINK_SUCC (a : ptr) :
  SUCC <$> h' !! a
  = (λ k, if decide (a = pr) then nw
          else if decide (a = nw) then sc else SUCC k) <$> h !! a.
Proof using All.
  unfold h'. rewrite !list_lookup_alter.
  repeat case_decide; simplify_eq; by destruct (h !! _).
Qed.

Lemma LINK_PRED (a : ptr) :
  PRED <$> h' !! a
  = (λ k, if decide (a = sc) then nw
          else if decide (a = nw) then pr else PRED k) <$> h !! a.
Proof using All.
  unfold h'. rewrite !list_lookup_alter.
  repeat case_decide; simplify_eq; by destruct (h !! _).
Qed.

Lemma LINK_SUCC_pr : pr < length h → SUCC <$> h' !! pr = Some nw.
Proof using All.
  intros [k Hk]%lookup_lt_is_Some_2. rewrite LINK_SUCC, Hk. simpl.
  by rewrite decide_True.
Qed.

Lemma LINK_SUCC_nw : nw < length h → SUCC <$> h' !! nw = Some sc.
Proof using All.
  intros [k Hk]%lookup_lt_is_Some_2. rewrite LINK_SUCC, Hk. simpl.
  by rewrite decide_False, decide_True.
Qed.

Lemma LINK_SUCC_ne (a : ptr) :
  a ≠ pr → a ≠ nw → SUCC <$> h' !! a = SUCC <$> h !! a.
Proof using All.
  intros. rewrite LINK_SUCC. destruct (h !! a); [|done]. simpl.
  by rewrite !decide_False.
Qed.

Lemma LINK_PRED_sc : sc < length h → PRED <$> h' !! sc = Some nw.
Proof using All.
  intros [k Hk]%lookup_lt_is_Some_2. rewrite LINK_PRED, Hk. simpl.
  by rewrite decide_True.
Qed.

Lemma LINK_PRED_nw : nw < length h → PRED <$> h' !! nw = Some pr.
Proof using All.
  intros [k Hk]%lookup_lt_is_Some_2. rewrite LINK_PRED, Hk. simpl.
  by rewrite decide_False, decide_True.
Qed.

Lemma LINK_PRED_ne (a : ptr) :
  a ≠ sc → a ≠ nw → PRED <$> h' !! a = PRED <$> h !! a.
Proof using All.
  intros. rewrite LINK_PRED. destruct (h !! a); [|done]. simpl.
  by rewrite !decide_False.
Qed.

Lemma LINK_data (a : ptr) : knot_data <$> h' !! a = knot_data <$> h !! a.
Proof using All.
  unfold h'. rewrite !list_lookup_alter.
  repeat case_decide; simplify_eq; by destruct (h !! _).
Qed.

Lemma LINK_other (a : ptr) :
  a ≠ pr → a ≠ nw → a ≠ sc → h' !! a = h !! a.
Proof.
  intros. unfold h'. by rewrite !list_lookup_alter_ne.
Qed.

End Link.

(** [LINK] between the last knot of a ring and its head appends the new
    knot to the ring. *)
Lemma LINK_ring (h : heap) (sc : ptr) (l : list ptr) (pr nw : ptr) :
  is_ring h (sc :: l) → last (sc :: l) = Some pr →
  nw ∉ sc :: l → nw < length h →
  ∃ h', LINK h pr nw sc = Some h' ∧ is_ring h' (sc :: l ++ [nw]) ∧
        length h' = length h ∧
        (∀ a, knot_data <$> h' !! a = knot_data <$> h !! a) ∧
        (∀ a, a ≠ pr → a ≠ nw → a ≠ sc → h' !! a = h !! a).
Proof.
  intros Hr Hlast Hnw Hlt.
  assert (Hprin : pr ∈ sc :: l).
  { apply last_Some in Hlast as [l' Hl']. rewrite Hl'.
    apply elem_of_app. right. by apply list_elem_of_singleton. }
  assert (Hne1 : nw ≠ pr) by (by intros ->).
  assert (Hne2 : nw ≠ sc) by (intros ->; apply Hnw; by left).
  destruct (is_ring_valid _ _ _ Hr Hprin) as [kpr Hkpr].
  destruct (is_ring_valid _ _ sc Hr ltac:(by left)) as [ksc Hksc].
  apply lookup_lt_Some in Hkpr, Hksc.
  eexists. split; [by apply LINK_Some|].
  split; [|split; [by rewrite !length_alter|split]].
  2: { intros a. by apply LINK_data. }
  2: { intros a. by apply LINK_other. }
  destruct Hr as [Hnd HF]. split.
  { change (sc :: l ++ [nw]) with ((sc :: l) ++ [nw]).
    apply NoDup_app. split; [done|]. split; [|apply NoDup_singleton].
    intros x Hx ->%list_elem_of_singleton. done. }
  assert (Hlk1 : linked
            (alter (set_succ nw) pr (alter (set_pred nw) sc
               (alter (set_pred pr) nw (alter (set_succ sc) nw h)))) pr nw).
  { split; [by apply LINK_SUCC_pr|by apply LINK_PRED_nw]. }
  assert (Hlk2 : linked
            (alter (set_succ nw) pr (alter (set_pred nw) sc
               (alter (set_pred pr) nw (alter (set_succ sc) nw h)))) nw sc).
  { split; [by apply LINK_SUCC_nw|by apply LINK_PRED_sc]. }
  destruct (decide (l = [])) as [->|Hl].
  - simpl in Hlast. injection Hlast as <-. simpl.
    constructor; [done|]. constructor; [done|constructor].
  - destruct (exists_last Hl) as (l' & x & ->).
    change (last (sc :: l' ++ [x])) with (last ((sc :: l') ++ [x])) in Hlast.
    rewrite last_snoc in Hlast. injection Hlast as ->.
    change (sc :: l' ++ [pr]) with ((sc :: l') ++ [pr]) in HF.
    apply Forall2_app_inv in HF as [HF HL];
      [|simpl; rewrite length_app; simpl; lia].
    replace (sc :: (l' ++ [pr]) ++ [nw]) with ((sc :: l') ++ [pr; nw])
      by (simpl; by rewrite <- app_assoc).
    replace (((l' ++ [pr]) ++ [nw]) ++ [sc]) with ((l' ++ [pr]) ++ [nw; sc])
      by (by rewrite <- (app_assoc _ [nw] [sc])).
    apply Forall2_app.
    + eapply Forall2_linked_frame; [done| |].
      * intros x Hx. apply LINK_SUCC_ne; [done|done| |].
        2: { intros ->. apply Hnw.
             change (sc :: l' ++ [pr]) with ((sc :: l') ++ [pr]).
             apply elem_of_app. by left. }
        intros ->. change (sc :: l' ++ [pr]) with ((sc :: l') ++ [pr]) in Hnd.
        apply NoDup_app in Hnd as (_ & Hnd & _).
        apply (Hnd _ Hx). by apply list_elem_of_singleton.
      * intros y Hy. apply LINK_PRED_ne; [done|done| |].
        -- intros ->. apply NoDup_cons in Hnd as [Hnd _].
           done.
        -- intros ->. apply Hnw. by right.
    + simpl. constructor; [done|]. constructor; [done|constructor].
Qed.

Lemma is_ring_rotate_at (h : heap) (l : list ptr) (i : nat) :
  is_ring h l → is_ring h (drop i l ++ take i l).
Proof. intros Hr. apply is_ring_app_comm. by rewrite take_drop. Qed.

Lemma is_ring_snoc_head (h : heap) (l : list ptr) (x : ptr) (kx : knot_t) :
  is_ring h (l ++ [x]) → h !! x = Some kx → head (l ++ [x]) = Some (SUCC kx).
Proof.
  intros Hr Hx. destruct (l ++ [x]) as [|p0 t] eqn:E; [done|].
  assert (Hlast : last (p0 :: t) = Some x) by (by rewrite <- E, last_snoc).
  pose proof (is_ring_last _ _ _ _ Hr Hlast) as [Hs _].
  rewrite Hx in Hs. simpl in *. congruence.
Qed.

Lemma is_ring_head_pred (h : heap) (l : list ptr) (x sc : ptr) (ksc : knot_t) :
  is_ring h (sc :: l) → last (sc :: l) = Some x → h !! sc = Some ksc →
  PRED ksc = x.
Proof.
  intros Hr Hlast Hsc.
  pose proof (is_ring_last _ _ _ _ Hr Hlast) as [_ Hp].
  rewrite Hsc in Hp. simpl in Hp. congruence.
Qed.

(** [list_insert_after] in a ring, at any position. *)
Lemma list_insert_after_spec (h : heap) (l : list ptr) (i : nat) (pr nw : ptr) :
  is_ring h l → l !! i = Some pr → nw ∉ l → nw < length h →
  ∃ h', list_insert_after h pr nw = Some h' ∧
        is_ring h' (take (S i) l ++ nw :: drop (S i) l) ∧
        length h' = length h ∧
        (∀ a, knot_data <$> h' !! a = knot_data <$> h !! a) ∧
        (∀ a, a ∉ l → a ≠ nw → h' !! a = h !! a).
Proof.
  intros Hr Hi Hnw Hlt.
  pose proof (is_ring_rotate_at _ _ (S i) Hr) as Hrot.
  rewrite (take_S_r _ _ _ Hi), app_assoc in Hrot.
  destruct (is_ring_valid _ _ pr Hr ltac:(by eapply list_elem_of_lookup_2))
    as [kpr Hkpr].
  pose proof (is_ring_snoc_head _ _ _ _ Hrot Hkpr) as Hhd.
  destruct ((drop (S i) l ++ take i l) ++ [pr]) as [|sc R] eqn:E; [done|].
  injection Hhd as ->.
  assert (Hperm : SUCC kpr :: R ≡ₚ l).
  { rewrite <- E, <- app_assoc, <- (take_S_r _ _ _ Hi).
    by rewrite Permutation_app_comm, take_drop. }
  destruct (LINK_ring h (SUCC kpr) R pr nw Hrot) as (h' & HL & Hr' & Hlen & Hd & Ho).
  { by rewrite <- E, last_snoc. }
  { by rewrite Hperm. }
  { done. }
  exists h'. unfold list_insert_after. rewrite Hkpr. simpl.
  split; [done|]. split; [|split; [done|split; [done|]]].
  - change (SUCC kpr :: R ++ [nw]) with ((SUCC kpr :: R) ++ [nw]) in Hr'.
    rewrite <- E, <- !app_assoc in Hr'. apply is_ring_app_comm in Hr'.
    rewrite <- !app_assoc in Hr'. simpl in Hr'.
    by rewrite (take_S_r _ _ _ Hi), <- app_assoc.
  - intros a Ha Hne. apply Ho; [|done|].
    + intros ->. apply Ha. by eapply list_elem_of_lookup_2.
    + intros ->. apply Ha. rewrite <- Hperm. by left.
Qed.

(** [list_insert_before] in a ring, at any position. *)
Lemma list_insert_before_spec (h : heap) (l : list ptr) (i : nat) (nw sc : ptr) :
  is_ring h l → l !! i = Some sc → nw ∉ l → nw < length h →
  ∃ h', list_insert_before h nw sc = Some h' ∧
        is_ring h' (take i l ++ nw :: drop i l) ∧
        length h' = length h ∧
        (∀ a, knot_data <$> h' !! a = knot_data <$> h !! a) ∧
        (∀ a, a ∉ l → a ≠ nw → h' !! a = h !! a).
Proof.
  intros Hr Hi Hnw Hlt.
  pose proof (is_ring_rotate_at _ _ i Hr) as Hrot.
  rewrite (drop_S _ _ _ Hi) in Hrot. simpl in Hrot.
  destruct (is_ring_valid _ _ sc Hr ltac:(by eapply list_elem_of_lookup_2))
    as [ksc Hksc].
  assert (Hperm : sc :: drop (S i) l ++ take i l ≡ₚ l).
  { transitivity (take i l ++ sc :: drop (S i) l);
      [|by rewrite <- (drop_S _ _ _ Hi), take_drop].
    rewrite <- Permutation_middle. constructor. apply Permutation_app_comm. }
  destruct (last (sc :: drop (S i) l ++ take i l)) as [pr|] eqn:Hlast;
    [|by apply last_None in Hlast].
  pose proof (is_ring_head_pred _ _ _ _ _ Hrot Hlast Hksc) as Hpr.
  destruct (LINK_ring h sc _ pr nw Hrot Hlast) as (h' & HL & Hr' & Hlen & Hd & Ho).
  { by rewrite Hperm. }
  { done. }
  exists h'. unfold list_insert_before. rewrite Hksc. simpl. rewrite Hpr.
  split; [done|]. split; [|split; [done|split; [done|]]].
  - rewrite <- app_assoc in Hr'.
    change (sc :: drop (S i) l ++ take i l ++ [nw])
      with ((sc :: drop (S i) l) ++ take i l ++ [nw]) in Hr'.
    rewrite <- (drop_S _ _ _ Hi) in Hr'. apply is_ring_app_comm in Hr'.
    by rewrite <- app_assoc in Hr'.
  - intros a Ha Hne. apply Ho; [|done|].
    + intros ->. apply Ha. rewrite <- Hperm. apply last_Some in Hlast as [l' ->].
      apply elem_of_app. right. by apply list_elem_of_singleton.
    + intros ->. apply Ha. by eapply list_elem_of_lookup_2.
Qed.

Lemma unlink_SUCC (h : heap) (pr sc a : ptr) :
  SUCC <$> alter (set_pred pr) sc (alter (set_succ sc) pr h) !! a
  = (λ k, if decide (a = pr) then sc else SUCC k) <$> h !! a.
Proof.
  rewrite !list_lookup_alter.
  repeat case_decide; simplify_eq; by destruct (h !! _).
Qed.

Lemma unlink_PRED (h : heap) (pr sc a : ptr) :
  PRED <$> alter (set_pred pr) sc (alter (set_succ sc) pr h) !! a
  = (λ k, if decide (a = sc) then pr else PRED k) <$> h !! a.
Proof.
  rewrite !list_lookup_alter.
  repeat case_decide; simplify_eq; by destruct (h !! _).
Qed.

Lemma unlink_data (h : heap) (pr sc a : ptr) :
  knot_data <$> alter (set_pred pr) sc (alter (set_succ sc) pr h) !! a
  = knot_data <$> h !! a.
Proof.
  rewrite !list_lookup_alter.
  repeat case_decide; simplify_eq; by destruct (h !! _).
Qed.

(** Removing the last knot of a ring of at least two knots. *)
Lemma list_remove_node_last (h : heap) (p0 : ptr) (t : list ptr) (x : ptr) :
  is_ring h ((p0 :: t) ++ [x]) →
  ∃ h', list_remove_node h x = Some h' ∧ is_ring h' (p0 :: t) ∧
        length h' = length h ∧
        (∀ a, knot_data <$> h' !! a = knot_data <$> h !! a) ∧
        (∀ a, a ∉ p0 :: t → h' !! a = h !! a).
Proof.
  intros Hr.
  assert (Hx : x ∈ (p0 :: t) ++ [x])
    by (apply elem_of_app; right; by apply list_elem_of_singleton).
  destruct (is_ring_valid _ _ _ Hr Hx) as [kx Hkx].
  pose proof (is_ring_snoc_head _ _ _ _ Hr Hkx) as Hhd.
  simpl in Hhd. injection Hhd as Hsc.
  destruct (last (p0 :: t)) as [pr|] eqn:Hlast; [|by apply last_None in Hlast].
  destruct Hr as [Hnd HF].
  assert (HF' : Forall2 (linked h) (p0 :: t) (t ++ [x]) ∧ linked h x p0).
  { simpl in HF.
    change (p0 :: t ++ [x]) with ((p0 :: t) ++ [x]) in HF.
    apply Forall2_app_inv in HF as [HF HL];
      [|simpl; rewrite length_app; simpl; lia].
    split; [done|]. by apply Forall2_cons_1 in HL as [HL _]. }
  destruct HF' as [HF1 HL].
  assert (HLpr : linked h pr x).
  { rewrite last_lookup in Hlast.
    eapply (Forall2_lookup_lr _ _ _ (Nat.pred (length (p0 :: t)))); [done|done|].
    simpl. by rewrite lookup_app_r, Nat.sub_diag by done. }
  assert (Hprx : PRED kx = pr).
  { destruct HLpr as [_ Hp]. rewrite Hkx in Hp. simpl in Hp. congruence. }
  assert (Hprin : pr ∈ p0 :: t).
  { apply last_Some in Hlast as [l' ->]. apply elem_of_app. right.
    by apply list_elem_of_singleton. }
  apply NoDup_app in Hnd as (Hnd & Hdisj & _).
  apply linked_inv in HLpr as (kpr & _ & Hkpr & _ & _ & _).
  apply linked_inv in HL as (_ & kp0 & _ & Hkp0 & _ & _).
  exists (alter (set_pred pr) p0 (alter (set_succ p0) pr h)).
  split.
  { unfold list_remove_node. rewrite Hkx. simpl. rewrite Hprx, <- Hsc.
    rewrite store_lt by (by eapply lookup_lt_Some). simpl.
    by rewrite store_lt by (rewrite length_alter; by eapply lookup_lt_Some). }
  split; [|split; [by rewrite !length_alter|split]].
  2: { intros a. apply unlink_data. }
  2: { intros a Ha. rewrite !list_lookup_alter_ne; [done| |];
         intros ->; apply Ha; [done|by left]. }
  split; [done|].
  destruct (decide (t = [])) as [->|Ht].
  - simpl in *. injection Hlast as <-. constructor; [|constructor].
    split.
    + rewrite unlink_SUCC, Hkp0. simpl. by rewrite decide_True.
    + rewrite unlink_PRED, Hkp0. simpl. by rewrite decide_True.
  - destruct (exists_last Ht) as (t' & y & ->).
    change (last (p0 :: t' ++ [y])) with (last ((p0 :: t') ++ [y])) in Hlast.
    rewrite last_snoc in Hlast. injection Hlast as ->.
    change (p0 :: t' ++ [pr]) with ((p0 :: t') ++ [pr]) in *.
    apply Forall2_app_inv in HF1 as [HF1 _];
      [|simpl; rewrite length_app; simpl; lia].
    apply Forall2_app.
    + eapply Forall2_linked_frame; [done| |].
      * intros a Ha. rewrite unlink_SUCC. destruct (h !! a); [|done]. simpl.
        rewrite decide_False; [done|]. intros ->.
        apply NoDup_app in Hnd as (_ & Hnd & _).
        apply (Hnd _ Ha). by apply list_elem_of_singleton.
      * intros a Ha. rewrite unlink_PRED. destruct (h !! a); [|done]. simpl.
        rewrite decide_False; [done|]. intros ->.
        simpl in Hnd. apply NoDup_cons in Hnd as [Hnd _]. done.
    + constructor; [|constructor]. split.
      * rewrite unlink_SUCC, Hkpr. simpl. by rewrite decide_True.
      * rewrite unlink_PRED, Hkp0. simpl. by rewrite decide_True.
Qed.

(** [list_remove_node] in a ring of at least two knots, at any position. *)
Lemma list_remove_node_spec (h : heap) (l : list ptr) (i : nat) (x : ptr) :
  is_ring h l → l !! i = Some x → 2 ≤ length l →
  ∃ h', list_remove_node h x = Some h' ∧ is_ring h' (delete i l) ∧
        length h' = length h ∧
        (∀ a, knot_data <$> h' !! a = knot_data <$> h !! a) ∧
        (∀ a, a ∉ delete i l → h' !! a = h !! a).
Proof.
  intros Hr Hi Hlen.
  pose proof (is_ring_rotate_at _ _ (S i) Hr) as Hrot.
  rewrite (take_S_r _ _ _ Hi), app_assoc in Hrot.
  destruct (drop (S i) l ++ take i l) as [|p0 t] eqn:E.
  { apply (f_equal length) in E. rewrite length_app, length_drop, length_take in E.
    apply lookup_lt_Some in Hi. simpl in E. lia. }
  destruct (list_remove_node_last _ _ _ _ Hrot) as (h' & Hrm & Hr' & Hl' & Hd & Ho).
  assert (Hperm : p0 :: t ≡ₚ delete i l).
  { rewrite <- E, delete_take_drop. apply Permutation_app_comm. }
  exists h'. split; [done|]. split; [|split; [done|split; [done|]]].
  - rewrite <- E in Hr'. apply is_ring_app_comm in Hr'.
    by rewrite delete_take_drop.
  - intros a Ha. apply Ho. by rewrite Hperm.
Qed.

Lemma set_node_id (k : knot_t) : set_node (Node (SUCC k) (PRED k)) k = k.
Proof. by destruct k as [[] ? ? ? ? ? ?]. Qed.

Lemma list_insert_remove_heap (h : heap) (pr sc nw : ptr) :
  linked h pr sc → nw ≠ pr → nw ≠ sc → nw < length h →
  ∃ h1, list_insert_after h pr nw = Some h1 ∧
        list_remove_node h1 nw
        = Some (alter (set_node (Node sc pr)) nw h).
Proof.
  intros HL Hpr Hsc Hlt.
  apply linked_inv in HL as (kpr & ksc & Hkpr & Hksc & Hs & Hp).
  pose proof (lookup_lt_Some _ _ _ Hkpr) as Hlpr.
  pose proof (lookup_lt_Some _ _ _ Hksc) as Hlsc.
  destruct (lookup_lt_is_Some_2 _ _ Hlt) as [knw Hknw].
  eexists. split.
  { unfold list_insert_after. rewrite Hkpr. simpl. rewrite Hs.
    by apply LINK_Some. }
  unfold list_remove_node.
  rewrite !list_lookup_alter_ne by done.
  rewrite !list_lookup_alter_eq, Hknw.
  cbn [fmap option_fmap option_map mbind option_bind].
  replace (PRED (set_pred pr (set_succ sc knw))) with pr by done.
  replace (SUCC (set_pred pr (set_succ sc knw))) with sc by done.
  rewrite store_lt by (by rewrite !length_alter). simpl.
  rewrite store_lt by (by rewrite !length_alter). f_equal.
  apply list_eq. intros a. rewrite !list_lookup_alter.
  revert Hs Hp. repeat case_decide; subst; intros Hs Hp; try done;
    rewrite ?Hkpr, ?Hksc, ?Hknw; simpl; f_equal.
  all: try assert (kpr = ksc) as -> by congruence.
  all: try destruct kpr as [[] ? ? ? ? ? ?].
  all: try destruct ksc as [[] ? ? ? ? ? ?].
  all: try destruct knw as [[] ? ? ? ? ? ?].
  all: unfold set_pred, set_succ, set_node, SUCC, PRED in *; simpl in *.
  all: congruence.
Qed.

(** ** Path construction *)

Lemma linked_app (h h2 : heap) (p q : ptr) :
  linked h p q → linked (h ++ h2) p q.
Proof.
  intros (kp & kq & Hp & Hq & Hs & Hpr)%linked_inv. unfold linked.
  rewrite (lookup_app_l_Some _ _ _ _ Hp), (lookup_app_l_Some _ _ _ _ Hq).
  simpl. by rewrite Hs, Hpr.
Qed.

Lemma is_ring_app (h h2 : heap) (l : list ptr) :
  is_ring h l → is_ring (h ++ h2) l.
Proof.
  destruct l as [|p0 t]; [done|]. intros [Hnd HF]. split; [done|].
  eapply Forall2_impl; [done|]. intros p q. apply linked_app.
Qed.

Lemma is_ring_nodes (h h' : heap) (l : list ptr) :
  (∀ a, a ∈ l → list_node <$> h' !! a = list_node <$> h !! a) →
  is_ring h l → is_ring h' l.
Proof.
  intros Hn Hr. destruct l as [|p0 t]; [done|]. destruct Hr as [Hnd HF].
  split; [done|].
  eapply Forall2_linked_frame; [done| |]; intros a Ha.
  - assert (Hin : a ∈ p0 :: t) by done.
    specialize (Hn a Hin). destruct (h' !! a), (h !! a); simpl in *; try done.
    unfold SUCC. congruence.
  - assert (Hin : a ∈ p0 :: t).
    { apply elem_of_app in Ha as [Ha|Ha%list_elem_of_singleton];
        [by right|subst; by left]. }
    specialize (Hn a Hin). destruct (h' !! a), (h !! a); simpl in *; try done.
    unfold PRED. congruence.
Qed.

Lemma is_ring_lt (h : heap) (l : list ptr) (a : ptr) :
  is_ring h l → a ∈ l → a < length h.
Proof.
  intros Hr Ha. destruct (is_ring_valid _ _ _ Hr Ha) as [k Hk].
  by eapply lookup_lt_Some.
Qed.

Section Append.

Variables (h : heap) (l : list ptr) (p r : ptr).
Variables (x y : float) (c1 c2 : knot_info).
Hypothesis Hpath : open_path h l.
Hypothesis Hhd : head l = Some p.
Hypothesis Hlast : last l = Some r.












End Append.

Section Builders.

Variables (h : heap) (p : ptr) (kp kr : knot_t).
Hypothesis Hkp : h !! p = Some kp.
Hypothesis Hkr : h !! PRED kp = Some kr.








End Builders.

Lemma open_path_head_pred (h : heap) (l : list ptr) (p r : ptr) (kp : knot_t) :
  open_path h l → head l = Some p → last l = Some r → h !! p = Some kp →
  PRED kp = r.
Proof.
  intros [Hr _] Hhd Hlast Hkp. destruct l as [|p0 t]; [done|].
  injection Hhd as ->. by eapply is_ring_head_pred.
Qed.











(** X6: [pathclose] on a path of at least two knots joins its last knot
    [r] to its head [p] by a straight segment, with control points at
    0.3 and 0.7 of the chord: it makes the right side of [r] and the
    left side of [p] explicit and stores nothing else, so that the ring
    is closed, every side explicit.  On a path of a single knot it
    stores nothing. *)
Theorem pathclose_closes (h : heap) (l : list ptr) (p r : ptr)
    (kp kr : knot_t) :
  open_path h l → head l = Some p → last l = Some r →
  h !! p = Some kp → h !! r = Some kr →
  let c1 := Info (k_x kr + c0_3 * (k_x kp - k_x kr))
                 (k_y kr + c0_3 * (k_y kp - k_y kr))%float in
  let c2 := Info (k_x kr + c0_7 * (k_x kp - k_x kr))
                 (k_y kr + c0_7 * (k_y kp - k_y kr))%float in
  ∃ h', pathclose h p = Some (h', p) ∧
    (length l = 1 → h' = h) ∧
    (2 ≤ length l →
       h' = alter (set_left_info c2) p (alter (set_left_type kt_explicit) p
              (alter (set_right_info c1) r
                 (alter (set_right_type kt_explicit) r h))) ∧
       closed_path h' l).
Proof.
  intros Hop Hhd Hlast Hkp Hkr c1 c2.
  pose proof (open_path_head_pred _ _ _ _ _ Hop Hhd Hlast Hkp) as Hpr.
  pose proof (lookup_lt_Some _ _ _ Hkp) as Hp.
  pose proof (lookup_lt_Some _ _ _ Hkr) as Hr.
  destruct Hop as [Hring Hst].
  unfold pathclose. rewrite Hkp. simpl. rewrite Hpr.
  destruct (decide (r = p)) as [->|Hne].
  - eexists. split; [done|]. split; [done|]. intros Hlen. exfalso.
    destruct l as [|a [|b t]]; simpl in *; try lia.
    injection Hhd as ->. destruct Hring as [Hnd _].
    apply NoDup_cons in Hnd as [Hnd _]. apply Hnd.
    change (last (p :: b :: t)) with (last (b :: t)) in Hlast.
    apply last_Some in Hlast as [l' ->]. apply elem_of_app. right.
    by apply list_elem_of_singleton.
  - rewrite Hkr. simpl.
    rewrite store_lt by done. simpl.
    rewrite store_lt by (by rewrite !length_alter). simpl.
    rewrite store_lt by (by rewrite !length_alter). simpl.
    rewrite store_lt by (by rewrite !length_alter).
    eexists. split; [done|]. split.
    { intros Hlen. destruct l as [|a [|b t]]; simpl in *; try lia.
      congruence. }
    intros Hlen. split; [done|]. split.
    + eapply is_ring_nodes; [|done]. intros a _.
      rewrite !list_lookup_alter.
      repeat case_decide; subst; rewrite ?Hkp, ?Hkr; done.
    + apply Forall_forall. intros a [i Hi]%list_elem_of_lookup.
      destruct (Hst i a Hi) as [HL HR]. simpl in HL, HR.
      destruct (h !! a) as [k|] eqn:Hk; [|done]. simpl in HL, HR.
      injection HL as HL. injection HR as HR.
      rewrite !list_lookup_alter.
      assert (Hi0 : i = 0 ↔ a = p).
      { split; [intros ->; destruct l; simpl in *; congruence|].
        intros ->. assert (Hnd : NoDup l) by (destruct l; [done|apply Hring]).
        eapply NoDup_lookup; [done|done|]. by destruct l. }
      assert (Hil : S i = length l ↔ a = r).
      { rewrite last_lookup in Hlast. split.
        - intros Heq. replace (Nat.pred (length l)) with i in Hlast by lia.
          congruence.
        - intros ->. assert (i = Nat.pred (length l)); [|lia].
          assert (Hnd : NoDup l) by (destruct l; [done|apply Hring]).
          eapply NoDup_lookup; [done|done|done]. }
      repeat case_decide; subst; rewrite ?Hk; simpl; split; f_equal;
        try done.
      all: rewrite ?HL, ?HR; repeat case_decide; try done; exfalso.
      all: intuition (congruence || lia).
Qed.

Lemma pathclose_closes_witness :
  ∃ h', pathclose open_square 0 = Some (h', 0) ∧ closed_path h' [0; 1; 2; 3].
Proof.
  destruct (pathclose_closes open_square [0; 1; 2; 3] 0 3 _ _
              ltac:(by_compute) eq_refl eq_refl eq_refl eq_refl)
    as (h' & Hrun & _ & Hcl).
  exists h'. split; [exact Hrun|]. apply Hcl. simpl. lia.
Defined.

(** ** The intrusive list on rings *)

(** X7: [list_insert_after] links a knot that is not in the ring behind
    the knot [pr] of the ring: the ring has the new knot right after
    [pr], no payload changes, and knots outside the ring other than the
    new one are untouched. *)
Theorem list_insert_after_ring (h : heap) (l : list ptr) (i : nat)
    (pr nw : ptr) :
  is_ring h l → l !! i = Some pr → nw ∉ l → nw < length h →
  ∃ h', list_insert_after h pr nw = Some h' ∧
        is_ring h' (take (S i) l ++ nw :: drop (S i) l) ∧
        length h' = length h ∧
        (∀ a, knot_data <$> h' !! a = knot_data <$> h !! a) ∧
        (∀ a, a ∉ l → a ≠ nw → h' !! a = h !! a).
Proof. apply list_insert_after_spec. Qed.

Lemma list_insert_after_ring_witness :
  ∃ h', list_insert_after (square_pen ++ [zero_knot]) 1 4 = Some h' ∧
        is_ring h' [0; 1; 4; 2; 3].
Proof.
  destruct (list_insert_after_ring (square_pen ++ [zero_knot]) [0; 1; 2; 3]
              1 1 4 ltac:(by_compute) eq_refl ltac:(by_compute)
              ltac:(simpl; lia)) as (h' & Hrun & Hr & _).
  exists h'. split; [exact Hrun|exact Hr].
Defined.

(** X8: [list_insert_before] links a knot that is not in the ring in
    front of the knot [sc] of the ring. *)
Theorem list_insert_before_ring (h : heap) (l : list ptr) (i : nat)
    (nw sc : ptr) :
  is_ring h l → l !! i = Some sc → nw ∉ l → nw < length h →
  ∃ h', list_insert_before h nw sc = Some h' ∧
        is_ring h' (take i l ++ nw :: drop i l) ∧
        length h' = length h ∧
        (∀ a, knot_data <$> h' !! a = knot_data <$> h !! a) ∧
        (∀ a, a ∉ l → a ≠ nw → h' !! a = h !! a).
Proof. apply list_insert_before_spec. Qed.

Lemma list_insert_before_ring_witness :
  ∃ h', list_insert_before (square_pen ++ [zero_knot]) 4 1 = Some h' ∧
        is_ring h' [0; 4; 1; 2; 3].
Proof.
  destruct (list_insert_before_ring (square_pen ++ [zero_knot]) [0; 1; 2; 3]
              1 4 1 ltac:(by_compute) eq_refl ltac:(by_compute)
              ltac:(simpl; lia)) as (h' & Hrun & Hr & _).
  exists h'. split; [exact Hrun|exact Hr].
Defined.

(** X9: [list_remove_node] takes a knot out of a ring of at least two
    knots: the others form a ring in the same order, no payload changes,
    and only the two neighbours are written (so the removed knot keeps
    its own, now stale, links). *)
Theorem list_remove_node_ring (h : heap) (l : list ptr) (i : nat) (x : ptr) :
  is_ring h l → l !! i = Some x → 2 ≤ length l →
  ∃ h', list_remove_node h x = Some h' ∧ is_ring h' (delete i l) ∧
        length h' = length h ∧
        (∀ a, knot_data <$> h' !! a = knot_data <$> h !! a) ∧
        (∀ a, a ∉ delete i l → h' !! a = h !! a).
Proof. apply list_remove_node_spec. Qed.

Lemma list_remove_node_ring_witness :
  ∃ h', list_remove_node square_pen 1 = Some h' ∧ is_ring h' [0; 2; 3] ∧
        h' !! 1 = square_pen !! 1.
Proof.
  destruct (list_remove_node_ring square_pen [0; 1; 2; 3] 1 1
              ltac:(by_compute) eq_refl ltac:(simpl; lia))
    as (h' & Hrun & Hr & _ & _ & Ho).
  exists h'. split; [exact Hrun|]. split; [exact Hr|].
  apply Ho. by_compute.
Defined.

(** X10: inserting a knot behind [pr] and removing it again restores the
    heap, except that the knot keeps the links the insertion gave it. *)
Theorem list_insert_remove (h : heap) (pr sc nw : ptr) :
  linked h pr sc → nw ≠ pr → nw ≠ sc → nw < length h →
  ∃ h1, list_insert_after h pr nw = Some h1 ∧
        list_remove_node h1 nw = Some (alter (set_node (Node sc pr)) nw h).
Proof. apply list_insert_remove_heap. Qed.

Lemma list_insert_remove_witness :
  ∃ h1, list_insert_after (square_pen ++ [zero_knot]) 1 4 = Some h1 ∧
        list_remove_node h1 4
        = Some (square_pen ++ [set_node (Node 2 1) zero_knot]).
Proof.
  destruct (list_insert_remove (square_pen ++ [zero_knot]) 1 2 4
              ltac:(by_compute) ltac:(lia) ltac:(lia) ltac:(simpl; lia))
    as (h1 & Hins & Hrm).
  exists h1. split; [exact Hins|exact Hrm].
Defined.

(** ** The knot pool: [knots_split] and [knots_ring_clone] *)

Lemma data_lookup (h h' : heap) (a : ptr) (k : knot_t) :
  knot_data <$> h' !! a = knot_data <$> h !! a → h !! a = Some k →
  ∃ k', h' !! a = Some k' ∧ knot_data k' = knot_data k.
Proof.
  intros Hd Hk. rewrite Hk in Hd. destruct (h' !! a) as [k'|]; [|done].
  exists k'. split; [done|]. simpl in Hd. congruence.
Qed.





Section Clone.

Variables (h0 : heap) (knots : ptr) (t : list ptr).
Hypothesis Hring : is_ring h0 (knots :: t).

Let l := knots :: t.





End Clone.




(** ** Subdivision: [cubic_split] *)

Lemma proj_alter {B} (g : knot_t → B) (f : knot_t → knot_t) (h : heap)
    (i a : ptr) :
  (∀ k, g (f k) = g k) → g <$> alter f i h !! a = g <$> h !! a.
Proof.
  intros Hf. rewrite list_lookup_alter. case_decide as Hia; [|done].
  subst. destruct (h !! a); [|done]. simpl. by rewrite Hf.
Qed.

Ltac strip_alter :=
  repeat first [rewrite list_lookup_alter_ne by (done || lia)
               |rewrite proj_alter by done].

Lemma cubic_split_spec (h : heap) (l : list ptr) (i : nat) (p : ptr)
    (kp kq : knot_t) (t : float) :
  is_ring h l → l !! i = Some p → h !! p = Some kp → h !! SUCC kp = Some kq →
  let '(u0, v0, w0, v1, u2) :=
    casteljau t (k_x kp) (e_x (right_info kp)) (e_x (left_info kq)) (k_x kq) in
  let '(a0, b0, c0, b1, a2) :=
    casteljau t (k_y kp) (e_y (right_info kp)) (e_y (left_info kq)) (k_y kq) in
  ∃ h', cubic_split h p t = Some (h', length h) ∧
    length h' = S (length h) ∧
    is_ring h' (take (S i) l ++ length h :: drop (S i) l) ∧
    knot_data <$> h' !! length h
    = Some (w0, c0, Info v0 b0, Info v1 b1, kt_explicit, kt_explicit) ∧
    right_info <$> h' !! p = Some (Info u0 a0) ∧
    left_info <$> h' !! SUCC kp = Some (Info u2 a2) ∧
    (∀ a, a < length h → knot_fixed <$> h' !! a = knot_fixed <$> h !! a) ∧
    (∀ a, a < length h → a ≠ p →
          right_info <$> h' !! a = right_info <$> h !! a) ∧
    (∀ a, a < length h → a ≠ SUCC kp →
          left_info <$> h' !! a = left_info <$> h !! a) ∧
    (∀ a, a ∉ l → a < length h → h' !! a = h !! a).
Proof.
  intros Hr Hi Hkp Hkq. unfold casteljau.
  set (q := SUCC kp) in *.
  pose proof (lookup_lt_Some _ _ _ Hkp) as Hp.
  pose proof (lookup_lt_Some _ _ _ Hkq) as Hq.
  assert (Hfresh : length h ∉ l).
  { intros Hin. pose proof (is_ring_lt _ _ _ Hr Hin). lia. }
  destruct (list_insert_after_spec (h ++ [zero_knot]) l i p (length h)
              (is_ring_app _ _ _ Hr) Hi Hfresh)
    as (h2 & Hins & Hr2 & Hlen2 & Hd2 & Ho2).
  { rewrite length_app. simpl. lia. }
  rewrite length_app in Hlen2. simpl in Hlen2.
  set (r := length h) in *.
  eexists. split.
  { unfold cubic_split. rewrite Hkp. simpl. fold q. rewrite Hkq. simpl.
    unfold knots_get. fold r. rewrite Hins. simpl.
    rewrite store_lt by (unfold r; lia). simpl.
    rewrite store_lt by (rewrite !length_alter; unfold r; lia). simpl.
    rewrite store_lt by (rewrite !length_alter; unfold r; lia). simpl.
    rewrite store_lt by (rewrite !length_alter; unfold r; lia). simpl.
    rewrite store_lt by (rewrite !length_alter; unfold r; lia). simpl.
    rewrite store_lt by (rewrite !length_alter; unfold r; lia). simpl.
    rewrite store_lt by (rewrite !length_alter; unfold r; lia). simpl.
    reflexivity. }
  assert (Hrp : r ≠ p) by (unfold r; lia).
  assert (Hrq : r ≠ q) by (unfold r; lia).
  destruct (data_lookup _ _ r zero_knot (Hd2 _)
              (list_lookup_middle _ _ _ _ eq_refl)) as (kn & Hkn & _).
  split; [rewrite !length_alter; lia|].
  split.
  { eapply is_ring_nodes; [|done]. intros a _. by rewrite !list_node_alter. }
  split.
  { rewrite !list_lookup_alter_eq.
    rewrite list_lookup_alter_ne by done. rewrite !list_lookup_alter_eq.
    rewrite list_lookup_alter_ne by done. rewrite !list_lookup_alter_eq.
    by rewrite Hkn. }
  assert (Hold : ∀ a, a < length h → knot_data <$> h2 !! a = knot_data <$> h !! a).
  { intros a Ha. rewrite Hd2. by rewrite lookup_app_l. }
  assert (Hkp2 : is_Some (h2 !! p)).
  { pose proof (Hold p Hp) as Hpd. rewrite Hkp in Hpd.
    by destruct (h2 !! p). }
  assert (Hkq2 : is_Some (h2 !! q)).
  { pose proof (Hold q Hq) as Hqd. rewrite Hkq in Hqd.
    by destruct (h2 !! q). }
  split.
  { repeat first [rewrite list_lookup_alter_ne by done
                 |rewrite proj_alter by done
                 |rewrite list_lookup_alter_eq].
    destruct Hkp2 as [k ->]. done. }
  split.
  { rewrite !(list_lookup_alter_ne _ _ r) by done.
    rewrite list_lookup_alter_eq.
    rewrite !(list_lookup_alter_ne _ _ r) by done.
    rewrite list_lookup_alter.
    rewrite !(list_lookup_alter_ne _ _ r) by done.
    destruct Hkq2 as [k Hk]. case_decide; subst; rewrite Hk; done. }
  assert (Hproj : ∀ {B} (g : knot_t → B) a,
            (∀ k k', knot_data k = knot_data k' → g k = g k') →
            a < length h → g <$> h2 !! a = g <$> h !! a).
  { intros B g a Hg Ha. specialize (Hold a Ha).
    destruct (h2 !! a) as [k2|], (h !! a) as [k|]; simpl in *; try done.
    f_equal. apply Hg. congruence. }
  split.
  { intros a Ha. unfold r. strip_alter.
    apply Hproj; [|done]. unfold knot_data, knot_fixed. congruence. }
  split.
  { intros a Ha Hap. unfold r. strip_alter.
    apply Hproj; [|done]. unfold knot_data. congruence. }
  split.
  { intros a Ha Hap. unfold r. strip_alter.
    apply Hproj; [|done]. unfold knot_data. congruence. }
  intros a Ha Hlt.
  assert (a ≠ p) by (intros ->; apply Ha; by eapply list_elem_of_lookup_2).
  assert (a ≠ q).
  { intros ->. apply Ha. destruct l as [|p0 t0]; [done|].
    pose proof (is_ring_succ _ _ _ _ _ _ Hr Hi Hkp) as Hs.
    apply list_elem_of_lookup_2 in Hs.
    apply elem_of_app in Hs as [Hs|Hs%list_elem_of_singleton];
      [by right|subst; by left]. }
  rewrite !list_lookup_alter_ne by (done || unfold r; lia).
  rewrite Ho2 by (done || unfold r; lia). by rewrite lookup_app_l.
Qed.



(** ** Subdivision: [split_at_tees] *)

Lemma grown_refl (h : heap) (l : list ptr) : is_ring h l → grown h h l l.
Proof.
  intros Hr. split; [done|]. split; [done|]. split; [done|].
  split; [done|]. split; [by rewrite Nat.sub_diag, app_nil_r|].
  split; [done|]. split; [done|]. intros a Ha. lia.
Qed.

Lemma grown_trans (h h1 h2 : heap) (l l1 l2 : list ptr) :
  is_ring h l → grown h h1 l l1 → grown h1 h2 l1 l2 → grown h h2 l l2.
Proof.
  intros Hr (Hlen1 & Hr1 & Hhd1 & Hsub1 & Hp1 & Hfix1 & Hout1 & Hnew1)
         (Hlen2 & Hr2 & Hhd2 & Hsub2 & Hp2 & Hfix2 & Hout2 & Hnew2).
  split; [lia|]. split; [done|]. split; [congruence|].
  split; [by etrans|]. split.
  { rewrite Hp2, Hp1, <- app_assoc. f_equiv.
    replace (length h2 - length h)
      with ((length h1 - length h) + (length h2 - length h1)) by lia.
    rewrite seq_app. by replace (length h + (length h1 - length h))
                          with (length h1) by lia. }
  split.
  { intros a Ha. rewrite Hfix2 by lia. by apply Hfix1. }
  split.
  { intros a Ha Hlt. rewrite Hout2; [by apply Hout1| |lia].
    rewrite Hp1. intros [Hin|Hin]%elem_of_app; [done|].
    apply elem_of_seq in Hin. lia. }
  intros a Ha. destruct (decide (a < length h1)) as [Ha1|Ha1].
  - destruct (Hnew1 a ltac:(lia)) as [HL HR].
    specialize (Hfix2 a Ha1).
    destruct (h2 !! a) as [k2|], (h1 !! a) as [k1|]; simpl in *; try done.
    unfold knot_fixed in Hfix2. split; congruence.
  - apply Hnew2. lia.
Qed.

Lemma cubic_split_grown (h h' : heap) (l : list ptr) (p r : ptr) (t : float) :
  is_ring h l → p ∈ l → cubic_split h p t = Some (h', r) →
  ∃ l', grown h h' l l' ∧ r ∈ l'.
Proof.
  intros Hr [i Hi]%list_elem_of_lookup Hrun.
  destruct (is_ring_valid _ _ p Hr ltac:(by eapply list_elem_of_lookup_2))
    as [kp Hkp].
  assert (Hq : is_Some (h !! SUCC kp)).
  { destruct (is_ring_lookup _ _ p Hr ltac:(by eapply list_elem_of_lookup_2))
      as (q & _ & (kp' & kq & Hkp' & Hkq & <- & _)%linked_inv).
    assert (kp' = kp) as -> by congruence. by eexists. }
  destruct Hq as [kq Hkq].
  pose proof (cubic_split_spec h l i p kp kq t Hr Hi Hkp Hkq) as H.
  unfold casteljau in H. cbv zeta in H.
  destruct H as (h'' & Hrun' & Hlen & Hr' & Hn & _ & _ & Hfix & _ & _ & Ho).
  rewrite Hrun' in Hrun. injection Hrun as <- <-.
  exists (take (S i) l ++ length h :: drop (S i) l). split.
  - split; [lia|]. split; [done|]. split.
    { destruct l as [|p0 t0]; [done|]. done. }
    split.
    { rewrite <- (take_drop (S i) l) at 1.
      apply sublist_app; [done|]. by apply sublist_cons. }
    split.
    { rewrite Hlen. replace (S (length h) - length h) with 1 by lia. simpl.
      rewrite <- Permutation_middle, <- Permutation_cons_append.
      by rewrite take_drop. }
    split; [done|]. split; [done|].
    intros a Ha. assert (a = length h) as -> by lia.
    destruct (h'' !! length h) as [k|]; [|done]. simpl in *.
    injection Hn as _ _ _ _ -> ->. done.
  - apply elem_of_app. right. by left.
Qed.

Lemma split_loop_grown (t : tees) (l : list ptr) :
  ∀ (fuel : nat) (h : heap) (p : ptr) (s : float) (i : nat)
    (h' : heap) (p' : ptr),
  is_ring h l → p ∈ l → split_loop fuel t h p s i = Some (h', p') →
  ∃ l', grown h h' l l' ∧ p' ∈ l'.
Proof.
  intros fuel. revert l.
  induction fuel as [|fuel IH]; intros l h p s i h' p' Hr Hp Hrun; [done|].
  simpl in Hrun. case_decide.
  2: { injection Hrun as <- <-. exists l. split; [by apply grown_refl|done]. }
  destruct (tee_stack t !! i) as [x|]; [|done]. simpl in Hrun.
  destruct (negb (s =? x)%float).
  - destruct (cubic_split h p _) as [[h1 p1]|] eqn:Hsplit; [|done].
    simpl in Hrun.
    destruct (cubic_split_grown _ _ _ _ _ _ Hr Hp Hsplit) as (l1 & Hg1 & Hp1).
    destruct (IH l1 h1 p1 x (S i) h' p' ltac:(apply Hg1) Hp1 Hrun)
      as (l' & Hg & Hp').
    exists l'. split; [|done]. by eapply grown_trans.
  - by eapply IH.
Qed.

Section SplitGrown.

Variable hypot : float → float → float.

Local Arguments filter_tees : simpl never.
Local Arguments sort_tees : simpl never.
Local Arguments split_loop : simpl never.
Local Arguments inflection_tees : simpl never.
Local Arguments pen_tees : simpl never.

Lemma split_at_tees_loop_grown (knots brush : ptr) :
  ∀ (fuel : nat) (l : list ptr) (h : heap) (t : tees) (p : ptr)
    (h' : heap) (t' : tees),
  is_ring h l → p ∈ l →
  split_at_tees_loop hypot fuel knots brush h t p = Some (h', t') →
  ∃ l', grown h h' l l'.
Proof.
  induction fuel as [|fuel IH]; intros l h t p h' t' Hr Hp Hrun; [done|].
  simpl in Hrun.
  destruct (inflection_tees _ _ _ _) as [ta|]; [|done]. simpl in Hrun.
  destruct (pen_tees _ _ _ _) as [tb|]; [|done]. simpl in Hrun.
  destruct (filter_tees _ _ _) as [tc|]; [|done]. simpl in Hrun.
  destruct (if decide (1 < tee_top tc) then _ else _) as [td|]; [|done].
  simpl in Hrun.
  destruct (split_loop _ _ _ _ _ _) as [[h1 p1]|] eqn:Hsplit; [|done].
  simpl in Hrun.
  destruct (split_loop_grown _ _ _ _ _ _ _ _ _ Hr Hp Hsplit)
    as (l1 & Hg1 & Hp1).
  pose proof Hg1 as (_ & Hr1 & _).
  destruct (h1 !! p1) as [kp|] eqn:Hkp; [|done]. simpl in Hrun.
  case_decide.
  { injection Hrun as <- <-. by exists l1. }
  destruct (h1 !! SUCC kp) as [kq|]; [|done]. simpl in Hrun.
  case_decide.
  { injection Hrun as <- <-. by exists l1. }
  assert (Hq : SUCC kp ∈ l1).
  { destruct (is_ring_lookup _ _ p1 Hr1 Hp1)
      as (q & Hq & (kp' & _ & Hkp' & _ & <- & _)%linked_inv).
    by assert (kp' = kp) as -> by congruence. }
  destruct (IH l1 h1 td (SUCC kp) h' t' Hr1 Hq Hrun) as (l' & Hg).
  exists l'. by eapply grown_trans.
Qed.

End SplitGrown.

(** X14: whenever [split_at_tees] returns, the heap has only grown: the
    new knots are explicit on both sides and sit in the path ring
    between the old ones, the old knots keep their order, positions and
    side types, the head is the same, and every knot outside the path
    (the pen in particular) is untouched. *)
Theorem split_at_tees_grown (hypot : float → float → float) (h h' : heap)
    (t : tees) (path : list ptr) (knots brush : ptr) :
  is_ring h path → head path = Some knots →
  fst <$> split_at_tees hypot h t knots brush = Some h' →
  ∃ path', grown h h' path path'.
Proof.
  intros Hr Hhd Hrun. unfold split_at_tees in Hrun.
  destruct (split_at_tees_loop _ _ _ _ _ _ _) as [[h1 t1]|] eqn:E; [|done].
  simpl in Hrun. injection Hrun as ->.
  eapply split_at_tees_loop_grown; [done| |done].
  by apply head_Some_elem_of.
Qed.

Lemma split_at_tees_grown_witness :
  ∃ path', grown inflection_square_scene inflection_square_split [0; 1] path'.
Proof.
  apply (split_at_tees_grown hypot_sqrt inflection_square_scene
           inflection_square_split tees_init [0; 1] 0 2);
    [by_compute|reflexivity|vm_compute; reflexivity].
Defined.

(** ** The tee stack: filtering *)

Lemma filter_tees_parts (n : nat) :
  ∀ (fuel : nat) (pre L post : list float),
  length L = n → n < fuel →
  ∃ L' post',
    filter_tees fuel (Tees (pre ++ L ++ post) (length pre + length L))
      (length pre)
    = Some (Tees (pre ++ L' ++ post') (length pre + length L')) ∧
    L' ≡ₚ filter inside L ∧
    length (L' ++ post') = length (L ++ post).
Proof.
  induction n as [n IH] using lt_wf_ind.
  intros fuel pre L post Hn Hfuel. destruct fuel as [|fuel]; [lia|].
  destruct L as [|m L1]; simpl in Hn.
  - exists [], post. split; [|done]. simpl. by rewrite decide_False by lia.
  - assert (Hstep : ∀ X,
      filter_tees (S fuel)
        (Tees (pre ++ (m :: L1) ++ post) (length pre + length (m :: L1)))
        (length pre) = X ↔
      (if (0 <? m)%float && (m <? 1)%float
       then filter_tees fuel
              (Tees (pre ++ (m :: L1) ++ post) (length pre + S (length L1)))
              (S (length pre))
       else v ← (pre ++ (m :: L1) ++ post) !! (length pre + length L1);
            filter_tees fuel
              (Tees (<[length pre := v]> (pre ++ (m :: L1) ++ post))
                    (length pre + length L1)) (length pre)) = X).
    { intros X. simpl. rewrite decide_True by lia.
      rewrite (list_lookup_middle pre (L1 ++ post) m (length pre) eq_refl).
      simpl.
      replace (Nat.pred (length pre + S (length L1)))
           with (length pre + length L1) by lia. done. }
    destruct ((0 <? m)%float && (m <? 1)%float) eqn:Hin.
    + destruct (IH (length L1) ltac:(lia) fuel (pre ++ [m]) L1 post eq_refl
                  ltac:(lia)) as (L' & post' & Hrun & Hperm & Hlen).
      rewrite length_app, <- !app_assoc in Hrun. simpl in Hrun.
      replace (length pre + 1 + length L1) with (length pre + S (length L1))
        in Hrun by lia.
      replace (length pre + 1) with (S (length pre)) in Hrun by lia.
      exists (m :: L'), post'. split.
      { apply Hstep. etrans; [exact Hrun|]. do 2 f_equal. simpl. lia. }
      split; [|simpl; lia].
      rewrite filter_cons_True by done. by rewrite Hperm.
    + destruct (decide (L1 = [])) as [->|HL1].
      * destruct (IH 0 ltac:(lia) fuel pre [] (m :: post) eq_refl ltac:(lia))
          as (L' & post' & Hrun & Hperm & Hlen).
        simpl in Hrun.
        exists L', post'. split.
        { apply Hstep. simpl. rewrite Nat.add_0_r.
          rewrite list_lookup_middle by done. simpl.
          rewrite insert_app_r_alt, Nat.sub_diag by done. simpl.
          by rewrite Nat.add_0_r in Hrun. }
        split; [|done].
        rewrite filter_cons_False by (unfold inside; by rewrite Hin). done.
      * destruct (exists_last HL1) as (L2 & v & ->).
        destruct (IH (S (length L2)) ltac:(rewrite length_app in Hn; simpl in *; lia)
                    fuel pre (v :: L2) ([v] ++ post) eq_refl
                    ltac:(rewrite length_app in Hn; simpl in *; lia))
          as (L' & post' & Hrun & Hperm & Hlen).
        simpl in Hrun.
        exists L', post'. split.
        { apply Hstep. rewrite length_app. simpl.
          assert (Hv : (pre ++ m :: (L2 ++ [v]) ++ post)
                       !! (length pre + (length L2 + 1)) = Some v).
          { rewrite lookup_app_r by lia.
            replace (length pre + (length L2 + 1) - length pre)
              with (S (length L2)) by lia.
            simpl. rewrite <- app_assoc.
            exact (list_lookup_middle L2 post v _ eq_refl). }
          rewrite Hv. simpl.
          rewrite insert_app_r_alt, Nat.sub_diag by done. simpl.
          replace (length pre + (length L2 + 1))
            with (length pre + S (length L2)) by lia.
          by rewrite <- app_assoc. }
        split.
        -- etrans; [exact Hperm|].
           rewrite (Permutation_cons_append L2 v).
           symmetry. apply reflexive_eq, filter_cons_False.
           unfold inside. by rewrite Hin.
        -- rewrite Hlen. simpl. rewrite !length_app. simpl. lia.
Qed.

Lemma filter_tees_run (t : tees) :
  tee_top t ≤ length (tee_stack t) →
  ∃ t', filter_tees (S (tee_top t)) t 0 = Some t' ∧
        live t' ≡ₚ filter inside (live t) ∧
        Forall inside (live t') ∧
        tee_top t' ≤ tee_top t ∧
        length (tee_stack t') = length (tee_stack t).
Proof.
  intros Hcap. destruct t as [st top]. unfold live. simpl in *.
  destruct (filter_tees_parts top (S top) [] (take top st) (drop top st))
    as (L' & post' & Hrun & Hperm & Hlen).
  { rewrite length_take. lia. }
  { lia. }
  simpl in Hrun. rewrite take_drop, length_take in Hrun.
  replace (top `min` length st) with top in Hrun by lia.
  rewrite Hrun. eexists. split; [done|]. simpl.
  rewrite take_app_length. split; [done|]. split.
  { rewrite Hperm. apply Forall_forall. intros x Hx.
    by apply list_elem_of_filter in Hx as [Hx _]. }
  split.
  { apply Permutation_length in Hperm. rewrite Hperm.
    etrans; [apply length_filter|]. rewrite length_take. lia. }
  by rewrite Hlen, take_drop.
Qed.

(** X15: the filter of [split_at_tees] keeps exactly the tees strictly
    between 0 and 1 (not an infinity, not a NaN), possibly in another
    order, and drops the others; the array keeps its size. *)
Theorem filter_tees_inside (t : tees) :
  tee_top t ≤ length (tee_stack t) →
  ∃ t', filter_tees (S (tee_top t)) t 0 = Some t' ∧
        live t' ≡ₚ filter inside (live t) ∧
        Forall inside (live t') ∧
        tee_top t' ≤ tee_top t ∧
        length (tee_stack t') = length (tee_stack t).
Proof. apply filter_tees_run. Qed.

Lemma filter_tees_inside_witness :
  ∃ t', filter_tees 5 (Tees [2; 0.5; 0; 0.25; 7]%float 4) 0 = Some t' ∧
        live t' ≡ₚ [0.5; 0.25]%float.
Proof.
  destruct (filter_tees_inside (Tees [2; 0.5; 0; 0.25; 7]%float 4)
              ltac:(simpl; lia)) as (t' & Hrun & Hperm & _).
  exists t'. split; [exact Hrun|exact Hperm].
Defined.

(** ** The image of [image.c] *)

Section ImageProps.
Local Open Scope Z_scope.

Lemma int_Some (z : Z) : INT_MIN ≤ z ≤ INT_MAX → int z = Some z.
Proof. intros Hz. unfold int. by rewrite decide_True. Qed.

Lemma poke_Some (d : list Byte.byte) (i : Z) (b : Byte.byte) :
  0 ≤ i < Z.of_nat (length d) → poke d i b = Some (<[Z.to_nat i := b]> d).
Proof. intros Hi. unfold poke. by rewrite decide_True. Qed.

Lemma pixel_index_Some (im : image_t) (x y : Z) :
  0 ≤ x < width im → 0 ≤ y < height im →
  width im * height im * 4 ≤ INT_MAX →
  pixel_index im x y = Some ((y * width im + x) * 4) ∧
  0 ≤ (y * width im + x) * 4 ∧
  (y * width im + x) * 4 + 3 < width im * height im * 4.
Proof.
  intros Hx Hy Hmax. unfold INT_MAX in Hmax.
  assert (0 ≤ y * width im) by nia.
  assert (y * width im + x < width im * height im) by nia.
  unfold pixel_index.
  rewrite int_Some by (unfold INT_MIN, INT_MAX; lia). simpl.
  rewrite int_Some by (unfold INT_MIN, INT_MAX; lia). simpl.
  rewrite int_Some by (unfold INT_MIN, INT_MAX; lia).
  split; [done|lia].
Qed.

Lemma length_put d n c : length (put d n c) = length d.
Proof. unfold put. by rewrite !length_insert. Qed.

Lemma cell_put_eq d n c :
  (n + 3 < length d)%nat → cell (put d n c) n = Some c.
Proof.
  intros Hn.
  assert (H0 : put d n c !! n = Some (red c)).
  { unfold put. rewrite !list_lookup_insert_ne by lia.
    apply list_lookup_insert_eq. lia. }
  assert (H1 : put d n c !! (n + 1)%nat = Some (green c)).
  { unfold put. rewrite !list_lookup_insert_ne by lia.
    apply list_lookup_insert_eq. rewrite length_insert. lia. }
  assert (H2 : put d n c !! (n + 2)%nat = Some (blue c)).
  { unfold put. rewrite !list_lookup_insert_ne by lia.
    apply list_lookup_insert_eq. rewrite !length_insert. lia. }
  assert (H3 : put d n c !! (n + 3)%nat = Some (alpha c)).
  { unfold put. apply list_lookup_insert_eq. rewrite !length_insert. lia. }
  unfold cell. rewrite H0, H1, H2, H3. by destruct c.
Qed.

Lemma cell_put_ne d n m c :
  (n + 3 < m ∨ m + 3 < n)%nat → cell (put d n c) m = cell d m.
Proof.
  intros Hn. unfold cell, put.
  by rewrite !list_lookup_insert_ne by lia.
Qed.

Lemma set_pixel_run (im : image_t) (d : list Byte.byte) (x y : Z)
    (c : color_t) :
  data im = Some d →
  Z.of_nat (length d) = width im * height im * 4 →
  width im * height im * 4 ≤ INT_MAX →
  0 ≤ x < width im → 0 ≤ y < height im →
  set_pixel (Some im) x y c =
  Some (Some (Image (Some (put d (Z.to_nat ((y * width im + x) * 4)) c))
                (width im) (height im))).
Proof.
  intros Hd Hlen Hmax Hx Hy.
  destruct (pixel_index_Some im x y Hx Hy Hmax) as (Hi & Hi0 & Hi3).
  unfold set_pixel. rewrite Hd. cbv iota beta.
  destruct (decide _) as [?|_]; [lia|].
  rewrite Hi. cbn [mbind option_bind]. unfold INT_MAX in Hmax.
  set (i := (y * width im + x) * 4) in *.
  assert (Hint : ∀ k, 0 ≤ k ≤ 3 → int (i + k) = Some (i + k)).
  { intros k Hk. apply int_Some. unfold INT_MIN, INT_MAX. lia. }
  rewrite !Hint by lia. cbn [mbind option_bind].
  rewrite poke_Some by lia. cbn [mbind option_bind].
  rewrite poke_Some by (rewrite length_insert; lia). cbn [mbind option_bind].
  rewrite poke_Some by (rewrite !length_insert; lia).
  cbn [mbind option_bind].
  rewrite poke_Some by (rewrite !length_insert; lia).
  simpl. unfold put.
  replace (Z.to_nat (i + 1)) with (Z.to_nat i + 1)%nat by lia.
  replace (Z.to_nat (i + 2)) with (Z.to_nat i + 2)%nat by lia.
  replace (Z.to_nat (i + 3)) with (Z.to_nat i + 3)%nat by lia.
  done.
Qed.

Lemma get_pixel_run (im : image_t) (d : list Byte.byte) (x y : Z) :
  data im = Some d →
  width im * height im * 4 ≤ INT_MAX →
  0 ≤ x < width im → 0 ≤ y < height im →
  get_pixel (Some im) x y = cell d (Z.to_nat ((y * width im + x) * 4)).
Proof.
  intros Hd Hmax Hx Hy.
  destruct (pixel_index_Some im x y Hx Hy Hmax) as (Hi & Hi0 & Hi3).
  unfold get_pixel. rewrite Hd. cbv iota beta.
  destruct (decide _) as [?|_]; [lia|].
  rewrite Hi. cbn [mbind option_bind]. unfold INT_MAX in Hmax.
  set (i := (y * width im + x) * 4) in *.
  unfold cell, peek.
  rewrite !int_Some by (unfold INT_MIN, INT_MAX; lia). simpl.
  rewrite !decide_True by lia.
  replace (Z.to_nat (i + 1)) with (Z.to_nat i + 1)%nat by lia.
  replace (Z.to_nat (i + 2)) with (Z.to_nat i + 2)%nat by lia.
  replace (Z.to_nat (i + 3)) with (Z.to_nat i + 3)%nat by lia.
  done.
Qed.

Lemma get_pixel_outside (im : image_t) (x y : Z) :
  ¬ (0 ≤ x < width im ∧ 0 ≤ y < height im) →
  get_pixel (Some im) x y = Some black.
Proof.
  intros Hout. unfold get_pixel. destruct (data im); [|done].
  by rewrite decide_True by lia.
Qed.

Lemma set_pixel_outside (im : image_t) (x y : Z) (c : color_t) :
  ¬ (0 ≤ x < width im ∧ 0 ≤ y < height im) →
  set_pixel (Some im) x y c = Some (Some im).
Proof.
  intros Hout. unfold set_pixel. destruct (data im); [|done].
  by rewrite decide_True by lia.
Qed.

Lemma set_pixel_spec (im : image_t) (x y : Z) (c : color_t) :
  image_ok im → 0 ≤ x < width im → 0 ≤ y < height im →
  ∃ im', set_pixel (Some im) x y c = Some (Some im') ∧
         image_ok im' ∧ width im' = width im ∧ height im' = height im ∧
         ∀ x' y', get_pixel (Some im') x' y' =
                  if decide (x' = x ∧ y' = y) then Some c
                  else get_pixel (Some im) x' y'.
Proof.
  intros (d & Hd & Hw & Hh & Hlen & Hmax) Hx Hy.
  destruct (pixel_index_Some im x y Hx Hy Hmax) as (_ & Hi0 & Hi3).
  set (n := Z.to_nat ((y * width im + x) * 4)).
  set (im' := Image (Some (put d n c)) (width im) (height im)).
  exists im'. split; [by apply set_pixel_run|].
  split.
  { exists (put d n c). simpl. rewrite length_put. done. }
  do 2 (split; [done|]). intros x' y'.
  destruct (decide (0 ≤ x' < width im ∧ 0 ≤ y' < height im))
    as [[Hx' Hy']|Hout].
  - rewrite (get_pixel_run im' (put d n c)) by done.
    rewrite (get_pixel_run im d) by done.
    destruct (pixel_index_Some im x' y' Hx' Hy' Hmax) as (_ & Hj0 & Hj3).
    change (width im') with (width im).
    case_decide as Heq.
    + destruct Heq as [-> ->]. apply cell_put_eq. unfold n. lia.
    + apply cell_put_ne.
      assert (y' * width im + x' ≠ y * width im + x).
      { intros E. destruct (Z.lt_trichotomy y' y) as [Hlt|[->|Hgt]].
        - assert ((y' + 1) * width im ≤ y * width im) by nia. lia.
        - apply Heq. split; lia.
        - assert ((y + 1) * width im ≤ y' * width im) by nia. lia. }
      unfold n. lia.
  - rewrite (get_pixel_outside im') by done.
    rewrite (get_pixel_outside im) by done.
    by rewrite decide_False by lia.
Qed.

Lemma get_pixel_Some (im : image_t) (x y : Z) :
  image_ok im → is_Some (get_pixel (Some im) x y).
Proof.
  intros (d & Hd & Hw & Hh & Hlen & Hmax).
  destruct (decide (0 ≤ x < width im ∧ 0 ≤ y < height im))
    as [[Hx Hy]|Hout]; [|by rewrite get_pixel_outside].
  rewrite (get_pixel_run im d) by done.
  destruct (pixel_index_Some im x y Hx Hy Hmax) as (_ & Hi0 & Hi3).
  set (n := Z.to_nat ((y * width im + x) * 4)).
  unfold cell.
  destruct (lookup_lt_is_Some_2 d n) as [r ->]; [unfold n; lia|].
  destruct (lookup_lt_is_Some_2 d (n + 1)%nat) as [g ->]; [unfold n; lia|].
  destruct (lookup_lt_is_Some_2 d (n + 2)%nat) as [b ->]; [unfold n; lia|].
  destruct (lookup_lt_is_Some_2 d (n + 3)%nat) as [a ->]; [unfold n; lia|].
  done.
Qed.

Lemma set_pixel_any (im : image_t) (x y : Z) (c : color_t) :
  image_ok im →
  ∃ im', set_pixel (Some im) x y c = Some (Some im') ∧
         image_ok im' ∧ width im' = width im ∧ height im' = height im ∧
         ∀ x' y', 0 ≤ x' < width im → 0 ≤ y' < height im →
                  get_pixel (Some im') x' y' =
                  if decide (x' = x ∧ y' = y) then Some c
                  else get_pixel (Some im) x' y'.
Proof.
  intros Hok.
  destruct (decide (0 ≤ x < width im ∧ 0 ≤ y < height im))
    as [[Hx Hy]|Hout].
  - destruct (set_pixel_spec im x y c Hok Hx Hy)
      as (im' & Hrun & Hok' & Hw & Hh & Hget).
    exists im'. do 4 (split; [done|]). intros x' y' _ _. apply Hget.
  - exists im. rewrite set_pixel_outside by done.
    do 4 (split; [done|]). intros x' y' Hx' Hy'.
    by rewrite decide_False by lia.
Qed.

Lemma render_span_spec (span : span_t) :
  x_end span < INT_MAX →
  ∀ (fuel : nat) (im : image_t) (x0 : Z),
    image_ok im → INT_MIN ≤ x0 →
    (Z.to_nat (x_end span - x0 + 1) < fuel)%nat →
    ∃ im', render_span fuel (Some im) span x0 = Some (Some im') ∧
           image_ok im' ∧ width im' = width im ∧ height im' = height im ∧
           ∀ x y, 0 ≤ x < width im → 0 ≤ y < height im →
                  get_pixel (Some im') x y =
                  if decide (s_y span = y ∧ x0 ≤ x ≤ x_end span)
                  then Some (s_color span)
                  else get_pixel (Some im) x y.
Proof.
  intros Hend. induction fuel as [|fuel IH]; intros im x0 Hok Hx0 Hfuel;
    [lia|].
  cbn [render_span]. case_decide as Hle.
  - destruct (set_pixel_any im x0 (s_y span) (s_color span) Hok)
      as (im1 & Hrun1 & Hok1 & Hw1 & Hh1 & Hget1).
    rewrite Hrun1. cbn [mbind option_bind].
    rewrite int_Some by (unfold INT_MAX in *; lia). cbn [mbind option_bind].
    destruct (IH im1 (x0 + 1) Hok1 ltac:(lia) ltac:(lia))
      as (im' & Hrun & Hok' & Hw & Hh & Hget).
    exists im'. rewrite Hrun. split; [done|]. split; [done|].
    split; [congruence|]. split; [congruence|].
    intros x y Hx Hy. rewrite Hget by congruence.
    rewrite Hget1 by done.
    repeat case_decide; try done; lia.
  - exists im. do 4 (split; [done|]). intros x y _ _.
    by rewrite decide_False by lia.
Qed.

Lemma paint_cons (s : span_t) (ss : list span_t) (c : color_t) (x y : Z) :
  paint (s :: ss) c x y
  = paint ss (if decide (covers s x y) then s_color s else c) x y.
Proof. done. Qed.

Lemma render_spans_loop_spec (sl : span_list_t) :
  (count sl ≤ length (spans sl))%nat →
  Forall (λ s, INT_MIN ≤ x_start s ∧ x_end s < INT_MAX)
         (take (count sl) (spans sl)) →
  ∀ (fuel i : nat) (im : image_t),
    image_ok im → (count sl - i < fuel)%nat →
    ∃ im', render_spans_loop fuel sl (Some im) i = Some (Some im') ∧
           image_ok im' ∧ width im' = width im ∧ height im' = height im ∧
           ∀ x y, 0 ≤ x < width im → 0 ≤ y < height im →
                  get_pixel (Some im') x y =
                  (λ c, paint (drop i (take (count sl) (spans sl))) c x y)
                    <$> get_pixel (Some im) x y.
Proof.
  intros Hcount Hspans.
  induction fuel as [|fuel IH]; intros i im Hok Hfuel; [lia|].
  cbn [render_spans_loop]. case_decide as Hi.
  - destruct (lookup_lt_is_Some_2 (spans sl) i) as [span Hspan]; [lia|].
    assert (Htake : take (count sl) (spans sl) !! i = Some span)
      by (by rewrite lookup_take_lt).
    rewrite Hspan. cbn [mbind option_bind].
    destruct (proj1 (Forall_lookup _ _) Hspans i span Htake) as [Hs He].
    destruct (render_span_spec span He
                (S (Z.to_nat (x_end span - x_start span + 1))) im
                (x_start span)
                Hok Hs ltac:(lia))
      as (im1 & Hrun1 & Hok1 & Hw1 & Hh1 & Hget1).
    rewrite Hrun1. cbn [mbind option_bind].
    destruct (IH (S i) im1 Hok1 ltac:(lia))
      as (im' & Hrun & Hok' & Hw & Hh & Hget).
    exists im'. rewrite Hrun. split; [done|]. split; [done|].
    split; [congruence|]. split; [congruence|].
    intros x y Hx Hy. rewrite Hget by congruence.
    rewrite Hget1 by done.
    rewrite (drop_S _ span i) by done. 
    destruct (get_pixel_Some im x y Hok) as [c0 ->].
    cbn [fmap option_fmap option_map]. rewrite paint_cons.
    unfold covers. by repeat case_decide.
  - exists im. do 4 (split; [done|]). intros x y _ _.
    rewrite drop_ge by (rewrite length_take; lia).
    by destruct (get_pixel (Some im) x y).
Qed.

(** X16: on an image whose buffer holds four bytes per pixel, [set_pixel]
    at a pixel inside the image stores the colour there: [get_pixel] at
    that pixel returns it, [get_pixel] at every other position returns
    what it returned before, and the size of the image is kept. *)
Theorem set_pixel_get_pixel (im : image_t) (x y : Z) (c : color_t) :
  image_ok im → 0 ≤ x < width im → 0 ≤ y < height im →
  ∃ im', set_pixel (Some im) x y c = Some (Some im') ∧
         image_ok im' ∧ width im' = width im ∧ height im' = height im ∧
         ∀ x' y', get_pixel (Some im') x' y' =
                  if decide (x' = x ∧ y' = y) then Some c
                  else get_pixel (Some im) x' y'.
Proof. apply set_pixel_spec. Qed.

Lemma set_pixel_get_pixel_witness :
  ∃ im', set_pixel (Some blank2) 1 1 opaque_red = Some (Some im') ∧
         get_pixel (Some im') 1 1 = Some opaque_red ∧
         get_pixel (Some im') 0 1 = Some black.
Proof.
  destruct (set_pixel_get_pixel blank2 1 1 opaque_red ltac:(exists (replicate 16 Byte.x00); by repeat split)
              ltac:(simpl; lia) ltac:(simpl; lia))
    as (im' & Hrun & _ & _ & _ & Hget).
  exists im'. split; [exact Hrun|]. split; rewrite Hget; reflexivity.
Defined.

(** X17: [create_image] with positive sizes whose buffer size
    [width * height * 4] is an [int] returns an image of these sizes in
    which every pixel is transparent black. *)
Theorem create_image_black (w h : Z) :
  0 < w → 0 < h → w * h * 4 ≤ INT_MAX →
  ∃ im, create_image w h = Some (Some im) ∧ image_ok im ∧
        width im = w ∧ height im = h ∧
        ∀ x y, get_pixel (Some im) x y = Some black.
Proof.
  intros Hw Hh Hmax. unfold create_image.
  destruct (decide _) as [?|_]; [lia|].
  assert (0 < w * h) by nia.
  rewrite int_Some by (unfold INT_MIN, INT_MAX in *; lia).
  cbn [mbind option_bind].
  rewrite int_Some by (unfold INT_MIN, INT_MAX in *; lia).
  cbn [mbind option_bind].
  set (d := replicate (Z.to_nat (w * h * 4)) Byte.x00).
  set (im := Image (Some d) w h).
  assert (Hlen : Z.of_nat (length d) = w * h * 4)
    by (unfold d; rewrite length_replicate; lia).
  exists im. split; [done|]. split.
  { exists d. simpl. split_and!; (done || lia). }
  do 2 (split; [done|]). intros x y.
  destruct (decide (0 ≤ x < width im ∧ 0 ≤ y < height im))
    as [[Hx Hy]|Hout]; [|by apply get_pixel_outside].
  rewrite (get_pixel_run im d) by done.
  destruct (pixel_index_Some im x y Hx Hy Hmax) as (_ & Hi0 & Hi3).
  simpl in Hi0, Hi3. simpl.
  set (n := Z.to_nat ((y * w + x) * 4)).
  unfold cell, d.
  rewrite !lookup_replicate_2 by (unfold n; lia). done.
Qed.

Lemma create_image_black_witness :
  ∃ im, create_image 2 2 = Some (Some im) ∧
        get_pixel (Some im) 1 1 = Some black.
Proof.
  destruct (create_image_black 2 2 ltac:(lia) ltac:(lia)
              ltac:(unfold INT_MAX; lia))
    as (im & Hrun & _ & _ & _ & Hget).
  exists im. split; [exact Hrun|apply Hget].
Defined.

(** X18: [render_spans_to_image] paints the first [count] spans of the
    list in order: afterwards every pixel of the image has the colour of
    the last span that covers it, or its old colour if no span covers it;
    the parts of a span outside the image are skipped. The spans end before
    [INT_MAX], so that the loop counter stays an [int]. *)
Theorem render_spans_to_image_paint (sl : span_list_t) (im : image_t) :
  image_ok im →
  (count sl ≤ length (spans sl))%nat →
  Forall (λ s, INT_MIN ≤ x_start s ∧ x_end s < INT_MAX)
         (take (count sl) (spans sl)) →
  ∃ im', render_spans_to_image (Some sl) (Some im) = Some (Some im') ∧
         image_ok im' ∧ width im' = width im ∧ height im' = height im ∧
         ∀ x y, 0 ≤ x < width im → 0 ≤ y < height im →
                get_pixel (Some im') x y =
                (λ c, paint (take (count sl) (spans sl)) c x y)
                  <$> get_pixel (Some im) x y.
Proof.
  intros Hok Hcount Hspans. unfold render_spans_to_image.
  apply (render_spans_loop_spec sl Hcount Hspans (S (count sl)) 0%nat im Hok).
  lia.
Qed.

Lemma render_spans_to_image_paint_witness :
  ∃ im', render_spans_to_image (Some two_spans) (Some blank2)
         = Some (Some im') ∧
         get_pixel (Some im') 0 0 = Some opaque_red ∧
         get_pixel (Some im') 1 0 = Some opaque_blue ∧
         get_pixel (Some im') 0 1 = Some black.
Proof.
  destruct (render_spans_to_image_paint two_spans blank2 ltac:(exists (replicate 16 Byte.x00); by repeat split)
              ltac:(simpl; lia)
              ltac:(repeat constructor; unfold INT_MIN, INT_MAX; simpl; lia))
    as (im' & Hrun & _ & _ & _ & Hget).
  exists im'. split; [exact Hrun|].
  split_and!; rewrite Hget by (simpl; lia); reflexivity.
Defined.

End ImageProps.

(** ** The order of [double] *)

Section FloatOrder.
Local Open Scope Z_scope.

(** A key in the lexicographic order of triples that orders the values
    that are not NaN as [<] does. *)
Let SFkey (f : spec_float) : option (Z * Z * Z) :=
  match f with
  | S754_nan => None
  | S754_infinity true => Some (-2, 0, 0)
  | S754_infinity false => Some (2, 0, 0)
  | S754_zero _ => Some (0, 0, 0)
  | S754_finite true m e => Some (-1, - e, Z.neg m)
  | S754_finite false m e => Some (1, e, Z.pos m)
  end.

Let lex_compare (a b : Z * Z * Z) : comparison :=
  match a.1.1 ?= b.1.1 with
  | Eq => match a.1.2 ?= b.1.2 with
          | Eq => a.2 ?= b.2
          | c => c
          end
  | c => c
  end.

Let lex_lt (a b : Z * Z * Z) : Prop :=
  a.1.1 < b.1.1 ∨
  (a.1.1 = b.1.1 ∧ (a.1.2 < b.1.2 ∨ (a.1.2 = b.1.2 ∧ a.2 < b.2))).

Lemma SFcompare_key (f1 f2 : spec_float) :
  SFcompare f1 f2 =
  match SFkey f1, SFkey f2 with
  | Some k1, Some k2 => Some (lex_compare k1 k2)
  | _, _ => None
  end.
Proof.
  destruct f1 as [s1|s1| |s1 m1 e1], f2 as [s2|s2| |s2 m2 e2];
    try destruct s1; try destruct s2; try reflexivity;
    unfold SFkey, lex_compare, SFcompare; cbn [fst snd].
  - rewrite Z.compare_opp, (Z.compare_antisym e1 e2).
    change (-1 ?= -1) with Eq. cbv iota.
    change (Z.neg m1 ?= Z.neg m2) with (CompOpp (Pos.compare m1 m2)).
    change (Pos.compare_cont Eq m1 m2) with (Pos.compare m1 m2).
    by destruct (e1 ?= e2).
Qed.

Lemma lex_compare_Lt (a b : Z * Z * Z) : lex_compare a b = Lt ↔ lex_lt a b.
Proof.
  destruct a as [[a1 a2] a3], b as [[b1 b2] b3].
  unfold lex_compare, lex_lt. cbn [fst snd].
  destruct (Z.compare_spec a1 b1), (Z.compare_spec a2 b2),
    (Z.compare_spec a3 b3); split; (done || lia).
Qed.

Lemma lex_compare_Eq (a b : Z * Z * Z) : lex_compare a b = Eq ↔ a = b.
Proof.
  destruct a as [[a1 a2] a3], b as [[b1 b2] b3].
  unfold lex_compare. cbn [fst snd].
  destruct (Z.compare_spec a1 b1), (Z.compare_spec a2 b2),
    (Z.compare_spec a3 b3); split; intros E; try done;
    try (injection E; lia); congruence.
Qed.

Lemma lex_compare_Gt (a b : Z * Z * Z) : lex_compare a b = Gt ↔ lex_lt b a.
Proof.
  destruct a as [[a1 a2] a3], b as [[b1 b2] b3].
  unfold lex_compare, lex_lt. cbn [fst snd].
  destruct (Z.compare_spec a1 b1), (Z.compare_spec a2 b2),
    (Z.compare_spec a3 b3); split; (done || lia).
Qed.

Lemma ltb_key (x y : float) :
  (x <? y)%float = true ↔
  ∃ kx ky, SFkey (Prim2SF x) = Some kx ∧ SFkey (Prim2SF y) = Some ky ∧
           lex_lt kx ky.
Proof.
  rewrite FloatAxioms.ltb_spec. unfold SFltb. rewrite SFcompare_key.
  destruct (SFkey (Prim2SF x)) as [kx|], (SFkey (Prim2SF y)) as [ky|];
    try (split; [done|by intros (? & ? & ? & ? & ?)]).
  pose proof (lex_compare_Lt kx ky) as HLt.
  destruct (lex_compare kx ky); split; try done.
  - intros (? & ? & [= <-] & [= <-] & Hlt). by apply HLt in Hlt.
  - intros _. exists kx, ky. split_and!; try done. by apply HLt.
  - intros (? & ? & [= <-] & [= <-] & Hlt). by apply HLt in Hlt.
Qed.

Lemma not_nan_key (x : float) :
  not_nan x ↔ is_Some (SFkey (Prim2SF x)).
Proof.
  unfold not_nan. rewrite FloatAxioms.eqb_spec. unfold SFeqb. rewrite SFcompare_key.
  destruct (SFkey (Prim2SF x)) as [kx|]; [|split; [done|by intros [? ?]]].
  pose proof (proj2 (lex_compare_Eq kx kx) eq_refl) as ->. done.
Qed.

Lemma ltb_irrefl (x : float) : (x <? x)%float = false.
Proof.
  apply not_true_is_false. rewrite ltb_key.
  intros (kx & ky & Hx & Hy & Hlt). rewrite Hx in Hy. injection Hy as <-.
  unfold lex_lt in Hlt. lia.
Qed.

Lemma ltb_asym (x y : float) :
  (x <? y)%float = true → (y <? x)%float = false.
Proof.
  rewrite ltb_key. intros (kx & ky & Hx & Hy & Hlt).
  apply not_true_is_false. rewrite ltb_key.
  intros (ky' & kx' & Hy' & Hx' & Hlt').
  rewrite Hx in Hx'. rewrite Hy in Hy'.
  injection Hx' as <-. injection Hy' as <-.
  unfold lex_lt in *. lia.
Qed.

(** [a <= p] and [p <= b] give [a <= b] when the pivot [p] is a number. *)
Lemma ltb_neg_trans (p a b : float) :
  not_nan p → (p <? a)%float = false → (b <? p)%float = false →
  (b <? a)%float = false.
Proof.
  rewrite not_nan_key. intros [kp Hp] Hpa Hbp.
  apply not_true_is_false. rewrite ltb_key.
  intros (kb & ka & Hb & Ha & Hlt).
  apply not_true_iff_false in Hpa, Hbp. rewrite ltb_key in Hpa, Hbp.
  assert (¬ lex_lt kp ka) by (intros ?; apply Hpa; by exists kp, ka).
  assert (¬ lex_lt kb kp) by (intros ?; apply Hbp; by exists kb, kp).
  unfold lex_lt in *. lia.
Qed.

Lemma leb_not_ltb (x y : float) :
  not_nan x → not_nan y → (y <? x)%float = false → (x <=? y)%float = true.
Proof.
  rewrite !not_nan_key. intros [kx Hx] [ky Hy] Hlt.
  apply not_true_iff_false in Hlt. rewrite ltb_key in Hlt.
  rewrite FloatAxioms.leb_spec. unfold SFleb. rewrite SFcompare_key, Hx, Hy.
  pose proof (lex_compare_Gt kx ky) as HGt.
  destruct (lex_compare kx ky); try done.
  exfalso. apply Hlt. exists ky, kx. split_and!; try done. by apply HGt.
Qed.

End FloatOrder.

(** ** Sorting the tees *)

Section Scan.

Lemma tee_at_nat (st : list float) (a : nat) :
  tee_at st (Z.of_nat a) = st !! a.
Proof. unfold tee_at. by rewrite Nat2Z.id. Qed.

Lemma u32_small (z : Z) : (0 ≤ z < 2 ^ 32)%Z → u32 z = z.
Proof. intros. unfold u32. by rewrite Z.mod_small. Qed.

Lemma u32_pred_succ (z : Z) : (0 ≤ z < 2 ^ 32)%Z → u32 (u32 (z - 1) + 1) = z.
Proof.
  intros. unfold u32. rewrite Zplus_mod_idemp_l.
  replace (z - 1 + 1)%Z with z by lia. by rewrite Z.mod_small.
Qed.

Lemma u32_succ_pred (z : Z) : (0 ≤ z < 2 ^ 32)%Z → u32 (u32 (z + 1) - 1) = z.
Proof.
  intros. unfold u32. rewrite Zminus_mod_idemp_l.
  replace (z + 1 - 1)%Z with z by lia. by rewrite Z.mod_small.
Qed.

Variables (st : list float) (pivot : float).
Hypothesis Hsize : (Z.of_nat (length st) < 2 ^ 32)%Z.

Lemma scan_up_spec (fuel : nat) :
  ∀ (i : Z) (a k : nat),
    u32 (i + 1) = Z.of_nat a → a ≤ k →
    (∃ v, st !! k = Some v ∧ (v <? pivot)%float = false) →
    k - a < fuel →
    ∃ i' : nat,
      scan_up fuel st i pivot = Some (Z.of_nat i') ∧ a ≤ i' ≤ k ∧
      (∃ v, st !! i' = Some v ∧ (v <? pivot)%float = false) ∧
      ∀ m, a ≤ m < i' → ∃ v, st !! m = Some v ∧ (v <? pivot)%float = true.
Proof using All.
  induction fuel as [|fuel IH]; intros i a k Hi Hak (vk & Hk & Hvk) Hfuel;
    [lia|].
  cbn [scan_up]. rewrite Hi, tee_at_nat.
  assert (Hlt : k < length st) by (by eapply lookup_lt_Some).
  destruct (lookup_lt_is_Some_2 st a) as [v Hv]; [lia|].
  rewrite Hv. cbn [mbind option_bind].
  destruct (v <? pivot)%float eqn:Hcmp.
  - assert (a ≠ k) by (intros ->; congruence).
    destruct (IH (Z.of_nat a) (S a) k) as (i' & Hrun & Hi' & Hstop & Hbelow).
    { rewrite u32_small by lia. lia. }
    { lia. }
    { by exists vk. }
    { lia. }
    exists i'. split; [done|]. split; [lia|]. split; [done|].
    intros m Hm. destruct (decide (m = a)) as [->|]; [by exists v|].
    apply Hbelow. lia.
  - exists a. split; [done|]. split; [lia|]. split; [by exists v|].
    intros m Hm. lia.
Qed.

Lemma scan_down_spec (fuel : nat) :
  ∀ (j : Z) (b k : nat),
    u32 (j - 1) = Z.of_nat b → k ≤ b → b < length st →
    (∃ v, st !! k = Some v ∧ (pivot <? v)%float = false) →
    b - k < fuel →
    ∃ j' : nat,
      scan_down fuel st j pivot = Some (Z.of_nat j') ∧ k ≤ j' ≤ b ∧
      (∃ v, st !! j' = Some v ∧ (pivot <? v)%float = false) ∧
      ∀ m, j' < m ≤ b → ∃ v, st !! m = Some v ∧ (pivot <? v)%float = true.
Proof using All.
  induction fuel as [|fuel IH];
    intros j b k Hj Hkb Hb (vk & Hk & Hvk) Hfuel; [lia|].
  cbn [scan_down]. rewrite Hj, tee_at_nat.
  destruct (lookup_lt_is_Some_2 st b) as [v Hv]; [lia|].
  rewrite Hv. cbn [mbind option_bind].
  destruct (pivot <? v)%float eqn:Hcmp.
  - assert (b ≠ k) by (intros ->; congruence).
    destruct (IH (Z.of_nat b) (b - 1) k) as (j' & Hrun & Hj' & Hstop & Habove).
    { rewrite u32_small by lia. lia. }
    { lia. }
    { lia. }
    { by exists vk. }
    { lia. }
    exists j'. split; [done|]. split; [lia|]. split; [done|].
    intros m Hm. destruct (decide (m = b)) as [->|]; [by exists v|].
    apply Habove. lia.
  - exists b. split; [done|]. split; [lia|]. split; [by exists v|].
    intros m Hm. lia.
Qed.

End Scan.

Section Partition.

Variables (st0 : list float) (lo hi : nat) (pivot : float).
Hypothesis Hsize : (Z.of_nat (length st0) < 2 ^ 32)%Z.
Hypothesis Hlohi : lo < hi.
Hypothesis Hhi : hi < length st0.

(** The cells from [lo] up to [a] (excluded) are not above the pivot, the
    cells from [b] (excluded) up to [hi] are not below it. *)
Let lefts (st : list float) (a : nat) : Prop :=
  ∀ m, lo ≤ m < a → ∃ v, st !! m = Some v ∧ (pivot <? v)%float = false.

Let rights (st : list float) (b : nat) : Prop :=
  ∀ m, b < m ≤ hi → ∃ v, st !! m = Some v ∧ (v <? pivot)%float = false.

Let frame (st : list float) : Prop :=
  length st = length st0 ∧ st ≡ₚ st0 ∧
  ∀ m, m < lo ∨ hi < m → st !! m = st0 !! m.

Lemma partition_loop_spec (fuel : nat) :
  ∀ (st : list float) (i j : Z) (a b : nat),
    u32 (i + 1) = Z.of_nat a → u32 (j - 1) = Z.of_nat b →
    lo ≤ a ≤ hi → lo ≤ b ≤ hi →
    frame st → lefts st a → rights st b →
    (∃ k, a ≤ k ≤ hi ∧ (b < hi ∨ k < hi) ∧
          ∃ v, st !! k = Some v ∧ (v <? pivot)%float = false) →
    (∃ k, lo ≤ k ≤ b ∧ ∃ v, st !! k = Some v ∧ (pivot <? v)%float = false) →
    hi - a < fuel →
    ∃ (st' : list float) (j' : nat),
      partition_loop fuel st i j pivot = Some (st', Z.of_nat j') ∧
      lo ≤ j' < hi ∧ frame st' ∧ lefts st' (S j') ∧ rights st' j'.
Proof using All.
  induction fuel as [|fuel IH];
    intros st i j a b Hi Hj Ha Hb (Hlen & Hperm & Hout) Hl Hr
      (ku & Hku & Hend & Hup) (kd & Hkd & Hdown) Hfuel; [lia|].
  cbn [partition_loop].
  assert (Hsz : (Z.of_nat (length st) < 2 ^ 32)%Z) by (rewrite Hlen; lia).
  destruct (scan_up_spec st pivot Hsz (S (length st)) i a ku Hi
              ltac:(lia) Hup ltac:(lia))
    as (i' & -> & Hi' & (vi & Hvi & Hcmpi) & Hbelow).
  cbn [mbind option_bind].
  destruct (scan_down_spec st pivot Hsz (S (length st)) j b kd Hj
              ltac:(lia) ltac:(lia) Hdown ltac:(lia))
    as (j' & -> & Hj' & (vj & Hvj & Hcmpj) & Habove).
  cbn [mbind option_bind].
  destruct (Z.leb_spec (Z.of_nat j') (Z.of_nat i')) as [Hle|Hgt].
  - exists st, j'. split; [done|]. split; [lia|].
    split; [done|]. split.
    + intros m Hm. destruct (decide (m < a)) as [?|?]; [apply Hl; lia|].
      destruct (decide (m < i')) as [?|?].
      * destruct (Hbelow m ltac:(lia)) as (v & Hv & Hcmp).
        exists v. split; [done|]. by apply ltb_asym.
      * assert (m = j') as -> by lia. by exists vj.
    + intros m Hm. destruct (decide (b < m)) as [?|?]; [apply Hr; lia|].
      destruct (Habove m ltac:(lia)) as (v & Hv & Hcmp).
      exists v. split; [done|]. by apply ltb_asym.
  - rewrite !tee_at_nat, Hvi, Hvj. cbn [mbind option_bind].
    rewrite !Nat2Z.id.
    set (st1 := <[j' := vi]> (<[i' := vj]> st)).
    assert (Hlook : ∀ m, st1 !! m =
              if decide (m = j') then Some vi
              else if decide (m = i') then Some vj else st !! m).
    { intros m. unfold st1. assert (j' < length st) by (by eapply lookup_lt_Some).
      assert (i' < length st) by (by eapply lookup_lt_Some).
      repeat case_decide; subst.
      - apply list_lookup_insert_eq. rewrite length_insert. lia.
      - rewrite list_lookup_insert_ne by lia.
        by apply list_lookup_insert_eq.
      - by rewrite !list_lookup_insert_ne by lia. }
    destruct (IH st1 (Z.of_nat i') (Z.of_nat j') (S i') (j' - 1))
      as (st' & r & Hrun & Hres).
    + rewrite u32_small by lia. lia.
    + rewrite u32_small by lia. lia.
    + lia.
    + lia.
    + split; [unfold st1; by rewrite !length_insert|]. split.
      * etrans; [|exact Hperm]. by apply Permutation_insert_swap.
      * intros m Hm. rewrite Hlook.
        rewrite !decide_False by lia. by apply Hout.
    + intros m Hm. rewrite Hlook. rewrite decide_False by lia.
      case_decide as Hmi; [by exists vj|].
      destruct (decide (m < a)) as [?|?]; [apply Hl; lia|].
      destruct (Hbelow m ltac:(lia)) as (v & Hv & Hcmp).
      exists v. split; [done|]. by apply ltb_asym.
    + intros m Hm. rewrite Hlook.
      case_decide as Hmj; [by exists vi|].
      rewrite decide_False by lia.
      destruct (decide (b < m)) as [?|?]; [apply Hr; lia|].
      destruct (Habove m ltac:(lia)) as (v & Hv & Hcmp).
      exists v. split; [done|]. by apply ltb_asym.
    + exists j'. split; [lia|]. split; [lia|]. exists vi.
      rewrite Hlook. by rewrite decide_True.
    + exists i'. split; [lia|]. exists vj.
      rewrite Hlook. rewrite decide_False by lia. by rewrite decide_True.
    + lia.
    + exists st', r. by rewrite Hrun.
Qed.

End Partition.

Lemma partition_tees_spec (st0 : list float) (lo hi : nat) :
  (Z.of_nat (length st0) < 2 ^ 32)%Z → lo < hi → hi < length st0 →
  ∃ (pivot' : float) (st' : list float) (j' : nat),
    st0 !! lo = Some pivot' ∧
    partition_tees st0 (Z.of_nat lo) (Z.of_nat hi) = Some (st', Z.of_nat j') ∧
    lo ≤ j' < hi ∧ length st' = length st0 ∧ st' ≡ₚ st0 ∧
    (∀ m, m < lo ∨ hi < m → st' !! m = st0 !! m) ∧
    (∀ m, lo ≤ m ≤ j' →
          ∃ v, st' !! m = Some v ∧ (pivot' <? v)%float = false) ∧
    (∀ m, j' < m ≤ hi →
          ∃ v, st' !! m = Some v ∧ (v <? pivot')%float = false).
Proof.
  intros Hsize Hlohi Hhi.
  destruct (lookup_lt_is_Some_2 st0 lo) as [p Hp]; [lia|].
  unfold partition_tees. rewrite tee_at_nat, Hp. cbn [mbind option_bind].
  destruct (partition_loop_spec st0 lo hi p Hsize Hlohi Hhi
              (S (length st0)) st0
              (u32 (Z.of_nat lo - 1)) (u32 (Z.of_nat hi + 1)) lo hi)
    as (st' & j' & Hrun & Hj' & (Hlen & Hperm & Hout) & Hl & Hr).
  - apply u32_pred_succ. lia.
  - apply u32_succ_pred. lia.
  - lia.
  - lia.
  - by split_and!.
  - intros m Hm. lia.
  - intros m Hm. lia.
  - exists lo. split; [lia|]. split; [lia|]. exists p.
    split; [done|apply ltb_irrefl].
  - exists lo. split; [lia|]. exists p. split; [done|apply ltb_irrefl].
  - lia.
  - exists p, st', j'. split_and!; try done; try lia.
    intros m Hm. apply Hl. lia.
Qed.


Section Slice.
Context {A : Type}.
Implicit Types (st : list A) (lo hi : nat).

Lemma slice_lookup st lo hi m :
  take (S hi - lo) (drop lo st) !! m
  = if decide (m < S hi - lo) then st !! (lo + m) else None.
Proof. by rewrite lookup_take, lookup_drop. Qed.

Lemma slice_ext st st' lo hi :
  (∀ m, lo ≤ m ≤ hi → st' !! m = st !! m) →
  take (S hi - lo) (drop lo st') = take (S hi - lo) (drop lo st).
Proof.
  intros Heq. apply list_eq. intros m. rewrite !slice_lookup.
  case_decide; [|done]. apply Heq. lia.
Qed.

Lemma slice_app st lo j hi :
  lo ≤ S j → j ≤ hi →
  take (S hi - lo) (drop lo st)
  = take (S j - lo) (drop lo st) ++ take (S hi - S j) (drop (S j) st).
Proof.
  intros Hlo Hj.
  replace (S hi - lo) with ((S j - lo) + (S hi - S j)) by lia.
  rewrite <- take_take_drop, drop_drop. do 3 f_equal. lia.
Qed.

Lemma slice_middle st lo hi :
  lo ≤ S hi →
  st = take lo st ++ take (S hi - lo) (drop lo st) ++ drop (S hi) st.
Proof.
  intros Hlo.
  rewrite <- (take_drop lo st) at 1. f_equal.
  rewrite <- (take_drop (S hi - lo) (drop lo st)) at 1. f_equal.
  rewrite drop_drop. f_equal. lia.
Qed.

Lemma slice_Forall (P : A → Prop) st lo hi :
  (∀ m, lo ≤ m ≤ hi → ∃ v, st !! m = Some v ∧ P v) →
  Forall P (take (S hi - lo) (drop lo st)).
Proof.
  intros HP. apply Forall_lookup. intros m x. rewrite slice_lookup.
  case_decide; [|done]. intros Hx.
  destruct (HP (lo + m) ltac:(lia)) as (v & Hv & HPv). congruence.
Qed.

Lemma slice_Permutation st st' lo hi :
  lo ≤ S hi → length st' = length st → st' ≡ₚ st →
  (∀ m, m < lo ∨ hi < m → st' !! m = st !! m) →
  take (S hi - lo) (drop lo st') ≡ₚ take (S hi - lo) (drop lo st).
Proof.
  intros Hlo Hlen Hperm Hout.
  assert (Ht : take lo st' = take lo st).
  { apply list_eq. intros m. rewrite !lookup_take.
    case_decide; [|done]. apply Hout. lia. }
  assert (Hd : drop (S hi) st' = drop (S hi) st).
  { apply list_eq. intros m. rewrite !lookup_drop. apply Hout. lia. }
  pose proof (slice_middle st' lo hi Hlo) as E'.
  pose proof (slice_middle st lo hi Hlo) as E.
  rewrite Ht, Hd in E'.
  assert (Hmid : take lo st ++ take (S hi - lo) (drop lo st')
                   ++ drop (S hi) st
                 ≡ₚ take lo st ++ take (S hi - lo) (drop lo st)
                   ++ drop (S hi) st) by (by rewrite <- E', <- E).
  apply Permutation_app_inv_l in Hmid.
  by apply Permutation_app_inv_r in Hmid.
Qed.

End Slice.

Lemma sort_tees_spec (fuel : nat) :
  ∀ (st : list float) (lo hi : nat),
    (Z.of_nat (length st) < 2 ^ 32)%Z → hi < length st → hi - lo < fuel →
    ∃ st', sort_tees fuel st (Z.of_nat lo) (Z.of_nat hi) = Some st' ∧
           length st' = length st ∧
           (∀ m, m < lo ∨ hi < m → st' !! m = st !! m) ∧
           slice lo hi st' ≡ₚ slice lo hi st ∧
           (Forall not_nan (slice lo hi st) →
            StronglySorted fle (slice lo hi st')).
Proof.
  induction fuel as [|fuel IH]; intros st lo hi Hsize Hhi Hfuel; [lia|].
  cbn [sort_tees]. destruct (Z.ltb_spec (Z.of_nat lo) (Z.of_nat hi)) as [Hlt|Hge].
  - destruct (partition_tees_spec st lo hi Hsize ltac:(lia) Hhi)
      as (p & st1 & j & Hp & Hrun1 & Hj & Hlen1 & Hperm1 & Hout1 & Hl & Hr).
    rewrite Hrun1. cbn [mbind option_bind].
    destruct (IH st1 lo j ltac:(lia) ltac:(lia) ltac:(lia))
      as (st2 & Hrun2 & Hlen2 & Hout2 & Hperm2 & Hsort2).
    rewrite Hrun2. cbn [mbind option_bind].
    rewrite u32_small by lia.
    replace (Z.of_nat j + 1)%Z with (Z.of_nat (S j)) by lia.
    destruct (IH st2 (S j) hi ltac:(lia) ltac:(lia) ltac:(lia))
      as (st3 & Hrun3 & Hlen3 & Hout3 & Hperm3 & Hsort3).
    rewrite Hrun3. exists st3. split; [done|]. split; [congruence|].
    assert (Hleft3 : slice lo j st3 = slice lo j st2).
    { apply slice_ext. intros m Hm. apply Hout3. lia. }
    assert (Hright2 : slice (S j) hi st2 = slice (S j) hi st1).
    { apply slice_ext. intros m Hm. apply Hout2. lia. }
    assert (Hslice1 : slice lo hi st1 ≡ₚ slice lo hi st).
    { apply slice_Permutation; [lia|done..]. }
    assert (Happ : ∀ s, slice lo hi s = slice lo j s ++ slice (S j) hi s).
    { intros s. apply slice_app; lia. }
    assert (HL : slice lo j st3 ≡ₚ slice lo j st1) by (by rewrite Hleft3).
    assert (HR : slice (S j) hi st3 ≡ₚ slice (S j) hi st1)
      by (by rewrite Hperm3, Hright2).
    split.
    { intros m Hm. rewrite Hout3 by lia. rewrite Hout2 by lia.
      apply Hout1. lia. }
    split.
    { rewrite (Happ st3), HL, HR, <- (Happ st1). done. }
    intros Hnan.
    assert (Hnan1 : Forall not_nan (slice lo hi st1)) by (by rewrite Hslice1).
    rewrite (Happ st1) in Hnan1. apply Forall_app in Hnan1 as [HnL HnR].
    assert (Hpn : not_nan p).
    { eapply (proj1 (Forall_lookup _ _) Hnan 0). unfold slice.
      rewrite slice_lookup, decide_True by lia. by rewrite Nat.add_0_r. }
    rewrite (Happ st3). apply StronglySorted_app_2.
    + intros x1 x2 Hx1 Hx2.
      assert (HxL : Forall (λ v, (p <? v)%float = false ∧ not_nan v)
                      (slice lo j st3)).
      { rewrite HL. apply Forall_and. split; [|done].
        apply slice_Forall. intros m Hm. apply Hl. lia. }
      assert (HxR : Forall (λ v, (v <? p)%float = false ∧ not_nan v)
                      (slice (S j) hi st3)).
      { rewrite HR. apply Forall_and. split; [|done].
        apply slice_Forall. intros m Hm. apply Hr. lia. }
      destruct (proj1 (Forall_forall _ _) HxL x1 Hx1) as [Hc1 Hn1].
      destruct (proj1 (Forall_forall _ _) HxR x2 Hx2) as [Hc2 Hn2].
      apply leb_not_ltb; [done..|]. by apply (ltb_neg_trans p).
    + rewrite Hleft3. by apply Hsort2.
    + apply Hsort3. by rewrite Hright2.
  - exists st. split; [done|]. split; [done|]. split; [done|].
    split; [done|]. intros _.
    assert (Hlen : length (slice lo hi st) ≤ 1).
    { unfold slice. rewrite length_take. lia. }
    destruct (slice lo hi st) as [|x [|y l]]; simpl in Hlen; try lia;
      repeat constructor.
Qed.

(** X19: [sort_tees (lo, hi)] on cells inside the tee stack returns, whatever
    the cells hold (infinities and NaNs included), and only reorders the
    cells [lo .. hi]: the stack afterwards is a permutation of the stack
    before, and the cells below [lo] and above [hi] are unchanged. *)
Theorem sort_tees_permutes (fuel : nat) (st : list float) (lo hi : nat) :
  (Z.of_nat (length st) < 2 ^ 32)%Z → hi < length st → hi - lo < fuel →
  ∃ st', sort_tees fuel st (Z.of_nat lo) (Z.of_nat hi) = Some st' ∧
         st' ≡ₚ st ∧ slice lo hi st' ≡ₚ slice lo hi st ∧
         take lo st' = take lo st ∧ drop (S hi) st' = drop (S hi) st.
Proof.
  intros Hsize Hhi Hfuel.
  destruct (sort_tees_spec fuel st lo hi Hsize Hhi Hfuel)
    as (st' & Hrun & Hlen & Hout & Hperm & _).
  exists st'. split; [done|].
  assert (Ht : take lo st' = take lo st).
  { apply list_eq. intros m. rewrite !lookup_take.
    case_decide; [|done]. apply Hout. lia. }
  assert (Hd : drop (S hi) st' = drop (S hi) st).
  { apply list_eq. intros m. rewrite !lookup_drop. apply Hout. lia. }
  split; [|done].
  destruct (decide (lo ≤ S hi)) as [Hlo|Hlo].
  - rewrite (slice_middle st' lo hi Hlo), (slice_middle st lo hi Hlo).
    rewrite Ht, Hd. by do 2 f_equiv.
  - apply reflexive_eq, list_eq. intros m. apply Hout. lia.
Qed.

Lemma sort_tees_permutes_witness :
  ∃ st', sort_tees 3 [2; 0.5; nan; 0.25; 7]%float 1 3 = Some st' ∧
         st' ≡ₚ [2; 0.5; nan; 0.25; 7]%float ∧
         take 1 st' = [2%float] ∧ drop 4 st' = [7%float].
Proof.
  destruct (sort_tees_permutes 3 [2; 0.5; nan; 0.25; 7]%float 1 3
              ltac:(simpl; lia) ltac:(simpl; lia) ltac:(lia))
    as (st' & Hrun & Hperm & _ & Ht & Hd).
  exists st'. split; [exact Hrun|]. split; [exact Hperm|].
  split; [exact Ht|exact Hd].
Defined.

(** X20: when the cells [lo .. hi] of the tee stack hold numbers (no NaN),
    [sort_tees (lo, hi)] leaves them in ascending order: every cell is
    [<=] every later one, and they hold the same values as before. *)
Theorem sort_tees_sorted (fuel : nat) (st : list float) (lo hi : nat) :
  (Z.of_nat (length st) < 2 ^ 32)%Z → hi < length st → hi - lo < fuel →
  Forall not_nan (slice lo hi st) →
  ∃ st', sort_tees fuel st (Z.of_nat lo) (Z.of_nat hi) = Some st' ∧
         StronglySorted fle (slice lo hi st') ∧
         slice lo hi st' ≡ₚ slice lo hi st.
Proof.
  intros Hsize Hhi Hfuel Hnan.
  destruct (sort_tees_spec fuel st lo hi Hsize Hhi Hfuel)
    as (st' & Hrun & _ & _ & Hperm & Hsort).
  exists st'. split; [done|]. split; [by apply Hsort|done].
Qed.

Lemma sort_tees_sorted_witness :
  ∃ st', sort_tees 4 [0.75; 0.5; 0.25; 0.5; 0]%float 0 3 = Some st' ∧
         StronglySorted fle (take 4 st').
Proof.
  destruct (sort_tees_sorted 4 [0.75; 0.5; 0.25; 0.5; 0]%float 0 3
              ltac:(simpl; lia) ltac:(simpl; lia) ltac:(lia)
              ltac:(by_compute))
    as (st' & Hrun & Hsort & _).
  exists st'. split; [exact Hrun|exact Hsort].
Defined.

(** ** The capacity of the tee stack *)

Lemma tee_pushes_below (vs : list float) :
  ∀ (t : tees) (n : nat),
    n ≤ tee_top t →
    take n (tee_stack (tee_pushes t vs)) = take n (tee_stack t).
Proof.
  induction vs as [|v vs IH]; intros t n Hn; [done|]. simpl.
  change (foldl _ ?a vs) with (tee_pushes a vs).
  rewrite IH by (simpl; lia). simpl. by rewrite take_insert_ge by lia.
Qed.

Lemma solve_quadratic_room (t : tees) (a b c : float) :
  tee_top t + 2 ≤ length (tee_stack t) →
  ∃ vs n, solve_quadratic t a b c = Some (tee_pushes t vs, n) ∧
          length vs ≤ 2.
Proof.
  intros Hroom. unfold solve_quadratic.
  repeat match goal with
  | |- context [if ?b then _ else _] => destruct b
  end;
  rewrite ?tee_push2_Some by lia; rewrite ?tee_push_Some by lia;
  cbn [mbind option_bind];
  rewrite ?tee_push_Some
    by (rewrite tee_pushes_top, tee_pushes_length; simpl; lia);
  cbn [mbind option_bind];
  first [ by exists [], 0%Z; split; [|simpl; lia]
        | by eexists [_], _; split; [|simpl; lia]
        | by eexists [_; _], _; split; [|simpl; lia] ].
Qed.

Section Capacity.

Variable hypot : float → float → float.
Variable h : heap.

Lemma inflection_tees_room (t : tees) (knots : ptr) (kp : knot_t) :
  h !! knots = Some kp → is_Some (h !! SUCC kp) →
  tee_top t + 2 ≤ length (tee_stack t) →
  ∃ vs, inflection_tees hypot h t knots = Some (tee_pushes t vs) ∧
        length vs ≤ 2.
Proof using All.
  intros Hp [kq Hq] Hroom. unfold inflection_tees.
  rewrite Hp. cbn [mbind option_bind]. rewrite Hq. cbn [mbind option_bind].
  match goal with |- context [solve_quadratic t ?a ?b ?c] =>
    destruct (solve_quadratic_room t a b c Hroom) as (vs & n & -> & Hvs)
  end.
  by exists vs.
Qed.

Lemma pen_tees_loop_room (pen : ptr) (x0 y0 x1 y1 x2 y2 : float)
    (s : list ptr) :
  ∀ (fuel : nat) (t : tees) (p : ptr),
    Forall2 (linked h) (p :: s) (s ++ [pen]) → pen ∉ s → length s < fuel →
    tee_top t + 2 * S (length s) ≤ length (tee_stack t) →
    ∃ vs, pen_tees_loop fuel pen h t x0 y0 x1 y1 x2 y2 p
          = Some (tee_pushes t vs) ∧
          length vs ≤ 2 * S (length s).
Proof.
  clear hypot. induction s as [|q s IH]; intros fuel t p HF Hpen Hfuel Hroom;
    (destruct fuel as [|fuel]; [lia|]); cbn [pen_tees_loop].
  - apply Forall2_cons_1 in HF as [HL _].
    apply linked_inv in HL as (kp & kq & Hp & Hq & Hs & _).
    rewrite Hp. cbn [mbind option_bind]. rewrite Hs, Hq.
    cbn [mbind option_bind]. unfold solve_bezier.
    match goal with |- context [solve_quadratic t ?a ?b ?c] =>
      destruct (solve_quadratic_room t a b c ltac:(simpl in Hroom; lia))
        as (vs & n & -> & Hvs)
    end.
    cbn [mbind option_bind]. rewrite decide_True by done.
    exists vs. split; [done|]. simpl. lia.
  - apply Forall2_cons_1 in HF as [HL HF].
    apply linked_inv in HL as (kp & kq & Hp & Hq & Hs & _).
    rewrite Hp. cbn [mbind option_bind]. rewrite Hs, Hq.
    cbn [mbind option_bind]. unfold solve_bezier.
    match goal with |- context [solve_quadratic t ?a ?b ?c] =>
      destruct (solve_quadratic_room t a b c ltac:(simpl in Hroom; lia))
        as (vs & n & -> & Hvs)
    end.
    cbn [mbind option_bind]. rewrite decide_False by set_solver.
    destruct (IH fuel (tee_pushes t vs) q HF ltac:(set_solver)
                ltac:(simpl in Hfuel; lia))
      as (ws & Hrun & Hws).
    { rewrite tee_pushes_top, tee_pushes_length. simpl in Hroom. lia. }
    exists (vs ++ ws). rewrite tee_pushes_app. split; [exact Hrun|].
    rewrite length_app. simpl in *. lia.
Qed.

Lemma tees_room (t : tees) (knots brush : ptr) (kp : knot_t)
    (l : list ptr) :
  is_ring h l → head l = Some brush →
  h !! knots = Some kp → is_Some (h !! SUCC kp) →
  tee_top t + (2 + 2 * length l) ≤ length (tee_stack t) →
  ∃ t1 t2,
    inflection_tees hypot h t knots = Some t1 ∧
    pen_tees h t1 knots brush = Some t2 ∧
    tee_top t ≤ tee_top t2 ≤ tee_top t + (2 + 2 * length l) ∧
    length (tee_stack t2) = length (tee_stack t) ∧
    take (tee_top t) (tee_stack t2) = take (tee_top t) (tee_stack t).
Proof using All.
  intros Hring Hhead Hp Hq Hroom.
  destruct l as [|pen s]; [done|]. injection Hhead as ->.
  destruct (inflection_tees_room t knots kp Hp Hq ltac:(lia))
    as (vs & Hrun1 & Hvs).
  exists (tee_pushes t vs).
  pose proof (is_ring_length _ _ Hring) as Hlen. simpl in Hlen, Hroom.
  destruct Hring as [Hnd HF]. apply NoDup_cons in Hnd as [Hpen _].
  destruct Hq as [kq Hq].
  destruct (pen_tees_loop_room brush
              (e_x (right_info kp) - k_x kp)%float
              (e_y (right_info kp) - k_y kp)%float
              (e_x (left_info kq) - e_x (right_info kp))%float
              (e_y (left_info kq) - e_y (right_info kp))%float
              (k_x kq - e_x (left_info kq))%float
              (k_y kq - e_y (left_info kq))%float
              s (length h) (tee_pushes t vs) brush HF Hpen ltac:(lia))
    as (ws & Hrun2 & Hws).
  { rewrite tee_pushes_top, tee_pushes_length. lia. }
  exists (tee_pushes (tee_pushes t vs) ws). split; [done|]. split.
  { unfold pen_tees. rewrite Hp. cbn [mbind option_bind]. rewrite Hq.
    cbn [mbind option_bind]. exact Hrun2. }
  rewrite !tee_pushes_top, !tee_pushes_length. split; [simpl; lia|].
  split; [done|].
  rewrite tee_pushes_below by (rewrite tee_pushes_top; lia).
  by rewrite tee_pushes_below.
Qed.

(** X21: the tee stack has room for the candidate tees of a segment.  For a
    segment whose two knots exist and a pen ring of [n] knots,
    [inflection_tees] followed by [pen_tees] returns when the stack has
    [2 + 2 * n] free cells, pushes at most that many tees, and leaves the
    cells below the old top and the size of the stack as they were.  From
    the empty stack of [2 * PEN_MAX] cells this covers every pen of fewer
    than [PEN_MAX] knots. *)
Theorem candidate_tees_room (t : tees) (knots brush : ptr) (kp : knot_t)
    (l : list ptr) :
  is_ring h l → head l = Some brush →
  h !! knots = Some kp → is_Some (h !! SUCC kp) →
  tee_top t + (2 + 2 * length l) ≤ length (tee_stack t) →
  ∃ t1 t2,
    inflection_tees hypot h t knots = Some t1 ∧
    pen_tees h t1 knots brush = Some t2 ∧
    tee_top t ≤ tee_top t2 ≤ tee_top t + (2 + 2 * length l) ∧
    length (tee_stack t2) = length (tee_stack t) ∧
    take (tee_top t) (tee_stack t2) = take (tee_top t) (tee_stack t).
Proof using All. apply tees_room. Qed.

End Capacity.

Lemma candidate_tees_room_witness :
  ∃ t1 t2,
    inflection_tees hypot_sqrt inflection_square_scene tees_init 0 = Some t1 ∧
    pen_tees inflection_square_scene t1 0 2 = Some t2 ∧
    tee_top t2 ≤ 10.
Proof.
  destruct (candidate_tees_room hypot_sqrt inflection_square_scene tees_init
              0 2 (default zero_knot (inflection_square_scene !! 0))
              [2; 3; 4; 5])
    as (t1 & t2 & Hrun1 & Hrun2 & [_ Htop] & _).
  - by_compute.
  - reflexivity.
  - reflexivity.
  - vm_compute. eexists. reflexivity.
  - vm_compute. lia.
  - exists t1, t2. split; [exact Hrun1|]. split; [exact Hrun2|exact Htop].
Defined.

(** ** The points that [convolve_all] emits *)

Lemma points_at_convolve (h : heap) (p r : ptr) (kp kq kr s4 s5 : knot_t) :
  h !! p = Some kp → h !! SUCC kp = Some kq →
  h !! r = Some kr → h !! PRED kr = Some s4 → h !! SUCC kr = Some s5 →
  let x2 := (e_x (right_info kp) - k_x kp)%float in
  let y2 := (e_y (right_info kp) - k_y kp)%float in
  let v1 :=
    if decide (left_type kp = kt_explicit)
    then ((k_x kp - e_x (left_info kp))%float, (k_y kp - e_y (left_info kp))%float)
    else ((- x2)%float, (- y2)%float) in
  points_at h p r
  = (if within_turn v1.1 v1.2 x2 y2 (k_x s5 - k_x kr) (k_y s5 - k_y kr)
     then move_points kp kr s5 else [])
    ++ (if within_turn (k_x kr - k_x s4) (k_y kr - k_y s4)
             (k_x s5 - k_x kr) (k_y s5 - k_y kr)
             (k_x kq - k_x kp) (k_y kq - k_y kp)
        then move_points kr kp kq else []).
Proof.
  intros Hp Hq Hr H4 H5. unfold points_at. rewrite Hp, Hr, Hq, H4, H5.
  by destruct (decide _).
Qed.

Section Emitted.

Variables (h : heap) (brush : ptr).

Lemma convolve_pen_loop_emitted (p : ptr) (kp kq : knot_t) (s : list ptr) :
  h !! p = Some kp → h !! SUCC kp = Some kq →
  let x2 := (e_x (right_info kp) - k_x kp)%float in
  let y2 := (e_y (right_info kp) - k_y kp)%float in
  let v1 :=
    if decide (left_type kp = kt_explicit)
    then ((k_x kp - e_x (left_info kp))%float, (k_y kp - e_y (left_info kp))%float)
    else ((- x2)%float, (- y2)%float) in
  let x3 := (k_x kq - k_x kp)%float in
  let y3 := (k_y kq - k_y kp)%float in
  ∀ (fuel : nat) (tb : tracebuf) (r : ptr),
  Forall2 (linked h) (r :: s) (s ++ [brush]) → brush ∉ s → length s < fuel →
  pen_ok h (r :: s) →
  trace_top tb + length (concat (points_at h p <$> r :: s))
    ≤ length (trace tb) →
  ∃ tb',
    convolve_pen_loop fuel brush h tb p v1.1 v1.2 x2 y2 x3 y3 r = Some tb' ∧
    emitted tb' = emitted tb ++ concat (points_at h p <$> r :: s) ∧
    trace_top tb' = trace_top tb + length (concat (points_at h p <$> r :: s)) ∧
    length (trace tb') = length (trace tb).
Proof.
  intros Hp Hq x2 y2 v1 x3 y3.
  induction s as [|r' s' IH]; intros fuel tb r HF Hb Hfuel Hok Hcap;
    (destruct fuel as [|fuel]; [simpl in Hfuel; lia|]);
    cbn [convolve_pen_loop];
    apply Forall2_cons_1 in HF as [HL HF];
    apply linked_inv in HL as (kr & ks & Hr & Hs & Hsucc & _);
    apply Forall_cons in Hok as [(kr' & s4 & Hr' & H4) Hok];
    rewrite Hr in Hr'; injection Hr' as <-;
    rewrite <- Hsucc in Hs;
    pose proof (convolve_spec h tb p r v1.1 v1.2 x2 y2 x3 y3 _ _ _ _ _
                  Hp Hq Hr H4 Hs ltac:(lia)) as Hc;
    pose proof (points_at_convolve h p r _ _ _ _ _ Hp Hq Hr H4 Hs) as Hm;
    cbv zeta in Hc, Hm; fold x2 y2 v1 x3 y3 in Hc, Hm;
    rewrite fmap_cons, concat_cons, length_app in Hcap;
    rewrite fmap_cons, concat_cons;
    set (fwd := within_turn _ _ _ _ _ _) in Hc, Hm;
    set (rev := within_turn _ _ _ _ _ _) in Hc, Hm;
    assert (Hn : length (points_at h p r)
                 = 4 * ((if fwd then 1 else 0) + (if rev then 1 else 0)))
      by (rewrite Hm; by destruct fwd, rev);
    (destruct (convolve h tb p _ _ _ _ _ _ r) as [tb1|];
       cbn [mbind option_bind]; [|lia]);
    destruct Hc as (_ & Htop & Hlen & Hem); rewrite <- Hm in Hem;
    rewrite Hr; cbn [mbind option_bind]; rewrite Hsucc.
  - rewrite decide_True by done. exists tb1.
    cbn [fmap list_fmap concat]. rewrite app_nil_r.
    split_and!; try done. lia.
  - rewrite decide_False by (intros ->; apply Hb; by left).
    destruct (IH fuel tb1 r' HF ltac:(intros ?; apply Hb; by right)
                ltac:(simpl in Hfuel; lia) Hok ltac:(lia))
      as (tb' & Hrun & Hem' & Htop' & Hlen').
    exists tb'. split; [done|]. rewrite Hem', Hem, Htop', Htop, Hlen', Hlen.
    rewrite length_app, app_assoc. split_and!; try done; lia.
Qed.

Lemma stroke_points_cons (p : ptr) (ps rs : list ptr) :
  stroke_points h (p :: ps) rs
  = concat (points_at h p <$> rs) ++ stroke_points h ps rs.
Proof. done. Qed.

Lemma convolve_all_loop_emitted (knots : ptr) (pen : list ptr) (s : list ptr) :
  is_ring h pen → head pen = Some brush →
  ∀ (fuel : nat) (tb : tracebuf) (p : ptr),
  Forall2 (linked h) (p :: s) (s ++ [knots]) → knots ∉ s → length s < fuel →
  trace_top tb + length (stroke_points h (p :: until_regular h s) pen)
    ≤ length (trace tb) →
  ∃ tb',
    convolve_all_loop fuel knots brush h tb p = Some tb' ∧
    emitted tb' = emitted tb ++ stroke_points h (p :: until_regular h s) pen ∧
    trace_top tb'
    = trace_top tb + length (stroke_points h (p :: until_regular h s) pen) ∧
    length (trace tb') = length (trace tb).
Proof using All.
  intros Hpen Hhd.
  destruct pen as [|b pen_t]; [done|]. injection Hhd as ->.
  pose proof (is_ring_length _ _ Hpen) as Hplen. simpl in Hplen.
  pose proof (is_ring_pen_ok _ _ Hpen) as Hok.
  destruct Hpen as [[Hb _]%NoDup_cons HFpen].
  induction s as [|q s' IH]; intros fuel tb p HF Hk Hfuel Hcap;
    (destruct fuel as [|fuel]; [simpl in Hfuel; lia|]);
    cbn [convolve_all_loop];
    apply Forall2_cons_1 in HF as [HL HF];
    apply linked_inv in HL as (kp & kq & Hp & Hq & Hsucc & _);
    rewrite Hp; cbn [mbind option_bind]; rewrite Hsucc, Hq;
    cbn [mbind option_bind];
    rewrite <- Hsucc in Hq;
    rewrite stroke_points_cons in Hcap |- *;
    rewrite length_app in Hcap |- *;
    destruct (convolve_pen_loop_emitted p kp kq pen_t Hp Hq (length h) tb
                brush HFpen Hb ltac:(lia) Hok ltac:(lia))
      as (tb1 & Hrun & Hem & Htop & Hlen);
    cbv zeta in Hrun;
    destruct (decide (left_type kp = kt_explicit));
    cbn [fst snd] in Hrun; cbv beta iota; rewrite Hrun;
    cbn [mbind option_bind].
  1,2: cbn [until_regular] in *; rewrite decide_True by done;
    exists tb1; change (stroke_points h [] (brush :: pen_t)) with (@nil point_t);
    rewrite app_nil_r; simpl; by rewrite Nat.add_0_r.
  all: rewrite decide_False by (intros ->; apply Hk; by left).
  all: cbn [until_regular] in Hcap |- *; rewrite <- Hsucc, Hq in Hcap |- *.
  all: change (right_type <$> Some kq) with (Some (right_type kq))
         in Hcap |- *.
  all: destruct (decide (right_type kq = kt_regular)) as [Hreg|Hreg].
  all: try (rewrite decide_True in Hcap |- * by (by rewrite Hreg);
      exists tb1; change (stroke_points h [] (brush :: pen_t)) with (@nil point_t);
      rewrite app_nil_r; simpl; by rewrite Nat.add_0_r).
  all: rewrite decide_False in Hcap |- * by (by intros [= ?]).
  all: assert (Hcap' : trace_top tb1
           + length (stroke_points h (SUCC kp :: until_regular h s')
                       (brush :: pen_t)) ≤ length (trace tb1))
         by (rewrite Htop, Hlen; lia).
  all: destruct (IH fuel tb1 (SUCC kp) ltac:(by rewrite Hsucc)
                  ltac:(intros ?; apply Hk; by right)
                  ltac:(simpl in Hfuel; lia) Hcap')
        as (tb' & Hrun' & Hem' & Htop' & Hlen').
  all: exists tb'; (split; [done|]);
      rewrite Hem', Hem, Htop', Htop, Hlen', Hlen, <- app_assoc;
      split_and!; try done; lia.
Qed.


End Emitted.

(** X22: [convolve_all] on a path ring and a pen ring, with room in the
    trace buffer, returns with exactly these points in the buffer, in
    this order: for each visited path knot (the head, then its successors
    up to the first one whose right side is regular) and for each pen
    knot in ring order, the pen edge moved to the path knot if the pen
    edge lies within the turn of the path there, then the path segment
    moved to the pen knot if its chord lies within the turn of the pen
    there.  What the buffer held before is discarded. *)
Theorem convolve_all_emitted (h : heap) (tb : tracebuf)
    (path pen : list ptr) (knots brush : ptr) :
  is_ring h path → head path = Some knots →
  is_ring h pen → head pen = Some brush →
  length (stroke_points h (segments h path) pen) ≤ length (trace tb) →
  ∃ tb', convolve_all h tb knots brush = Some tb' ∧
         emitted tb' = stroke_points h (segments h path) pen.
Proof.
  intros Hpath Hhd Hpen Hhd' Hcap.
  destruct path as [|p0 t]; [done|]. injection Hhd as ->.
  pose proof (is_ring_length _ _ Hpath) as Hlen. simpl in Hlen.
  destruct Hpath as [[Hp0 _]%NoDup_cons HF].
  destruct (convolve_all_loop_emitted h brush knots pen t Hpen Hhd'
              (length h) (Trace (trace tb) 0) knots HF Hp0 ltac:(lia)
              ltac:(simpl; exact Hcap))
    as (tb' & Hrun & Hem & _).
  exists tb'. split; [exact Hrun|]. by rewrite Hem.
Qed.

Lemma convolve_all_emitted_witness :
  ∃ tb', convolve_all straight_scene trace_init 4 0 = Some tb' ∧
         emitted tb' = stroke_points straight_scene [4] [0; 1; 2; 3].
Proof.
  apply (convolve_all_emitted straight_scene trace_init [4; 5] [0; 1; 2; 3]
           4 0 ltac:(by_compute) eq_refl ltac:(by_compute) eq_refl).
  vm_compute. lia.
Defined.

(** ** [split_at_tees] returns *)

Lemma is_ring_succ_mid (h : heap) (pre : list ptr) (p : ptr) (s : list ptr)
    (k : knot_t) (hd : ptr) :
  is_ring h (pre ++ p :: s) → head (pre ++ p :: s) = Some hd →
  h !! p = Some k →
  SUCC k = match s with [] => hd | q :: _ => q end.
Proof.
  intros Hr Hhd Hk.
  assert (Hi : (pre ++ p :: s) !! length pre = Some p)
    by (by apply list_lookup_middle).
  destruct pre as [|a pre']; simpl in *.
  - injection Hhd as <-.
    pose proof (is_ring_succ h p s 0 p k Hr eq_refl Hk) as H.
    destruct s; simpl in H; congruence.
  - injection Hhd as <-.
    pose proof (is_ring_succ h a (pre' ++ p :: s) (S (length pre')) p k Hr
                  Hi Hk) as H.
    rewrite <- app_assoc in H. simpl in H.
    rewrite lookup_app_r in H by lia.
    replace (S (length pre') - length pre') with 1 in H by lia.
    destruct s; simpl in H; congruence.
Qed.


Section SplitTotal.

Variable hypot : float → float → float.
Variables (knots brush : ptr) (pen : list ptr) (N : nat).
Hypothesis Hroom : 2 + 2 * length pen ≤ N.
Hypothesis Hsize : (Z.of_nat N < 2 ^ 32)%Z.
Hypothesis Hbrush : head pen = Some brush.

Local Arguments filter_tees : simpl never.
Local Arguments sort_tees : simpl never.
Local Arguments split_loop : simpl never.
Local Arguments inflection_tees : simpl never.
Local Arguments pen_tees : simpl never.


End SplitTotal.



(** ** [brush_tf] *)

Lemma is_ring_neighbours (h : heap) (l : list ptr) (a : ptr) (ka : knot_t) :
  is_ring h l → a ∈ l → h !! a = Some ka →
  ∃ kp ks, PRED ka ∈ l ∧ SUCC ka ∈ l ∧
           h !! PRED ka = Some kp ∧ h !! SUCC ka = Some ks ∧
           SUCC kp = a ∧ PRED ks = a.
Proof.
  intros Hr Ha Hka.
  destruct (is_ring_lookup _ _ a Hr Ha)
    as (q & Hq & (ka1 & kq & Hka1 & Hkq & Hs & Hp)%linked_inv).
  destruct (is_ring_pred _ _ a Hr Ha)
    as (p & Hp' & (kp & ka2 & Hkp & Hka2 & Hs' & Hp'')%linked_inv).
  assert (ka1 = ka) as -> by congruence.
  assert (ka2 = ka) as -> by congruence.
  exists kp, kq. subst. done.
Qed.

Section BrushTf.

Variables (h : heap) (l : list ptr) (m : matrix).
Hypothesis Hr : is_ring h l.

Let pos' (a : ptr) : knot_info :=
  match h !! a with Some k => tf_point m k | None => Info 0 0 end.

(** The knot at [a] once the knots of [done] have been processed. *)
Let exp (done : list ptr) (a : ptr) (k : knot_t) : knot_t :=
  if decide (a ∈ l) then
    Knot (list_node k)
         (if decide (a ∈ done) then e_x (tf_point m k) else k_x k)
         (if decide (a ∈ done) then e_y (tf_point m k) else k_y k)
         (if decide (PRED k ∈ done ∧ left_type k = kt_explicit)
          then pos' (PRED k) else left_info k)
         (if decide (SUCC k ∈ done ∧ right_type k = kt_explicit)
          then pos' (SUCC k) else right_info k)
         (left_type k) (right_type k)
  else k.

Let Inv (h' : heap) (done : list ptr) : Prop :=
  length h' = length h ∧ ∀ a k, h !! a = Some k → h' !! a = Some (exp done a k).

Lemma exp_frame (done : list ptr) (a : ptr) (k : knot_t) :
  list_node (exp done a k) = list_node k ∧
  left_type (exp done a k) = left_type k ∧
  right_type (exp done a k) = right_type k.
Proof. unfold exp. by case_decide. Qed.

Lemma exp_inside (done : list ptr) (a : ptr) (k : knot_t) :
  a ∈ l →
  exp done a k
  = Knot (list_node k)
         (if decide (a ∈ done) then e_x (tf_point m k) else k_x k)
         (if decide (a ∈ done) then e_y (tf_point m k) else k_y k)
         (if decide (PRED k ∈ done ∧ left_type k = kt_explicit)
          then pos' (PRED k) else left_info k)
         (if decide (SUCC k ∈ done ∧ right_type k = kt_explicit)
          then pos' (SUCC k) else right_info k)
         (left_type k) (right_type k).
Proof. intros Ha. unfold exp. by rewrite decide_True. Qed.

Lemma exp_outside (done : list ptr) (a : ptr) (k : knot_t) :
  a ∉ l → exp done a k = k.
Proof. intros Ha. unfold exp. by rewrite decide_False. Qed.

(** One turn of the loop of [brush_tf] at the knot [k]: the three
    stores, seen from the address [a]. *)
Lemma brush_tf_step (h' : heap) (pre : list ptr) (k : ptr)
    (kk kv0 kn0 : knot_t) :
  Inv h' pre → k ∈ l → k ∉ pre → h !! k = Some kk →
  h !! PRED kk = Some kv0 → h !! SUCC kk = Some kn0 →
  SUCC kv0 = k → PRED kn0 = k →
  let x := tf_row m.1.1 (k_x kk) (k_y kk) in
  let y := tf_row m.1.2 (k_x kk) (k_y kk) in
  let h1 := alter (set_xy x y) k h' in
  let h2 := if decide (left_type kn0 = kt_explicit)
            then alter (set_left_info (Info x y)) (SUCC kk) h1 else h1 in
  let h3 := if decide (right_type kv0 = kt_explicit)
            then alter (set_right_info (Info x y)) (PRED kk) h2 else h2 in
  Inv h3 (pre ++ [k]).
Proof using All.
  intros [Hlen Hinv] Hk Hkpre Hkk Hkv0 Hkn0 Hsv Hpn x y h1 h2 h3.
  split.
  { unfold h3, h2, h1.
    destruct (decide (right_type kv0 = kt_explicit)),
      (decide (left_type kn0 = kt_explicit));
      by rewrite ?length_alter. }
  intros a ka Ha.
  assert (Halt : ∀ (f : knot_t → knot_t) (i : ptr) (hh : heap),
            alter f i hh !! a
            = (if decide (a = i) then f else id) <$> hh !! a).
  { intros f i hh. case_decide as e.
    - subst. by rewrite list_lookup_alter_eq.
    - rewrite list_lookup_alter_ne by done. by destruct (hh !! a). }
  assert (H3 : h3 !! a
    = Some ((if decide (a = PRED kk ∧ right_type kv0 = kt_explicit)
             then set_right_info (Info x y) else id)
            ((if decide (a = SUCC kk ∧ left_type kn0 = kt_explicit)
              then set_left_info (Info x y) else id)
             ((if decide (a = k) then set_xy x y else id)
                (exp pre a ka))))).
  { unfold h3, h2, h1.
    destruct (decide (right_type kv0 = kt_explicit)) as [Hrv|Hrv],
      (decide (left_type kn0 = kt_explicit)) as [Hln|Hln];
      rewrite ?Halt, (Hinv a ka Ha); simpl;
      repeat (destruct (decide _) as [?|?]; simpl; try done);
      exfalso; tauto. }
  rewrite H3. f_equal. clear H3 Halt.
  destruct (decide (a ∈ l)) as [Hal|Hal].
  2: { rewrite !exp_outside by done.
       assert (a ≠ k) by (by intros ->).
       destruct (is_ring_neighbours h l k kk Hr Hk Hkk)
         as (? & ? & Hprev & Hnext & _).
       assert (a ≠ PRED kk) by (by intros ->).
       assert (a ≠ SUCC kk) by (by intros ->).
       rewrite !decide_False by tauto. done. }
  destruct (is_ring_neighbours h l a ka Hr Hal Ha)
    as (kpa & ksa & Hpa & Hsa & Hkpa & Hksa & Hspa & Hpsa).
  assert (Hposk : pos' k = Info x y) by (unfold pos'; by rewrite Hkk).
  assert (Enext : a = SUCC kk ↔ PRED ka = k).
  { split.
    - intros ->. assert (ka = kn0) as -> by congruence. done.
    - intros E. rewrite E in Hkpa. assert (kpa = kk) as -> by congruence.
      done. }
  assert (Eprev : a = PRED kk ↔ SUCC ka = k).
  { split.
    - intros ->. assert (ka = kv0) as -> by congruence. done.
    - intros E. rewrite E in Hksa. assert (ksa = kk) as -> by congruence.
      done. }
  assert (Hin : ∀ b, b ∈ pre ++ [k] ↔ b ∈ pre ∨ b = k).
  { intros b. rewrite elem_of_app, list_elem_of_singleton. done. }
  set (e := exp pre a ka).
  set (r := (if decide (a = PRED kk ∧ right_type kv0 = kt_explicit)
             then set_right_info (Info x y) else id)
            ((if decide (a = SUCC kk ∧ left_type kn0 = kt_explicit)
              then set_left_info (Info x y) else id)
             ((if decide (a = k) then set_xy x y else id) e))).
  assert (Pr : list_node r = list_node e ∧
               k_x r = (if decide (a = k) then x else k_x e) ∧
               k_y r = (if decide (a = k) then y else k_y e) ∧
               left_info r
               = (if decide (a = SUCC kk ∧ left_type kn0 = kt_explicit)
                  then Info x y else left_info e) ∧
               right_info r
               = (if decide (a = PRED kk ∧ right_type kv0 = kt_explicit)
                  then Info x y else right_info e) ∧
               left_type r = left_type e ∧ right_type r = right_type e).
  { unfold r. by repeat destruct (decide _). }
  destruct Pr as (P1 & P2 & P3 & P4 & P5 & P6 & P7).
  unfold e in P1, P2, P3, P4, P5, P6, P7.
  rewrite exp_inside in P1, P2, P3, P4, P5, P6, P7 by done.
  cbn [list_node k_x k_y left_info right_info left_type right_type]
    in P1, P2, P3, P4, P5, P6, P7.
  rewrite exp_inside by done.
  destruct r as [rn rx ry rl rr rlt rrt].
  cbn [list_node k_x k_y left_info right_info left_type right_type]
    in P1, P2, P3, P4, P5, P6, P7.
  subst rn rlt rrt. f_equal.
  - rewrite P2. destruct (decide (a = k)) as [->|Hak].
    + assert (ka = kk) as -> by congruence.
      by rewrite decide_True by (apply Hin; by right).
    + destruct (decide (a ∈ pre)) as [Hp|Hp].
      * by rewrite decide_True by (apply Hin; by left).
      * by rewrite decide_False by (rewrite Hin; tauto).
  - rewrite P3. destruct (decide (a = k)) as [->|Hak].
    + assert (ka = kk) as -> by congruence.
      by rewrite decide_True by (apply Hin; by right).
    + destruct (decide (a ∈ pre)) as [Hp|Hp].
      * by rewrite decide_True by (apply Hin; by left).
      * by rewrite decide_False by (rewrite Hin; tauto).
  - rewrite P4.
    destruct (decide (a = SUCC kk ∧ left_type kn0 = kt_explicit))
      as [[E T]|N].
    + assert (ka = kn0) as -> by congruence.
      rewrite decide_True by (split; [apply Hin; right; congruence|done]).
      by rewrite Hpn.
    + destruct (decide (PRED ka ∈ pre ∧ left_type ka = kt_explicit))
        as [[Hp T]|Hp].
      * by rewrite decide_True by (split; [apply Hin; by left|done]).
      * rewrite decide_False; [done|]. rewrite Hin. intros [[Hp'|Hp'] T].
        -- apply Hp. by split.
        -- apply N. apply Enext in Hp'. split; [done|].
           assert (ka = kn0) as -> by congruence. done.
  - rewrite P5.
    destruct (decide (a = PRED kk ∧ right_type kv0 = kt_explicit))
      as [[E T]|N].
    + assert (ka = kv0) as -> by congruence.
      rewrite decide_True by (split; [apply Hin; right; congruence|done]).
      by rewrite Hsv.
    + destruct (decide (SUCC ka ∈ pre ∧ right_type ka = kt_explicit))
        as [[Hp T]|Hp].
      * by rewrite decide_True by (split; [apply Hin; by left|done]).
      * rewrite decide_False; [done|]. rewrite Hin. intros [[Hp'|Hp'] T].
        -- apply Hp. by split.
        -- apply N. apply Eprev in Hp'. split; [done|].
           assert (ka = kv0) as -> by congruence. done.
Qed.

Lemma brush_tf_loop_spec (first : ptr) (s : list ptr) :
  ∀ (fuel : nat) (h' : heap) (pre : list ptr) (k : ptr) (kk : knot_t),
    l = pre ++ k :: s → head l = Some first → h !! k = Some kk →
    Inv h' pre → length s < fuel →
    ∃ h'', brush_tf_loop fuel first m h' k (PRED kk) = Some h'' ∧ Inv h'' l.
Proof using All.
  induction s as [|q s' IH]; intros fuel h' pre k kk El Hhd Hkk [Hlen Hinv] Hfuel;
    (destruct fuel as [|fuel]; [simpl in Hfuel; lia|]);
    cbn [brush_tf_loop].
  all: assert (Hnd : NoDup l) by (destruct l; [done|apply Hr]).
  all: assert (Hk : k ∈ l) by (rewrite El; apply elem_of_app; right; by left).
  all: assert (Hkpre : k ∉ pre)
    by (rewrite El in Hnd; apply NoDup_app in Hnd as (_ & Hnd & _);
        intros Hin; apply (Hnd k Hin); by left).
  all: destruct (is_ring_neighbours h l k kk Hr Hk Hkk)
    as (kv0 & kn0 & Hprev & Hnext & Hkv0 & Hkn0 & Hsv & Hpn).
  all: rewrite (Hinv k kk Hkk).
  all: assert (Ek : exp pre k kk
         = Knot (list_node kk) (k_x kk) (k_y kk)
                (left_info (exp pre k kk)) (right_info (exp pre k kk))
                (left_type kk) (right_type kk))
    by (unfold exp; rewrite decide_True by done; by rewrite !decide_False by done).
  all: cbn [mbind option_bind].
  all: replace (SUCC (exp pre k kk)) with (SUCC kk) by (by rewrite Ek).
  all: replace (k_x (exp pre k kk)) with (k_x kk) by (by rewrite Ek).
  all: replace (k_y (exp pre k kk)) with (k_y kk) by (by rewrite Ek).
  all: set (x := tf_row m.1.1 (k_x kk) (k_y kk)).
  all: set (y := tf_row m.1.2 (k_x kk) (k_y kk)).
  all: assert (Hlt : ∀ a ka, h !! a = Some ka → a < length h)
    by (intros a ka Ha; by eapply lookup_lt_Some).
  all: rewrite store_lt by (rewrite Hlen; by eapply Hlt).
  all: cbn [mbind option_bind].
  all: set (h1 := alter (set_xy x y) k h').
  all: assert (Hty' : ∀ a ka, h !! a = Some ka →
         left_type <$> h' !! a = Some (left_type ka) ∧
         right_type <$> h' !! a = Some (right_type ka))
    by (intros a ka Ha; rewrite (Hinv _ _ Ha); simpl;
        by destruct (exp_frame pre a ka) as (_ & -> & ->)).
  all: assert (Hn1 : ∃ kn, h1 !! SUCC kk = Some kn ∧ left_type kn0 = left_type kn)
    by (apply fmap_Some; unfold h1; rewrite proj_alter by done;
        apply (Hty' _ _ Hkn0)).
  all: destruct Hn1 as (kn & -> & Htn).
  all: cbn [mbind option_bind]; rewrite <- Htn.
  all: set (h2 := if decide (left_type kn0 = kt_explicit)
                  then alter (set_left_info (Info x y)) (SUCC kk) h1 else h1).
  all: assert (E2 : (if decide (left_type kn0 = kt_explicit)
                     then store h1 (SUCC kk) (set_left_info (Info x y))
                     else Some h1) = Some h2)
    by (unfold h2; destruct (decide (left_type kn0 = kt_explicit)); [|done];
        apply store_lt; unfold h1; rewrite length_alter, Hlen; by eapply Hlt).
  all: rewrite E2; cbn [mbind option_bind].
  all: assert (Hv2 : ∃ kv, h2 !! PRED kk = Some kv ∧ right_type kv0 = right_type kv)
    by (apply fmap_Some; unfold h2, h1;
        destruct (decide (left_type kn0 = kt_explicit));
        rewrite ?proj_alter by done; apply (Hty' _ _ Hkv0)).
  all: destruct Hv2 as (kv & -> & Htv).
  all: cbn [mbind option_bind]; rewrite <- Htv.
  all: set (h3 := if decide (right_type kv0 = kt_explicit)
                  then alter (set_right_info (Info x y)) (PRED kk) h2 else h2).
  all: assert (E3 : (if decide (right_type kv0 = kt_explicit)
                     then store h2 (PRED kk) (set_right_info (Info x y))
                     else Some h2) = Some h3)
    by (unfold h3; destruct (decide (right_type kv0 = kt_explicit)); [|done];
        apply store_lt; unfold h2, h1;
        destruct (decide (left_type kn0 = kt_explicit));
        rewrite ?length_alter, Hlen; by eapply Hlt).
  all: rewrite E3; cbn [mbind option_bind].
  all: pose proof (brush_tf_step h' pre k kk kv0 kn0 (conj Hlen Hinv) Hk Hkpre
                     Hkk Hkv0 Hkn0 Hsv Hpn) as Hinv3.
  all: cbv zeta in Hinv3; fold x y in Hinv3; fold h1 in Hinv3;
    fold h2 in Hinv3; fold h3 in Hinv3.
  all: pose proof (is_ring_succ_mid h pre k _ kk first
                     ltac:(by rewrite <- El) ltac:(by rewrite <- El) Hkk)
    as Hsucc; cbv iota in Hsucc.
  - rewrite decide_True by done. exists h3. split; [done|]. by rewrite El.
  - assert (Hneq : q ≠ first).
    { intros ->. rewrite El, (cons_middle k), app_assoc in Hnd, Hhd.
      apply NoDup_app in Hnd as (_ & Hnd & _).
      apply (Hnd first); [|by left].
      destruct (pre ++ [k]) eqn:E; [by destruct pre|].
      simpl in Hhd. injection Hhd as ->. by left. }
    rewrite Hsucc. rewrite decide_False by done.
    rewrite Hsucc in Hkn0.
    destruct (IH fuel h3 (pre ++ [k]) q kn0) as (h'' & Hrun & Hinv'').
    + by rewrite <- app_assoc.
    + done.
    + done.
    + done.
    + simpl in Hfuel. lia.
    + rewrite Hpn in Hrun. by exists h''.
Qed.

Lemma exp_nil (a : ptr) (k : knot_t) : exp [] a k = k.
Proof.
  unfold exp. case_decide; [|done].
  rewrite !decide_False
    by (first [intros [Hn _]|intros Hn]; by apply elem_of_nil in Hn).
  by destruct k.
Qed.

(** X24: [brush_tf] on a ring returns with the links and the side types
    of every knot as they were and every knot of the ring moved to the
    image of its position under the first two rows of the matrix.  Every
    explicit control point of the ring is overwritten: the left one with
    the new position of the predecessor, the right one with the new
    position of the successor (so that the control points no longer lie
    at a third of the chord, where [brush_make] puts them).  Control
    points of other types and knots outside the ring are untouched. *)
Theorem brush_tf_ring (first : ptr) :
  head l = Some first →
  ∃ h', brush_tf h first m = Some h' ∧ length h' = length h ∧
    is_ring h' l ∧
    (∀ a k, a ∈ l → h !! a = Some k →
       ∃ kp ks, h !! PRED k = Some kp ∧ h !! SUCC k = Some ks ∧
         h' !! a
         = Some (Knot (list_node k)
                      (e_x (tf_point m k)) (e_y (tf_point m k))
                      (if decide (left_type k = kt_explicit)
                       then tf_point m kp else left_info k)
                      (if decide (right_type k = kt_explicit)
                       then tf_point m ks else right_info k)
                      (left_type k) (right_type k))) ∧
    (∀ a, a ∉ l → h' !! a = h !! a).
Proof using All.
  intros Hhd.
  assert (El : ∃ s, l = first :: s).
  { clear -Hhd. destruct l as [|p0 s]; [done|]. injection Hhd as ->.
    by exists s. }
  destruct El as [s El].
  assert (Hf : first ∈ l) by (rewrite El; by left).
  destruct (is_ring_valid _ _ first Hr Hf) as [kf Hkf].
  pose proof (is_ring_length _ _ Hr) as Hlen. rewrite El in Hlen.
  simpl in Hlen.
  destruct (brush_tf_loop_spec first s (length h) h [] first kf El
              Hhd Hkf) as (h' & Hrun & Hlen' & Hinv).
  { split; [done|]. intros a k Ha. by rewrite exp_nil. }
  { lia. }
  exists h'. split.
  { unfold brush_tf. rewrite Hkf. exact Hrun. }
  split; [done|]. split.
  { eapply is_ring_nodes; [|exact Hr]. intros a Ha.
    destruct (is_ring_valid _ _ a Hr Ha) as [k Hk].
    rewrite (Hinv a k Hk), Hk. simpl.
    by destruct (exp_frame l a k) as (-> & _). }
  split.
  - intros a k Ha Hk.
    destruct (is_ring_neighbours h l a k Hr Ha Hk)
      as (kp & ks & Hp & Hs & Hkp & Hks & _).
    exists kp, ks. split; [done|]. split; [done|].
    rewrite (Hinv a k Hk), exp_inside by done.
    rewrite !(decide_True (P := a ∈ l)) by done.
    unfold pos'. rewrite Hkp, Hks.
    do 2 f_equal.
    + destruct (decide (PRED k ∈ l ∧ left_type k = kt_explicit))
        as [[_ T]|N].
      * by rewrite decide_True.
      * rewrite decide_False; [done|]. intros T. apply N. by split.
    + destruct (decide (SUCC k ∈ l ∧ right_type k = kt_explicit))
        as [[_ T]|N].
      * by rewrite decide_True.
      * rewrite decide_False; [done|]. intros T. apply N. by split.
  - intros a Ha. destruct (h !! a) as [k|] eqn:Hk.
    + by rewrite (Hinv a k Hk), exp_outside.
    + apply lookup_ge_None. rewrite Hlen'. by apply lookup_ge_None.
Qed.

End BrushTf.

Lemma brush_tf_ring_witness :
  ∃ h', brush_tf square_pen_validated 0 ((1, 0, 2), (0, 1, 3), (0, 0, 1))%float
        = Some h' ∧
        is_ring h' [0; 1; 2; 3] ∧
        (λ k, (k_x k, k_y k)) <$> h' !! 0 = Some (2.5, 3.5)%float.
Proof.
  destruct (brush_tf_ring square_pen_validated [0; 1; 2; 3]
              ((1, 0, 2), (0, 1, 3), (0, 0, 1))%float ltac:(by_compute)
              0 eq_refl)
    as (h' & Hrun & _ & Hring & Hknots & _).
  exists h'. split; [exact Hrun|]. split; [exact Hring|].
  destruct (Hknots 0 (default zero_knot (square_pen_validated !! 0))
              ltac:(by left) eq_refl) as (kp & ks & _ & _ & ->).
  vm_compute. reflexivity.
Defined.

(** ** The return path of [draw_shape] *)



(** ** [brush_make]: the duplicate-point check at the head *)

Lemma is_finite_SF (x : float) :
  is_finite x = true →
  match Prim2SF x with
  | S754_zero _ | S754_finite _ _ _ => True
  | _ => False
  end.
Proof.
  unfold is_finite, is_nan, is_infinity.
  rewrite !FloatAxioms.eqb_spec, abs_spec.
  destruct (Prim2SF x) as [s|s| |s m e]; try done; by destruct s.
Qed.

Lemma sub_diag_zero (x : float) :
  is_finite x = true → (0 =? x - x)%float = true.
Proof.
  intros Hx%is_finite_SF.
  rewrite FloatAxioms.eqb_spec, sub_spec.
  destruct (Prim2SF x) as [s|s| |s m e]; try done.
  - by destruct s.
  - unfold SF64sub, SFsub. rewrite Z.sub_diag. reflexivity.
Qed.

(** X26: when the head of the pen and its predecessor lie at the same
    point, with finite coordinates (a pen of a single knot in
    particular), [brush_make] returns -1 at once and stores nothing. *)
Theorem brush_make_duplicate_head (atan2 : float → float → float)
    (h : heap) (knots : ptr) (p q : knot_t) :
  h !! knots = Some p → h !! PRED p = Some q →
  k_x q = k_x p → k_y q = k_y p →
  is_finite (k_x p) = true → is_finite (k_y p) = true →
  brush_make atan2 h knots = Some (h, (-1)%Z).
Proof.
  intros Hp Hq Ex Ey Hfx Hfy. unfold brush_make.
  rewrite Hp. cbn [mbind option_bind]. rewrite Hq. cbn [mbind option_bind].
  rewrite Ex, Ey, !sub_diag_zero by done. reflexivity.
Qed.

Lemma brush_make_duplicate_head_witness :
  brush_make atan2_axis (moveto [] (Point 1 2)).1 0
  = Some ((moveto [] (Point 1 2)).1, (-1)%Z).
Proof.
  apply (brush_make_duplicate_head atan2_axis (moveto [] (Point 1 2)).1 0
           (Knot (Node 0 0) 1 2 (Info 0 0) (Info 0 0) kt_open kt_regular)
           (Knot (Node 0 0) 1 2 (Info 0 0) (Info 0 0) kt_open kt_regular));
    reflexivity.
Defined.
